(** * MeshCentral-ScriptTask: scheduler and remediation engine

    A shallow embedding of the cron scheduler's admission gates
    ([src/scheduler/index.js], [src/scheduler/maintenance-windows.js]) and of
    the remediation engine ([src/remediation/engine.js],
    [src/remediation/escalation.js], [src/remediation/actions.js], the
    workflow builder and the condition evaluator), with the properties the
    specification states about them.

    Conventions of the embedding.
    - A JavaScript number that the code only counts, compares or multiplies is
      an integer [Z]; rounding of IEEE doubles is outside the model.
    - An optional property of a JavaScript object is an [option]; the
      truthiness test [x || d] is written out with [truthyZ] / [truthyS].
    - A JavaScript object used as a dictionary is a [gmap] over its own
      properties.  The priority table and the step-type summary, object
      literals read under keys taken from documents, are read through
      [Proto], which adds the properties every object inherits. *)

From Stdlib Require Import ZArith QArith String Ascii List Lia Bool.
From stdpp Require Import base option list gmap sets strings relations pretty sorting.

Set Warnings "-register-all,-clear-no-such-hyp".
Local Close Scope Q_scope.
Local Open Scope string_scope.
Local Open Scope Z_scope.
Local Open Scope list_scope.
Local Open Scope stdpp_scope.

(** ** JavaScript idioms shared by all modules *)

(** [x || d] on an optional number: [undefined], [null] and [0] are falsy. *)
Definition orZ (x : option Z) (d : Z) : Z :=
  match x with
  | Some v => if Z.eqb v 0 then d else v
  | None => d
  end.

(** Truthiness of an optional number. *)
Definition truthyZ (x : option Z) : bool :=
  match x with
  | Some v => negb (Z.eqb v 0)
  | None => false
  end.

(** Truthiness of an optional string: [undefined] and [''] are falsy. *)
Definition truthyS (x : option string) : bool :=
  match x with
  | Some s => negb (String.eqb s "")
  | None => false
  end.

(** [x || d] on an optional string. *)
Definition orS (x : option string) (d : string) : string :=
  if truthyS x then default d x else d.

(** [a === b] between an optional string and a string literal. *)
Definition isS (x : option string) (lit : string) : bool :=
  match x with
  | Some s => String.eqb s lit
  | None => false
  end.

(** [Array.prototype.find]. *)
Fixpoint js_find {A} (p : A -> bool) (l : list A) : option A :=
  match l with
  | [] => None
  | x :: r => if p x then Some x else js_find p r
  end.

(** [Array.prototype.includes] on an array of strings. *)
Definition includesS (l : list string) (s : string) : bool :=
  existsb (String.eqb s) l.

(** [Array.prototype.join]. *)
Definition join (sep : string) (l : list string) : string := String.concat sep l.

(** A double quote, for messages that quote a value. *)
Definition dq : string := String (ascii_of_nat 34) EmptyString.

(** ** JavaScript values
    What a job result, a condition definition or a parsed JSON document
    holds, with the conversions the condition evaluator relies on.

    - Numbers are exact rationals, the two infinities and NaN; the rounding
      of IEEE doubles is outside the model.
    - Only own properties are read; an object holds each key once.
    - Two objects or two arrays are never the same reference: a job result
      and a condition definition share none.
    - White space and letter case are those of ASCII. *)
Module Js.

(** A number: a rational, an infinity, or NaN. *)
Inductive num :=
| NaN
| PInf
| NInf
| Fin (q : Q).

Inductive value :=
| VUndefined
| VNull
| VBool (b : bool)
| VNum (n : num)
| VStr (s : string)
| VArr (items : list value)
| VObj (fields : list (string * value)).

Definition num_of_Z (z : Z) : value := VNum (Fin (inject_Z z)).

(** ToBoolean. *)
Definition truthy (v : value) : bool :=
  match v with
  | VUndefined | VNull => false
  | VBool b => b
  | VNum NaN => false
  | VNum (Fin q) => negb (Qeq_bool q 0)
  | VNum _ => true
  | VStr s => negb (String.eqb s "")
  | VArr _ | VObj _ => true
  end.

(** [a || b]. *)
Definition or_else (a b : value) : value := if truthy a then a else b.

(** *** Characters and strings *)

Definition is_digit (c : ascii) : bool :=
  let n := nat_of_ascii c in Nat.leb 48 n && Nat.leb n 57.

(** [\w]. *)
Definition is_word (c : ascii) : bool :=
  let n := nat_of_ascii c in
  is_digit c || (Nat.leb 65 n && Nat.leb n 90) || (Nat.leb 97 n && Nat.leb n 122)
  || Nat.eqb n 95.

Definition is_space (c : ascii) : bool :=
  let n := nat_of_ascii c in
  Nat.eqb n 32 || (Nat.leb 9 n && Nat.leb n 13).

Definition lower (c : ascii) : ascii :=
  let n := nat_of_ascii c in
  if Nat.leb 65 n && Nat.leb n 90 then ascii_of_nat (n + 32) else c.

(** [String.prototype.toLowerCase]. *)
Fixpoint toLowerCase (s : string) : string :=
  match s with
  | EmptyString => EmptyString
  | String c r => String (lower c) (toLowerCase r)
  end.

(** [String.prototype.startsWith]. *)
Fixpoint startsWith (s p : string) : bool :=
  match p with
  | EmptyString => true
  | String a p' =>
      match s with
      | EmptyString => false
      | String b s' => Ascii.eqb a b && startsWith s' p'
      end
  end.

(** [String.prototype.includes]. *)
Fixpoint includes (s p : string) : bool :=
  startsWith s p ||
  match s with
  | EmptyString => false
  | String _ r => includes r p
  end.

Fixpoint string_rev (s acc : string) : string :=
  match s with
  | EmptyString => acc
  | String c r => string_rev r (String c acc)
  end.

(** [String.prototype.endsWith]. *)
Definition endsWith (s p : string) : bool :=
  startsWith (string_rev s "") (string_rev p "").

(** [String.prototype.split('.')]. *)
Fixpoint split_dots (s : string) (part : string) : list string :=
  match s with
  | EmptyString => [string_rev part ""]
  | String c r =>
      if Ascii.eqb c "."%char then string_rev part "" :: split_dots r ""
      else split_dots r (String c part)
  end.

Definition split_dot (s : string) : list string := split_dots s "".

(** The longest run of characters that satisfy [p] at the head of [s], and
    what follows it. *)
Fixpoint span (p : ascii -> bool) (s : string) : string * string :=
  match s with
  | EmptyString => (EmptyString, EmptyString)
  | String c r =>
      if p c then let '(a, b) := span p r in (String c a, b)
      else (EmptyString, s)
  end.

(** [s] without its first [n] characters. *)
Fixpoint drop (n : nat) (s : string) : string :=
  match n, s with
  | S n', String _ r => drop n' r
  | _, _ => s
  end.

Fixpoint trim_start (s : string) : string :=
  match s with
  | String c r => if is_space c then trim_start r else s
  | EmptyString => EmptyString
  end.

Definition trim (s : string) : string :=
  string_rev (trim_start (string_rev (trim_start s) "")) "".

(** *** Numeric literals *)

Definition digit_value (c : ascii) : Z :=
  let n := Z.of_nat (nat_of_ascii c) in
  if is_digit c then n - 48
  else if (Z.leb 97 n && Z.leb n 102)%bool then n - 87
  else if (Z.leb 65 n && Z.leb n 70)%bool then n - 55
  else 99.

(** The value of a run of digits in the given radix. *)
Fixpoint digits_value (radix : Z) (s : string) (acc : Z) : Z :=
  match s with
  | EmptyString => acc
  | String c r => digits_value radix r (acc * radix + digit_value c)
  end.

(** [mantissa * 10 ^ exponent]. *)
Definition scale (mantissa exponent : Z) : Q :=
  if Z.leb 0 exponent then inject_Z (mantissa * 10 ^ exponent)
  else Qmake mantissa (Z.to_pos (10 ^ (- exponent))).

(** An optional sign at the head of [s]: the sign and what follows. *)
Definition sign_of (s : string) : bool * string :=
  match s with
  | String "-"%char r => (true, r)
  | String "+"%char r => (false, r)
  | _ => (false, s)
  end.

(** The exponent part at the head of [s], when there is one, and what
    follows it. *)
Definition exponent_of (s : string) : Z * string :=
  match s with
  | String c r =>
      if Ascii.eqb c "e"%char || Ascii.eqb c "E"%char then
        let '(neg, r1) := sign_of r in
        let '(ds, r2) := span is_digit r1 in
        if String.eqb ds "" then (0, s)
        else ((if neg then - digits_value 10 ds 0 else digits_value 10 ds 0), r2)
      else (0, s)
  | EmptyString => (0, s)
  end.

(** The longest decimal literal (StrDecimalLiteral) at the head of [s] and
    what follows it; [None] when [s] starts with none. *)
Definition decimal_prefix (s : string) : option (num * string) :=
  let '(neg, r) := sign_of s in
  if startsWith r "Infinity"
  then Some ((if neg then NInf else PInf), drop 8 r)
  else
    let '(int_part, r1) := span is_digit r in
    let '(frac_part, r2) :=
      match r1 with
      | String "."%char r1' => span is_digit r1'
      | _ => (EmptyString, r1)
      end in
    if String.eqb int_part "" && String.eqb frac_part "" then None
    else
      let '(e, r3) := exponent_of r2 in
      let m := digits_value 10 (int_part +:+ frac_part) 0 in
      let q := scale (if neg then - m else m) (e - Z.of_nat (String.length frac_part)) in
      Some (Fin q, r3).

(** [parseFloat(s)]. *)
Definition parseFloat (s : string) : num :=
  match decimal_prefix (trim_start s) with
  | Some (n, _) => n
  | None => NaN
  end.

(** A literal [0x..], [0o..] or [0b..] in full. *)
Definition radix_literal (s : string) : option num :=
  match s with
  | String "0"%char (String c r) =>
      let radix :=
        if Ascii.eqb c "x"%char || Ascii.eqb c "X"%char then 16
        else if Ascii.eqb c "o"%char || Ascii.eqb c "O"%char then 8
        else if Ascii.eqb c "b"%char || Ascii.eqb c "B"%char then 2
        else 0 in
      if Z.eqb radix 0 then None
      else
        let '(ds, rest) := span (fun d => Z.ltb (digit_value d) radix) r in
        if String.eqb ds "" || negb (String.eqb rest "") then Some NaN
        else Some (Fin (inject_Z (digits_value radix ds 0)))
  | _ => None
  end.

(** ToNumber on a string (StringToNumber). *)
Definition string_to_number (s : string) : num :=
  let t := trim s in
  if String.eqb t "" then Fin 0
  else
    match radix_literal t with
    | Some n => n
    | None =>
        match decimal_prefix t with
        | Some (n, EmptyString) => n
        | _ => NaN
        end
    end.

(** [parseInt] on a run of decimal digits. *)
Definition parseInt_digits (s : string) : nat := Z.to_nat (digits_value 10 s 0).

Section Conversions.
(** Number::toString on a finite number. *)
Variable number_to_string : Q -> string.

Definition num_to_string (n : num) : string :=
  match n with
  | NaN => "NaN"
  | PInf => "Infinity"
  | NInf => "-Infinity"
  | Fin q => number_to_string q
  end.

(** [String(v)]. *)
Fixpoint to_string (v : value) : string :=
  match v with
  | VUndefined => "undefined"
  | VNull => "null"
  | VBool true => "true"
  | VBool false => "false"
  | VNum n => num_to_string n
  | VStr s => s
  | VArr items =>
      join "," (map (fun x => match x with
                              | VUndefined | VNull => ""
                              | _ => to_string x
                              end) items)
  | VObj _ => "[object Object]"
  end.

(** ToNumber. *)
Definition to_number (v : value) : num :=
  match v with
  | VUndefined => NaN
  | VNull => Fin 0
  | VBool true => Fin 1
  | VBool false => Fin 0
  | VNum n => n
  | VStr s => string_to_number s
  | VArr _ | VObj _ => string_to_number (to_string v)
  end.

(** [isNaN(v)]. *)
Definition isNaN (v : value) : bool :=
  match to_number v with NaN => true | _ => false end.

(** [x < y] on numbers; [None] is "undefined" (a NaN operand). *)
Definition num_lt (x y : num) : option bool :=
  match x, y with
  | NaN, _ | _, NaN => None
  | PInf, _ => Some false
  | _, NInf => Some false
  | NInf, _ => Some true
  | _, PInf => Some true
  | Fin a, Fin b => Some (negb (Qle_bool b a))
  end.

(** ToPrimitive with hint number, on what matters for a comparison: a
    string stays a string, an object or array becomes its string. *)
Definition to_primitive (v : value) : value :=
  match v with
  | VArr _ | VObj _ => VStr (to_string v)
  | _ => v
  end.

(** The abstract relational comparison [a < b]. *)
Definition less (a b : value) : option bool :=
  match to_primitive a, to_primitive b with
  | VStr x, VStr y => Some (String.ltb x y)
  | x, y => num_lt (to_number x) (to_number y)
  end.

Definition is_true (r : option bool) : bool := from_option (fun b => b) false r.
Definition is_false (r : option bool) : bool := from_option negb false r.

(** [a < b], [a > b], [a <= b], [a >= b]. *)
Definition lt (a b : value) : bool := is_true (less a b).
Definition gt (a b : value) : bool := is_true (less b a).
Definition lte (a b : value) : bool := is_false (less b a).
Definition gte (a b : value) : bool := is_false (less a b).

Definition num_eq (x y : num) : bool :=
  match x, y with
  | PInf, PInf | NInf, NInf => true
  | Fin a, Fin b => Qeq_bool a b
  | _, _ => false
  end.

(** [a === b]. *)
Definition strict_eq (a b : value) : bool :=
  match a, b with
  | VUndefined, VUndefined | VNull, VNull => true
  | VBool x, VBool y => Bool.eqb x y
  | VNum x, VNum y => num_eq x y
  | VStr x, VStr y => String.eqb x y
  | _, _ => false
  end.

(** SameValueZero, the equality of [Array.prototype.includes]. *)
Definition same_value_zero (a b : value) : bool :=
  match a, b with
  | VNum NaN, VNum NaN => true
  | _, _ => strict_eq a b
  end.

(** [Array.prototype.includes]. *)
Definition array_includes (items : list value) (x : value) : bool :=
  existsb (fun y => same_value_zero y x) items.

(** [v[key]] for a string key; [None] is the TypeError of reading a
    property of [undefined] or [null]. *)
Definition get (v : value) (key : string) : option value :=
  match v with
  | VUndefined | VNull => None
  | VObj fields =>
      Some (from_option snd VUndefined
              (js_find (fun kv => String.eqb (fst kv) key) fields))
  | VArr items =>
      if String.eqb key "length" then Some (num_of_Z (Z.of_nat (length items)))
      else
        let '(ds, rest) := span is_digit key in
        if negb (String.eqb ds "") && String.eqb rest ""
           && String.eqb (pretty (parseInt_digits ds)) key
        then Some (nth (parseInt_digits ds) items VUndefined)
        else Some VUndefined
  | VStr s =>
      if String.eqb key "length" then Some (num_of_Z (Z.of_nat (String.length s)))
      else
        let '(ds, rest) := span is_digit key in
        if negb (String.eqb ds "") && String.eqb rest ""
           && String.eqb (pretty (parseInt_digits ds)) key
        then Some (match String.get (parseInt_digits ds) s with
                   | Some c => VStr (String c EmptyString)
                   | None => VUndefined
                   end)
        else Some VUndefined
  | VBool _ | VNum _ => Some VUndefined
  end.

(** [v[index]] for a numeric index on an array. *)
Definition at_index (items : list value) (index : nat) : value :=
  nth index items VUndefined.
End Conversions.

End Js.

(** ** Properties every object inherits

    [obj[key]] on an object literal finds the object's own properties first
    and then those of [Object.prototype], whatever the key.  The code reads
    such objects where it expects a number; what it then gets is a [scalar]. *)
Module Proto.

(** The properties of [Object.prototype] (Node.js). *)
Definition object_prototype : list string :=
  [ "constructor"; "__defineGetter__"; "__defineSetter__"; "hasOwnProperty";
    "__lookupGetter__"; "__lookupSetter__"; "isPrototypeOf";
    "propertyIsEnumerable"; "toString"; "valueOf"; "__proto__"; "toLocaleString" ].

(** [key] names a property that every object inherits. *)
Definition inherited (key : string) : bool := includesS object_prototype key.

(** What is read where a number is expected.
    - [Number n]: a number.
    - [Member p]: the inherited property [p] itself, a function (for
      [__proto__], the prototype object).
    - [Text p k]: a string, the source text of [Member p] followed by [k]
      digits 1; the text itself is the runtime's. *)
Inductive scalar :=
| Number (n : Z)
| Member (property : string)
| Text (property : string) (ones : nat).

(** ToBoolean: a function, an object and a non-empty string are truthy. *)
Definition truthy (v : scalar) : bool :=
  match v with
  | Number n => negb (Z.eqb n 0)
  | Member _ | Text _ _ => true
  end.

(** [x || d], [x] being [undefined] when [None]. *)
Definition or_else (x : option scalar) (d : scalar) : scalar :=
  match x with
  | Some v => if truthy v then v else d
  | None => d
  end.

(** [v + 1]: addition on a number; a function or an object is converted to
    its text first, and the digit is appended to a string. *)
Definition plus_one (v : scalar) : scalar :=
  match v with
  | Number n => Number (n + 1)
  | Member p => Text p 1
  | Text p k => Text p (S k)
  end.

(** [a - b]: both sides are converted to numbers; [None] is NaN, which the
    text of a function or of an object converts to. *)
Definition minus (a b : scalar) : option Z :=
  match a, b with
  | Number m, Number n => Some (m - n)
  | _, _ => None
  end.

(** [obj[key]], [own] being the own properties of the object literal
    [obj]. *)
Definition get (own : gmap string scalar) (key : string) : option scalar :=
  match own !! key with
  | Some v => Some v
  | None => if inherited key then Some (Member key) else None
  end.

(** [obj[key] = v] for a [v] that is a number or a string: an own property
    is written, except that the setter of [__proto__] ignores a value that
    is no object. *)
Definition set (own : gmap string scalar) (key : string) (v : scalar)
    : gmap string scalar :=
  if String.eqb key "__proto__" then own else <[key := v]> own.

End Proto.

(** ** The data model: workflows, steps, executions, jobs *)
Module Model.

(** A document identifier ([_id]).  [db.formatId] and [toString] convert
    between its string and its stored form; both forms are this number. *)
Definition DocId := nat.

(** [step.retryPolicy]. *)
Record RetryPolicy := {
  maxAttempts : option Z;
  backoffType : option string;
  delaySeconds : option Z
}.

(** One step of a workflow.  The empty string stands for a missing [id]. *)
Record Step := {
  id : string;
  name : option string;
  type : option string;
  timeout : option Z;
  scriptId : option string;
  script : option string;
  priority : option string;
  url : option string;
  method : option string;
  to : option string;
  subject : option string;
  body : option string;
  template : option string;
  duration : option Z;
  condition : option Js.value;
  onSuccess : option string;
  onFailure : option string;
  onTrue : option string;
  onFalse : option string;
  retryPolicy : option RetryPolicy;
  rollbackScriptId : option string
}.

(** A script step running [sid], with its two transitions. *)
Definition script_step (i sid : string) (ok ko : option string) : Step :=
  {| id := i; name := None; type := Some "script"; timeout := None;
     scriptId := Some sid; script := None; priority := None;
     url := None; method := None; to := None; subject := None;
     body := None; template := None; duration := None; condition := None;
     onSuccess := ok; onFailure := ko; onTrue := None; onFalse := None;
     retryPolicy := None; rollbackScriptId := None |}.

(** A remediation workflow document. *)
Record Workflow := {
  w_id : DocId;
  w_name : string;
  w_enabled : bool;
  w_steps : option (list Step);
  w_startStep : option string;
  w_escalationEnabled : bool;
  w_escalationPolicyId : option DocId;
  w_rollbackEnabled : bool
}.

(** One entry of [execution.stepResults]. *)
Record StepResult := {
  sr_stepId : string;
  sr_stepName : string;
  sr_stepType : option string;
  sr_status : string;
  sr_startTime : Z;
  sr_endTime : Z;
  sr_output : option string;
  sr_error : option string;
  sr_retryCount : option Z
}.

(** A remediation execution document.  [e_duration] is kept in
    milliseconds (the source divides by 1000). *)
Record Execution := {
  e_id : DocId;
  e_workflowId : DocId;
  e_workflowName : string;
  e_nodeId : string;
  e_status : string;
  e_currentStep : option string;
  e_triggeredBy : string;
  e_triggerType : string;
  e_startTime : Z;
  e_endTime : option Z;
  e_duration : option Z;
  e_completionReason : option string;
  e_completedAt : option Z;
  e_stepResults : list StepResult
}.

(** A job document; [metadata.reason] and [metadata.originalStepId] are
    kept flat. *)
Record Job := {
  j_id : DocId;
  j_scriptId : option string;
  j_node : string;
  j_state : string;
  j_queueTime : Z;
  j_priority : string;
  j_scheduleId : option DocId;
  j_remediationExecutionId : option DocId;
  j_remediationStepId : option string;
  j_tags : list string;
  j_reason : option string;
  j_originalStepId : option string
}.

(** [schedule.concurrency]. *)
Record Concurrency := {
  maxPerNode : option Z;
  maxPerMesh : option Z;
  maxGlobal : option Z
}.

(** A [schedule_v2] document. *)
Record Schedule := {
  s_id : DocId;
  s_name : string;
  s_priority : option string;
  s_maintenanceWindowIds : option (list DocId);
  s_dependsOn : option (list DocId);
  s_lastRun : option Z;
  s_concurrency : option Concurrency;
  s_missedJobPolicy : option string
}.

(** A [maintenance_window] document; [mw_duration] is in seconds. *)
Record Window := {
  mw_id : DocId;
  mw_name : string;
  mw_enabled : bool;
  mw_cronExpression : string;
  mw_timezone : option string;
  mw_duration : Z;
  mw_allowedPriorities : option (list string)
}.

End Model.

(** ** Workflow validation ([WorkflowBuilder]) *)
Module Builder.
Import Model.

Definition stepTypes : list string :=
  ["script"; "webhook"; "email"; "delay"; "condition"].

Definition httpMethods : list string :=
  ["GET"; "POST"; "PUT"; "PATCH"; "DELETE"].

Definition pre (s : Step) : string := "Step " +:+ id s +:+ ": ".

(** [validateScriptStep] and its siblings return the errors they push. *)
Definition validateScriptStep (s : Step) : list string :=
  if negb (truthyS (scriptId s)) && negb (truthyS (script s))
  then [pre s +:+ "script step must have scriptId or script defined"]
  else [].

Section WithURL.
(** [new URL(u)] succeeds. *)
Variable validURL : string -> bool.

Definition validateWebhookStep (s : Step) : list string :=
  (if negb (truthyS (url s))
   then [pre s +:+ "webhook step must have url defined"]
   else if validURL (default "" (url s)) then []
   else [pre s +:+ "invalid webhook URL " +:+ dq +:+ default "" (url s) +:+ dq])
  ++
  (if truthyS (method s) && negb (includesS httpMethods (default "" (method s)))
   then [pre s +:+ "invalid HTTP method " +:+ dq +:+ default "" (method s) +:+ dq]
   else []).

Definition validateEmailStep (s : Step) : list string :=
  (if negb (truthyS (to s))
   then [pre s +:+ "email step must have to field defined"] else [])
  ++ (if negb (truthyS (subject s))
      then [pre s +:+ "email step must have subject defined"] else [])
  ++ (if negb (truthyS (body s)) && negb (truthyS (template s))
      then [pre s +:+ "email step must have body or template defined"] else []).

Definition validateDelayStep (s : Step) : list string :=
  if negb (truthyZ (duration s))
  then [pre s +:+ "delay step must have duration defined"]
  else if Z.leb (default 0 (duration s)) 0
       then [pre s +:+ "delay duration must be a positive number"]
       else [].

Definition validateConditionStep (s : Step) : list string :=
  (if negb (from_option Js.truthy false (condition s))
   then [pre s +:+ "condition step must have condition defined"] else [])
  ++ (if negb (truthyS (onTrue s)) && negb (truthyS (onFalse s))
      then [pre s +:+ "condition step must have at least onTrue or onFalse defined"]
      else []).

(** [validateStep(step)]: the errors it pushes. *)
Definition validateStep (s : Step) : list string :=
  if String.eqb (id s) "" then ["Step must have an id"]
  else if negb (truthyS (type s)) then [pre s +:+ "must have a type"]
  else
    let t := default "" (type s) in
    (if negb (includesS stepTypes t)
     then [pre s +:+ "invalid type " +:+ dq +:+ t +:+ dq
             +:+ ". Must be one of: " +:+ join ", " stepTypes]
     else [])
    ++ (match timeout s with
        | Some n => if Z.leb n 0
                    then [pre s +:+ "timeout must be a positive number"] else []
        | None => []
        end)
    ++ (if String.eqb t "script" then validateScriptStep s
        else if String.eqb t "webhook" then validateWebhookStep s
        else if String.eqb t "email" then validateEmailStep s
        else if String.eqb t "delay" then validateDelayStep s
        else if String.eqb t "condition" then validateConditionStep s
        else []).
End WithURL.

(** *** Cycle detection *)

(** [stepMap]: a later step with the same id replaces an earlier one. *)
Definition build_stepMap (steps : list Step) : gmap string Step :=
  fold_left (fun m s => <[id s := s]> m) steps ∅.

(** The three variables [detectCycle] closes over. *)
Record Dfs := {
  visited : gset string;
  recursionStack : gset string;
  errors : list string
}.

(** The targets [detectCycle] follows out of a step, in the order it
    follows them. *)
Definition followed (s : Step) : list (option string) :=
  [onSuccess s; onFailure s]
  ++ (if isS (type s) "condition" then [onTrue s; onFalse s] else []).

(** [detectCycle(stepId, path)].  The recursion of the source is bounded
    here by [fuel]; [None] is running out of it.  The boolean the source
    returns is dropped: no caller reads it. *)
Fixpoint detectCycle (fuel : nat) (stepMap : gmap string Step)
    (stepId : option string) (path : list string) (st : Dfs) : option Dfs :=
  match fuel with
  | O => None
  | S fuel' =>
      if negb (truthyS stepId) then Some st
      else
        let x := default "" stepId in
        if decide (x ∈ recursionStack st) then
          Some {| visited := visited st;
                  recursionStack := recursionStack st;
                  errors := errors st ++
                    ["Circular dependency detected: " +:+ join " -> " (path ++ [x])] |}
        else if decide (x ∈ visited st) then Some st
        else
          let st1 := {| visited := {[x]} ∪ visited st;
                        recursionStack := {[x]} ∪ recursionStack st;
                        errors := errors st |} in
          st2 ← match stepMap !! x with
                | Some step =>
                    foldl (fun acc tgt =>
                             a ← acc;
                             if truthyS tgt
                             then detectCycle fuel' stepMap tgt (path ++ [x]) a
                             else Some a)
                          (Some st1) (followed step)
                | None => Some st1
                end;
          Some {| visited := visited st2;
                  recursionStack := recursionStack st2 ∖ {[x]};
                  errors := errors st2 |}
  end.

(** Every string [detectCycle] can be called on. *)
Definition universe (start : option string) (steps : list Step) : gset string :=
  list_to_set (omap (fun o => o) (start :: flat_map (fun s => Some (id s) :: followed s) steps)).

Record CheckResult := { valid : bool; check_errors : list string }.

(** [checkCircularDependencies()], with the recursion of [detectCycle]
    bounded by the number of strings it can visit. *)
Definition run_checks (start : option string) (steps : list Step) : option Dfs :=
  let stepMap := build_stepMap steps in
  let fuel := S (size (universe start steps)) in
  st0 ← (if truthyS start
         then detectCycle fuel stepMap start [] {| visited := ∅; recursionStack := ∅; errors := [] |}
         else Some {| visited := ∅; recursionStack := ∅; errors := [] |});
  foldl (fun acc s =>
           a ← acc;
           if decide (id s ∈ visited a) then Some a
           else detectCycle fuel stepMap (Some (id s)) [] a)
        (Some st0) steps.

Definition checkCircularDependencies (start : option string) (steps : list Step) : CheckResult :=
  let errs := from_option errors [] (run_checks start steps) in
  {| valid := match errs with [] => true | _ => false end; check_errors := errs |}.

Section Validate.
Variable validURL : string -> bool.

(** [validateWorkflow()]. *)
Definition validateWorkflow (wf : Workflow) : CheckResult :=
  match w_steps wf with
  | None => {| valid := false; check_errors := ["Workflow must have a steps array"] |}
  | Some [] => {| valid := false; check_errors := ["Workflow must have at least one step"] |}
  | Some steps =>
      let stepIds := map id steps in
      let errs :=
        (if negb (Nat.eqb (length stepIds) (size (list_to_set stepIds : gset string)))
         then ["All step IDs must be unique"] else [])
        ++ flat_map (validateStep validURL) steps
        ++ flat_map (fun s =>
             (if truthyS (onSuccess s) && negb (includesS stepIds (default "" (onSuccess s)))
              then [pre s +:+ "onSuccess references non-existent step " +:+ default "" (onSuccess s)]
              else [])
             ++
             (if truthyS (onFailure s) && negb (includesS stepIds (default "" (onFailure s)))
              then [pre s +:+ "onFailure references non-existent step " +:+ default "" (onFailure s)]
              else [])) steps
        ++ (if negb (truthyS (w_startStep wf))
            then ["Workflow must have a startStep defined"]
            else if negb (includesS stepIds (default "" (w_startStep wf)))
                 then ["startStep " +:+ default "" (w_startStep wf) +:+ " does not exist in steps"]
                 else [])
        ++ check_errors (checkCircularDependencies (w_startStep wf) steps) in
      {| valid := match errs with [] => true | _ => false end; check_errors := errs |}
  end.
End Validate.

(** *** The transition graph *)

(** The transitions the engine takes out of a step ([handleStepResult]):
    [onTrue]/[onFalse] for a condition step, [onSuccess]/[onFailure]
    otherwise. *)
Definition transitions (s : Step) : list (option string) :=
  if isS (type s) "condition" then [onTrue s; onFalse s]
  else [onSuccess s; onFailure s].

(** [y] is a target of [x] among [tgts]. *)
Definition targets (tgts : list (option string)) (y : string) : Prop :=
  Some y ∈ tgts ∧ y ≠ "".

(** An edge the detector follows. *)
Definition followed_edge (stepMap : gmap string Step) (x y : string) : Prop :=
  ∃ s, stepMap !! x = Some s ∧ targets (followed s) y.

(** An edge the engine takes: it looks the step up with [steps.find]. *)
Definition transition_edge (steps : list Step) (x y : string) : Prop :=
  ∃ s, js_find (fun s => String.eqb (id s) x) steps = Some s ∧ targets (transitions s) y.

(** The workflow has a cycle of transitions. *)
Definition has_cycle (steps : list Step) : Prop :=
  ∃ x, tc (transition_edge steps) x x.

Definition is_circular_error (e : string) : bool :=
  String.prefix "Circular dependency detected: " e.

(** *** Invariants of the depth-first search

    A visited string off the recursion stack is finished ("black").  As
    long as no error is recorded, a finished step has only finished
    successors and lies on no cycle. *)

Definition black (st : Dfs) : gset string := visited st ∖ recursionStack st.

Definition Inv (sm : gmap string Step) (st : Dfs) : Prop :=
  recursionStack st ⊆ visited st ∧
  (errors st = [] →
     (∀ y z, y ∈ black st → followed_edge sm y z → z ∈ black st) ∧
     (∀ y, y ∈ black st → ¬ tc (followed_edge sm) y y)).

Definition circular (l : list string) : Prop :=
  Forall (fun e => is_circular_error e = true) l.

Definition Post (sm : gmap string Step) (st st' : Dfs) : Prop :=
  recursionStack st' = recursionStack st ∧
  visited st ⊆ visited st' ∧
  (errors st' = [] → errors st = []) ∧
  (circular (errors st) → circular (errors st')) ∧
  Inv sm st'.

(** One round of the closing loop of [checkCircularDependencies]. *)
Definition sweep (fuel : nat) (sm : gmap string Step) :=
  (fun (acc : option Dfs) (s : Step) =>
     a ← acc;
     if decide (id s ∈ visited a) then Some a
     else detectCycle fuel sm (Some (id s)) [] a).

Definition dfs0 : Dfs := {| visited := ∅; recursionStack := ∅; errors := [] |}.

(** *** Example workflows *)

Definition mk_workflow (steps : list Step) (start : option string) : Workflow :=
  {| w_id := 1%nat; w_name := "workflow"; w_enabled := true; w_steps := Some steps;
     w_startStep := start; w_escalationEnabled := false;
     w_escalationPolicyId := None; w_rollbackEnabled := false |}.

Definition steps_AB : list Step :=
  [script_step "A" "s1" (Some "B") None; script_step "B" "s2" (Some "A") None].

Definition steps_ABC : list Step :=
  [script_step "A" "s1" (Some "B") None; script_step "B" "s2" (Some "C") None;
   script_step "C" "s3" None None].

Definition steps_ABC_XY : list Step :=
  steps_ABC ++ [script_step "X" "s4" (Some "Y") None; script_step "Y" "s5" (Some "X") None].

(** One round of the loop of [detectCycle] over the followed targets. *)
Definition visit (sm : gmap string Step) (fuel : nat) (path : list string) :=
  (fun (acc : option Dfs) (tgt : option string) =>
     a ← acc;
     if truthyS tgt then detectCycle fuel sm tgt path a else Some a).

(** [fuel] suffices for every call that starts with [visited] inside [U]. *)
Definition Tot (sm : gmap string Step) (U : gset string) (fuel : nat) : Prop :=
  ∀ x p st, (truthyS x = true → default "" x ∈ U) → visited st ⊆ U →
    (size (U ∖ visited st) < fuel)%nat →
    ∃ st', detectCycle fuel sm x p st = Some st' ∧ visited st' ⊆ U ∧ visited st ⊆ visited st'.

End Builder.

(** ** The condition evaluator ([ConditionEvaluator]) *)
Module Conditions.
Import Js.

Section Evaluator.
(** Number::toString on a finite number. *)
Variable number_to_string : Q -> string.
(** [new RegExp(pattern, flags).test(text)]; [None] when the constructor
    throws. *)
Variable regex_test : string -> string -> string -> option bool.
(** [JSON.parse(text)]; [None] when it throws. *)
Variable json_parse : string -> option value.

Local Abbreviation to_string := (Js.to_string number_to_string).
Local Abbreviation isNaN := (Js.isNaN number_to_string).

(** The pattern [new RegExp(b)] compiles. *)
Definition regex_source (b : value) : string :=
  match b with
  | VUndefined => "(?:)"
  | _ => to_string b
  end.

(** [this.operators[operator]]: [None] when the table has no such
    entry.  An entry applied to two values gives a boolean, or throws
    ([None]). *)
Definition operators (operator : value) : option (value -> value -> option bool) :=
  let key := to_string operator in
  if String.eqb key "eq" then Some (fun a b => Some (strict_eq a b))
  else if String.eqb key "ne" then Some (fun a b => Some (negb (strict_eq a b)))
  else if String.eqb key "gt" then Some (fun a b => Some (gt number_to_string a b))
  else if String.eqb key "gte" then Some (fun a b => Some (gte number_to_string a b))
  else if String.eqb key "lt" then Some (fun a b => Some (lt number_to_string a b))
  else if String.eqb key "lte" then Some (fun a b => Some (lte number_to_string a b))
  else if String.eqb key "contains"
       then Some (fun a b => Some (includes (to_string a) (to_string b)))
  else if String.eqb key "notContains"
       then Some (fun a b => Some (negb (includes (to_string a) (to_string b))))
  else if String.eqb key "regex"
       then Some (fun a b => regex_test (regex_source b) "" (to_string a))
  else if String.eqb key "in"
       then Some (fun a b => Some (match b with
                                   | VArr items => array_includes items a
                                   | _ => false
                                   end))
  else if String.eqb key "notIn"
       then Some (fun a b => Some (match b with
                                   | VArr items => negb (array_includes items a)
                                   | _ => false
                                   end))
  else None.

(** The first match of [/(\w+)\[(\d+)\]/] in [part], scanned from the
    left: the array name and the index.  [name] is the run of word
    characters read so far, reversed. *)
Fixpoint array_match (part : string) (name : string) : option (string * nat) :=
  match part with
  | EmptyString => None
  | String c r =>
      if Ascii.eqb c "["%char then
        let '(ds, after) := span is_digit r in
        if negb (String.eqb name "") && negb (String.eqb ds "")
           && startsWith after "]"
        then Some (string_rev name "", parseInt_digits ds)
        else array_match r ""
      else if is_word c then array_match r (String c name)
      else array_match r ""
  end.

(** The loop of [extractField] over the parts of the path. *)
Fixpoint walk (current : value) (parts : list string) : value :=
  match parts with
  | [] => current
  | part :: rest =>
      match current with
      | VUndefined | VNull => VNull
      | _ =>
          let read key := default VUndefined (get current key) in
          if includes part "[" then
            match array_match part "" with
            | Some (arrayName, index) =>
                match read arrayName with
                | VArr items => walk (at_index items index) rest
                | other => walk other rest
                end
            | None => walk (read part) rest
            end
          else walk (read part) rest
      end
  end.

(** [extractField(obj, path)]; [None] when it throws ([path.split] on a
    path that is no string). *)
Definition extractField (obj : value) (path : value) : option value :=
  if negb (truthy path) then Some obj
  else
    match path with
    | VStr p => Some (walk obj (split_dot p))
    | _ => None
    end.

(** [evaluateExitCode(condition, jobResult)]; [None] when it throws. *)
Definition evaluateExitCode (condition jobResult : value) : option bool :=
  found ← get jobResult "exitCode";
  let exitCode := match found with VUndefined => VNull | v => v end in
  expected ← get condition "exitCode";
  operator ← (o ← get condition "operator"; Some (or_else o (VStr "eq")));
  match exitCode with
  | VNull => Some false
  | _ =>
      match operators operator with
      | None => Some false
      | Some opFunc => opFunc exitCode expected
      end
  end.

(** [text.includes(pattern)], [text.startsWith(pattern)] and
    [text.endsWith(pattern)] as the output-pattern evaluator calls them:
    a string has the three methods, an array has [includes] alone, and
    calling a method that is missing throws ([None]). *)
Definition call_includes (text pattern : value) : option bool :=
  match text with
  | VStr s => Some (includes s (to_string pattern))
  | VArr items => Some (array_includes items pattern)
  | _ => None
  end.

Definition call_startsWith (text pattern : value) : option bool :=
  match text with
  | VStr s => Some (startsWith s (to_string pattern))
  | _ => None
  end.

Definition call_endsWith (text pattern : value) : option bool :=
  match text with
  | VStr s => Some (endsWith s (to_string pattern))
  | _ => None
  end.

(** [v.toLowerCase()]. *)
Definition call_toLowerCase (v : value) : option value :=
  match v with
  | VStr s => Some (VStr (toLowerCase s))
  | _ => None
  end.

(** [evaluateOutputPattern(condition, jobResult)]. *)
Definition evaluateOutputPattern (condition jobResult : value) : option bool :=
  out ← get jobResult "output";
  stdout ← get jobResult "stdout";
  let output := or_else (or_else out stdout) (VStr "") in
  pattern ← get condition "pattern";
  matchType ← (m ← get condition "matchType"; Some (or_else m (VStr "contains")));
  cs ← get condition "caseSensitive";
  let caseSensitive := negb (strict_eq cs (VBool false)) in
  searchText ← (if caseSensitive then Some output else call_toLowerCase output);
  searchPattern ← (if caseSensitive then Some pattern else call_toLowerCase pattern);
  if strict_eq matchType (VStr "contains") then call_includes searchText searchPattern
  else if strict_eq matchType (VStr "notContains")
       then negb <$> call_includes searchText searchPattern
  else if strict_eq matchType (VStr "regex")
       then Some (default false
                    (regex_test (regex_source searchPattern)
                       (if caseSensitive then "" else "i") (to_string output)))
  else if strict_eq matchType (VStr "startsWith")
       then call_startsWith searchText searchPattern
  else if strict_eq matchType (VStr "endsWith")
       then call_endsWith searchText searchPattern
  else Some false.

(** [evaluateThreshold(condition, jobResult)]. *)
Definition evaluateThreshold (condition jobResult : value) : option bool :=
  field ← get condition "field";
  operator ← (o ← get condition "operator"; Some (or_else o (VStr "gt")));
  threshold ← get condition "value";
  extracted ← extractField jobResult field;
  let actualValue :=
    match extracted with
    | VStr s => VNum (parseFloat s)
    | v => v
    end in
  if isNaN actualValue then Some false
  else
    match operators operator with
    | None => Some false
    | Some opFunc => opFunc actualValue threshold
    end.

(** [evaluateJsonPath(condition, jobResult)]. *)
Definition evaluateJsonPath (condition jobResult : value) : option bool :=
  path ← get condition "path";
  operator ← (o ← get condition "operator"; Some (or_else o (VStr "eq")));
  expected ← get condition "value";
  output ← get jobResult "output";
  let data :=
    match output with
    | VStr text =>
        match json_parse text with
        | Some parsed => parsed
        | None => VObj [("output", output)]
        end
    | _ => jobResult
    end in
  actualValue ← extractField data path;
  match operators operator with
  | None => Some false
  | Some opFunc => opFunc actualValue expected
  end.

(** [evaluate(condition, jobResult)] and [evaluateComposite], which call
    each other.  The nesting of the source is bounded here by [depth];
    [evaluate_at] is given more of it than a condition can nest.
    A throw inside ([None]) is caught by [evaluate] and becomes
    [false]. *)
Fixpoint evaluate_at (depth : nat) (condition jobResult : value) : bool :=
  let evaluateComposite (nested : value -> bool) : option bool :=
    logic ← (l ← get condition "logic"; Some (or_else l (VStr "and")));
    conditions ← (c ← get condition "conditions"; Some (or_else c (VArr [])));
    if strict_eq logic (VStr "and") then
      match conditions with
      | VArr items => Some (forallb nested items)
      | _ => None
      end
    else if strict_eq logic (VStr "or") then
      match conditions with
      | VArr items => Some (existsb nested items)
      | _ => None
      end
    else if strict_eq logic (VStr "not") then
      first ← get conditions "0";
      Some (negb (nested first))
    else Some false in
  default false
    (if negb (truthy condition) then Some false
     else
       type ← get condition "type";
       if negb (truthy type) then Some false
       else if strict_eq type (VStr "exitCode") then evaluateExitCode condition jobResult
       else if strict_eq type (VStr "outputPattern")
            then evaluateOutputPattern condition jobResult
       else if strict_eq type (VStr "threshold") then evaluateThreshold condition jobResult
       else if strict_eq type (VStr "jsonPath") then evaluateJsonPath condition jobResult
       else if strict_eq type (VStr "composite") then
         match depth with
         | O => None
         | S depth' =>
             evaluateComposite (fun c => evaluate_at depth' c jobResult)
         end
       else Some false).

(** How deep the values nest. *)
Fixpoint nesting (v : value) : nat :=
  match v with
  | VArr items => S (fold_right (fun x n => Nat.max (nesting x) n) O items)
  | VObj fields => S (fold_right (fun kv n => Nat.max (nesting (snd kv)) n) O fields)
  | _ => O
  end.

(** [evaluate(condition, jobResult)]. *)
Definition evaluate (condition jobResult : value) : bool :=
  evaluate_at (S (nesting condition)) condition jobResult.
End Evaluator.

End Conditions.

(** ** Retry decisions ([EscalationManager.handleStepFailure]) *)
Module Escalation.
Import Model.

(** [{ shouldRetry, delay }]; the delay is in seconds. *)
Record RetryDecision := { shouldRetry : bool; delay : Z }.

(** [retryPolicy.maxAttempts || 3], with [retryPolicy = step.retryPolicy || {}]. *)
Definition attempt_ceiling (step : Step) : Z :=
  orZ (p ← retryPolicy step; maxAttempts p) 3.

(** [retryPolicy.backoffType || 'exponential']. *)
Definition backoff (step : Step) : string :=
  orS (p ← retryPolicy step; backoffType p) "exponential".

(** [retryPolicy.delaySeconds || 60]. *)
Definition base_delay (step : Step) : Z :=
  orZ (p ← retryPolicy step; delaySeconds p) 60.

(** The retries the step has consumed, as the execution records them:
    [stepResult ? stepResult.retryCount || 0 : 0] for the first result of
    the step. *)
Definition consumed (execution : Execution) (step : Step) : Z :=
  match js_find (fun r => String.eqb (sr_stepId r) (id step)) (e_stepResults execution) with
  | Some r => orZ (sr_retryCount r) 0
  | None => 0
  end.

(** [handleStepFailure(execution, step, error)].  Nothing in its body can
    throw on these types, so its [catch] is never entered.
    [Math.pow(2, retryCount)] is [2 ^ retryCount] for the counts
    [retryCount >= 0] that executions record. *)
Definition handleStepFailure (execution : Execution) (step : Step) : RetryDecision :=
  let maxAttempts := attempt_ceiling step in
  let backoffType := backoff step in
  let baseDelay := base_delay step in
  let retryCount := consumed execution step in
  if Z.geb retryCount maxAttempts then {| shouldRetry := false; delay := 0 |}
  else
    let delay :=
      if String.eqb backoffType "exponential" then baseDelay * 2 ^ retryCount
      else if String.eqb backoffType "linear" then baseDelay * (retryCount + 1)
      else baseDelay in
    {| shouldRetry := true; delay := Z.min delay 3600 |}.

(** A step with a retry policy. *)
Definition with_policy (s : Step) (p : RetryPolicy) : Step :=
  {| id := id s; name := name s; type := type s; timeout := timeout s;
     scriptId := scriptId s; script := script s; priority := priority s;
     url := url s; method := method s; to := to s; subject := subject s;
     body := body s; template := template s; duration := duration s;
     condition := condition s;
     onSuccess := onSuccess s; onFailure := onFailure s;
     onTrue := onTrue s; onFalse := onFalse s;
     retryPolicy := Some p; rollbackScriptId := rollbackScriptId s |}.

(** An execution of workflow 1 on node [n] with the given step results. *)
Definition execution_with (results : list StepResult) : Execution :=
  {| e_id := 7%nat; e_workflowId := 1%nat; e_workflowName := "workflow";
     e_nodeId := "node"; e_status := "running"; e_currentStep := None;
     e_triggeredBy := "admin"; e_triggerType := "manual"; e_startTime := 0;
     e_endTime := None; e_duration := None; e_completionReason := None;
     e_completedAt := None; e_stepResults := results |}.

(** A recorded result of step [i] that consumed [n] retries. *)
Definition result_with (i : string) (n : Z) : StepResult :=
  {| sr_stepId := i; sr_stepName := i; sr_stepType := Some "script";
     sr_status := "failed"; sr_startTime := 0; sr_endTime := 0;
     sr_output := None; sr_error := None; sr_retryCount := Some n |}.

End Escalation.

(** ** The persistence collaborator ([db.scriptFile]) and the engine's memory

    One collection of documents, kept in insertion order.  Every access to the
    collection may raise: [faults] schedules, access by access, whether the
    next one does ([true]); an exhausted schedule means no further fault. *)
Module Store.
Import Model.

Inductive Doc :=
| DWorkflow (w : Workflow)
| DExecution (e : Execution)
| DJob (j : Job)
| DQuarantine (i : DocId) (nodeId : string) (active : bool)
| DSchedule (s : Schedule)
| DWindow (m : Window).

(** [doc._id]. *)
Definition doc_id (d : Doc) : DocId :=
  match d with
  | DWorkflow w => w_id w
  | DExecution e => e_id e
  | DJob j => j_id j
  | DQuarantine i _ _ => i
  | DSchedule s => s_id s
  | DWindow m => mw_id m
  end.

Record World := {
  docs : list Doc;
  next_id : DocId;
  faults : list bool;
  clock : Z;
  activeExecutions : gset DocId;
  quarantinedNodes : gset string
}.

Definition set_docs (f : list Doc -> list Doc) (w : World) : World :=
  {| docs := f (docs w); next_id := next_id w; faults := faults w; clock := clock w;
     activeExecutions := activeExecutions w; quarantinedNodes := quarantinedNodes w |}.

Definition set_next_id (n : DocId) (w : World) : World :=
  {| docs := docs w; next_id := n; faults := faults w; clock := clock w;
     activeExecutions := activeExecutions w; quarantinedNodes := quarantinedNodes w |}.

Definition set_faults (fs : list bool) (w : World) : World :=
  {| docs := docs w; next_id := next_id w; faults := fs; clock := clock w;
     activeExecutions := activeExecutions w; quarantinedNodes := quarantinedNodes w |}.

Definition set_active (f : gset DocId -> gset DocId) (w : World) : World :=
  {| docs := docs w; next_id := next_id w; faults := faults w; clock := clock w;
     activeExecutions := f (activeExecutions w); quarantinedNodes := quarantinedNodes w |}.

Definition set_quarantined (f : gset string -> gset string) (w : World) : World :=
  {| docs := docs w; next_id := next_id w; faults := faults w; clock := clock w;
     activeExecutions := activeExecutions w; quarantinedNodes := f (quarantinedNodes w) |}.

(** *** Computations that read and write the world and may throw *)

Inductive result (A : Type) :=
| Ok (a : A)
| Raised (message : string).
Arguments Ok {A} a.
Arguments Raised {A} message.

Definition M (A : Type) : Type := World -> result A * World.

Definition ret {A} (a : A) : M A := fun w => (Ok a, w).

Definition throw {A} (message : string) : M A := fun w => (Raised message, w).

Definition bind {A B} (m : M A) (k : A -> M B) : M B :=
  fun w => match m w with
           | (Ok a, w') => k a w'
           | (Raised e, w') => (Raised e, w')
           end.

(** [try { m } catch (e) { h(e.message) }]. *)
Definition try_catch {A} (m : M A) (h : string -> M A) : M A :=
  fun w => match m w with
           | (Ok a, w') => (Ok a, w')
           | (Raised e, w') => h e w'
           end.

(** [for (const x of l) { await body(x) }]. *)
Fixpoint for_each {A} (l : list A) (body : A -> M unit) : M unit :=
  match l with
  | [] => ret tt
  | x :: r => bind (body x) (fun _ => for_each r body)
  end.

(** [Date.now()]. *)
Definition now : M Z := fun w => (Ok (clock w), w).

(** One access to the collection: it raises when the schedule says so. *)
Definition access : M unit :=
  fun w => match faults w with
           | true :: fs => (Raised "database error", set_faults fs w)
           | false :: fs => (Ok tt, set_faults fs w)
           | [] => (Ok tt, w)
           end.

(** [findOne(query)]: the first document that matches. *)
Definition findOne (query : Doc -> bool) : M (option Doc) :=
  bind access (fun _ w => (Ok (js_find query (docs w)), w)).

(** [find(query).toArray()]. *)
Definition find (query : Doc -> bool) : M (list Doc) :=
  bind access (fun _ w => (Ok (List.filter query (docs w)), w)).

Fixpoint update_first (query : Doc -> bool) (f : Doc -> Doc) (l : list Doc) : list Doc :=
  match l with
  | [] => []
  | d :: r => if query d then f d :: r else d :: update_first query f r
  end.

(** [updateOne(query, update)]: the first document that matches is
    updated. *)
Definition updateOne (query : Doc -> bool) (update : Doc -> Doc) : M unit :=
  bind access (fun _ w => (Ok tt, set_docs (update_first query update) w)).

(** [insertOne(doc)]: the document gets a fresh [_id], which is returned
    ([result.insertedId]). *)
Definition insertOne (mk : DocId -> Doc) : M DocId :=
  bind access (fun _ w =>
    (Ok (next_id w),
     set_next_id (S (next_id w)) (set_docs (fun l => l ++ [mk (next_id w)]) w))).

(** Queries. *)
Definition has_id (i : DocId) (d : Doc) : bool := Nat.eqb (doc_id d) i.

Definition is_workflow (i : DocId) (d : Doc) : bool :=
  match d with DWorkflow w => Nat.eqb (w_id w) i | _ => false end.

Definition is_execution (i : DocId) (d : Doc) : bool :=
  match d with DExecution e => Nat.eqb (e_id e) i | _ => false end.

Definition is_running_execution (d : Doc) : bool :=
  match d with DExecution e => String.eqb (e_status e) "running" | _ => false end.

Definition is_running_for (workflowId : DocId) (nodeId : string) (d : Doc) : bool :=
  match d with
  | DExecution e =>
      Nat.eqb (e_workflowId e) workflowId && String.eqb (e_nodeId e) nodeId
      && String.eqb (e_status e) "running"
  | _ => false
  end.

Definition is_active_quarantine (d : Doc) : bool :=
  match d with DQuarantine _ _ active => active | _ => false end.

(** [$set] on the fields of an execution; a document of another type has
    none of them and is left as it is. *)
Definition on_execution (f : Execution -> Execution) (d : Doc) : Doc :=
  match d with DExecution e => DExecution (f e) | _ => d end.

(** The stored document with the given [_id]. *)
Definition lookup (w : World) (i : DocId) : option Doc := js_find (has_id i) (docs w).

(** Identifiers are unique and below the next fresh one. *)
Definition well_formed (w : World) : Prop :=
  NoDup (map doc_id (docs w)) ∧ ∀ d, d ∈ docs w -> (doc_id d < next_id w)%nat.

End Store.

Notation "x <~ m ;; k" := (Store.bind m (fun x => k))
  (at level 100, m at next level, right associativity).
Notation "m ;;; k" := (Store.bind m (fun _ => k))
  (at level 100, right associativity).

(** ** Rollback ([ActionHandler.performRollback]) *)
Module Actions.
Import Model Store.

(** [{ stepId, scriptId }], one entry of [rollbackSteps]. *)
Record RollbackStep := { rb_stepId : string; rb_scriptId : string }.

(** The loop that collects [rollbackSteps], over the step results taken
    from the last to the first.  [workflow.steps.find] throws when the
    workflow has no steps array. *)
Fixpoint collect (steps : option (list Step)) (backwards : list StepResult)
    : result (list RollbackStep) :=
  match backwards with
  | [] => Ok []
  | r :: rest =>
      if String.eqb (sr_status r) "success" then
        match steps with
        | None => Raised "Cannot read properties of undefined (reading 'find')"
        | Some l =>
            let step := js_find (fun s => String.eqb (id s) (sr_stepId r)) l in
            match collect steps rest with
            | Raised e => Raised e
            | Ok more =>
                match step with
                | Some s =>
                    if truthyS (rollbackScriptId s)
                    then Ok ({| rb_stepId := id s;
                                rb_scriptId := default "" (rollbackScriptId s) |} :: more)
                    else Ok more
                | None => Ok more
                end
            end
        end
      else collect steps rest
  end.

(** What the specification describes: taking the step results in reverse
    order of completion, one entry for each successful result whose step
    declares a rollback script. *)
Definition rollback_entry (steps : list Step) (r : StepResult) : option RollbackStep :=
  if String.eqb (sr_status r) "success" then
    s ← js_find (fun s => String.eqb (id s) (sr_stepId r)) steps;
    if truthyS (rollbackScriptId s)
    then Some {| rb_stepId := id s; rb_scriptId := default "" (rollbackScriptId s) |}
    else None
  else None.

Definition rollback_plan (steps : list Step) (results : list StepResult)
    : list RollbackStep :=
  omap (rollback_entry steps) (rev results).

(** The job queued for one rollback step. *)
Definition rollback_job (execution : Execution) (queueTime : Z) (rb : RollbackStep)
    (i : DocId) : Doc :=
  DJob {| j_id := i; j_scriptId := Some (rb_scriptId rb); j_node := e_nodeId execution;
          j_state := "pending"; j_queueTime := queueTime; j_priority := "high";
          j_scheduleId := None;
          j_remediationExecutionId := Some (e_id execution);
          j_remediationStepId := None;
          j_tags := ["rollback"; "remediation"];
          j_reason := Some "Rollback from failed remediation";
          j_originalStepId := Some (rb_stepId rb) |}.

(** The jobs a rollback appends to the collection, numbered from [first]. *)
Definition rollback_jobs (execution : Execution) (queueTime : Z) (first : DocId)
    (plan : list RollbackStep) : list Doc :=
  imap (fun k rb => rollback_job execution queueTime rb (first + k)%nat) plan.

(** [$set: { status: 'rolled_back', completedAt }]. *)
Definition set_rolled_back (t : Z) (e : Execution) : Execution :=
  {| e_id := e_id e; e_workflowId := e_workflowId e; e_workflowName := e_workflowName e;
     e_nodeId := e_nodeId e; e_status := "rolled_back"; e_currentStep := e_currentStep e;
     e_triggeredBy := e_triggeredBy e; e_triggerType := e_triggerType e;
     e_startTime := e_startTime e; e_endTime := e_endTime e; e_duration := e_duration e;
     e_completionReason := e_completionReason e; e_completedAt := Some t;
     e_stepResults := e_stepResults e |}.

(** [{ success, rollbackSteps | reason | error }]. *)
Record RollbackReport := {
  rb_success : bool;
  rb_count : option nat;
  rb_reason : option string
}.

(** [performRollback(executionId)]. *)
Definition performRollback (executionId : DocId) : M RollbackReport :=
  try_catch
    (found <~ findOne (is_execution executionId) ;;
     match found with
     | Some (DExecution execution) =>
         wf <~ findOne (is_workflow (e_workflowId execution)) ;;
         match wf with
         | Some (DWorkflow workflow) =>
             if negb (w_rollbackEnabled workflow)
             then ret {| rb_success := false; rb_count := None;
                         rb_reason := Some "Rollback not enabled for this workflow" |}
             else
               match collect (w_steps workflow) (rev (e_stepResults execution)) with
               | Raised e => throw e
               | Ok rollbackSteps =>
                   for_each rollbackSteps (fun rb =>
                     t <~ now ;;
                     _ <~ insertOne (rollback_job execution (t / 1000) rb) ;;
                     ret tt) ;;;
                   (t <~ now ;;
                    updateOne (has_id (e_id execution)) (on_execution (set_rolled_back t)) ;;;
                    ret {| rb_success := true; rb_count := Some (length rollbackSteps);
                           rb_reason := None |})
               end
         | _ => ret {| rb_success := false; rb_count := None;
                       rb_reason := Some "Rollback not enabled for this workflow" |}
         end
     | _ => ret {| rb_success := false; rb_count := None;
                   rb_reason := Some "Execution not found" |}
     end)
    (fun e => ret {| rb_success := false; rb_count := None; rb_reason := Some e |}).

End Actions.

(** ** The remediation engine ([RemediationEngine]) *)
Module Engine.
Import Model Store.

(** [$set: { status, endTime, duration, completionReason }]. *)
Definition set_completed (status : string) (endTime : Z) (startTime : Z)
    (reason : option string) (e : Execution) : Execution :=
  {| e_id := e_id e; e_workflowId := e_workflowId e; e_workflowName := e_workflowName e;
     e_nodeId := e_nodeId e; e_status := status; e_currentStep := e_currentStep e;
     e_triggeredBy := e_triggeredBy e; e_triggerType := e_triggerType e;
     e_startTime := e_startTime e; e_endTime := Some endTime;
     e_duration := Some (endTime - startTime);
     e_completionReason := reason; e_completedAt := e_completedAt e;
     e_stepResults := e_stepResults e |}.

(** [completeExecution(execution, status, reason)].  The step timers it
    clears hold no state of the model. *)
Definition completeExecution (execution : Execution) (status : string)
    (reason : option string) : M unit :=
  try_catch
    (endTime <~ now ;;
     updateOne (has_id (e_id execution))
       (on_execution (set_completed status endTime (e_startTime execution) reason)) ;;;
     (fun w => (Ok tt, set_active (fun a => a ∖ {[e_id execution]}) w)) ;;;
     if String.eqb status "failed" then
       wf <~ findOne (is_workflow (e_workflowId execution)) ;;
       match wf with
       | Some (DWorkflow workflow) =>
           if w_rollbackEnabled workflow
           then Actions.performRollback (e_id execution) ;;; ret tt
           else ret tt
       | _ => ret tt
       end
     else ret tt)
    (fun _ => ret tt).

Definition interrupted : string := "Engine restart - execution interrupted".

(** The rollback of [execution] can be queued in [w]: its workflow is
    stored with [rollbackEnabled], and collecting the rollback steps does
    not throw. *)
Definition rolls_back (w : World) (execution : Execution) : bool :=
  match js_find (is_workflow (e_workflowId execution)) (docs w) with
  | Some (DWorkflow workflow) =>
      w_rollbackEnabled workflow &&
      match Actions.collect (w_steps workflow) (rev (e_stepResults execution)) with
      | Ok _ => true
      | Raised _ => false
      end
  | _ => false
  end.

(** One round of the loop of [initialize] over the executions found
    running. *)
Definition recover (d : Doc) : M unit :=
  match d with
  | DExecution execution => completeExecution execution "failed" (Some interrupted)
  | _ => ret tt
  end.

(** [initialize()]: its [catch] rethrows. *)
Definition initialize : M unit :=
  quarantined <~ find is_active_quarantine ;;
  for_each quarantined (fun record =>
    match record with
    | DQuarantine _ nodeId _ =>
        fun w => (Ok tt, set_quarantined (fun q => {[nodeId]} ∪ q) w)
    | _ => ret tt
    end) ;;;
  (inProgress <~ find is_running_execution ;;
   for_each inProgress recover).

(** The workflow of [execution] is stored with [rollbackEnabled]. *)
Definition rollback_enabled_for (w : World) (execution : Execution) : bool :=
  match js_find (is_workflow (e_workflowId execution)) (docs w) with
  | Some (DWorkflow workflow) => w_rollbackEnabled workflow
  | _ => false
  end.

(** The status the store holds for execution [i]. *)
Definition status_of (w : World) (i : DocId) : option string :=
  match lookup w i with
  | Some (DExecution e) => Some (e_status e)
  | _ => None
  end.

Section Trigger.
(** [new URL(u)] succeeds. *)
Variable validURL : string -> bool.

(** The execution record [triggerWorkflow] creates. *)
Definition new_execution (workflowId : DocId) (workflow : Workflow) (nodeId : string)
    (triggeredBy : string) (triggerType : option string) (startTime : Z)
    (i : DocId) : Execution :=
  {| e_id := i; e_workflowId := workflowId; e_workflowName := w_name workflow;
     e_nodeId := nodeId; e_status := "running"; e_currentStep := w_startStep workflow;
     e_triggeredBy := triggeredBy; e_triggerType := orS triggerType "manual";
     e_startTime := startTime; e_endTime := None; e_duration := None;
     e_completionReason := None; e_completedAt := None; e_stepResults := [] |}.

(** [triggerWorkflow(workflowId, nodeId, triggeredBy, context)], up to
    the record it returns; its [catch] rethrows.  The advancement of the
    new execution ([executeWorkflow]) is started without being awaited
    and runs after the return. *)
Definition triggerWorkflow (workflowId : DocId) (nodeId : string)
    (triggeredBy : string) (triggerType : option string) : M Execution :=
  wf <~ findOne (is_workflow workflowId) ;;
  match wf with
  | Some (DWorkflow workflow) =>
      if negb (w_enabled workflow)
      then throw ("Workflow " +:+ pretty workflowId +:+ " is disabled")
      else
        existing <~ findOne (is_running_for workflowId nodeId) ;;
        match existing with
        | Some (DExecution e) => ret e
        | _ =>
            let validation := Builder.validateWorkflow validURL workflow in
            if negb (Builder.valid validation)
            then throw ("Workflow validation failed: "
                        +:+ join ", " (Builder.check_errors validation))
            else
              startTime <~ now ;;
              i <~ insertOne (fun i =>
                     DExecution (new_execution workflowId workflow nodeId triggeredBy
                                   triggerType startTime i)) ;;
              (fun w => (Ok tt, set_active (fun a => {[i]} ∪ a) w)) ;;;
              ret (new_execution workflowId workflow nodeId triggeredBy
                     triggerType startTime i)
        end
  | _ => throw ("Workflow " +:+ pretty workflowId +:+ " not found")
  end.
End Trigger.

(** *** One step and its retries *)

(** What a step's work, raced against its timeout, comes to. *)
Record StepOutcome := {
  o_status : string;
  o_output : option string;
  o_error : option string;
  o_conditionResult : option bool;
  o_retryCount : option Z
}.

(** The outcome of one attempt: the race settles with a result, or throws
    (the work failed, or the timeout fired first). *)
Inductive Attempt :=
| Settled (r : StepOutcome)
| Thrown (message : string).

(** One attempt of [executeStep]: what happens between [try] and the end of
    the race.  [work k] is how the collaborators (remote dispatch,
    notification transport, timers) make the [k]-th attempt end. *)
Definition attempt_step (work : nat -> Attempt) (k : nat) (step : Step) : Attempt :=
  let t := default "" (type step) in
  if includesS Builder.stepTypes t then
    if String.eqb t "script" && negb (truthyS (scriptId step))
    then Thrown "Script step missing scriptId"
    else work k
  else Thrown ("Unknown step type: " +:+ t).

(** The record [executeStep] hands to [handleStepFailure]. *)
Definition failure (message : string) : StepOutcome :=
  {| o_status := "failed"; o_output := None; o_error := Some message;
     o_conditionResult := None; o_retryCount := None |}.

(** [handleStepFailure(execution, workflow, step, error)].  [retry] is the
    re-execution [this.executeStep(execution, workflow, step)], entered
    after a sleep of [retryDecision.delay] seconds.  The [retryCount] it
    computes before retrying is a local that nothing reads; the retry
    decision does not throw, so its [catch] is never entered. *)
Definition handleStepFailure (retry : option StepOutcome)
    (execution : Execution) (step : Step) (error : StepOutcome) : option StepOutcome :=
  let retryDecision := Escalation.handleStepFailure execution step in
  if Escalation.shouldRetry retryDecision then retry
  else Some {| o_status := "failed"; o_output := o_output error;
               o_error := o_error error;
               o_conditionResult := o_conditionResult error;
               o_retryCount := Some (orZ (o_retryCount error) 0) |}.

(** [executeStep(execution, workflow, step)], from attempt [k] on.  The
    recursion through [handleStepFailure] is bounded here by [fuel];
    [None] is running out of it. *)
Fixpoint executeStep (fuel : nat) (work : nat -> Attempt) (k : nat)
    (execution : Execution) (step : Step) : option StepOutcome :=
  match fuel with
  | O => None
  | S fuel' =>
      match attempt_step work k step with
      | Settled r => Some r
      | Thrown message =>
          handleStepFailure (executeStep fuel' work (S k) execution step)
            execution step (failure message)
      end
  end.

(** The collaborators never let the step's work end well. *)
Definition always_thrown (message : string) : nat -> Attempt :=
  fun _ => Thrown message.

(** The collaborators let the step's work end well at attempt [n]. *)
Definition thrown_until (n : nat) : nat -> Attempt :=
  fun k => if Nat.ltb k n then Thrown "Job timed out"
           else Settled {| o_status := "success"; o_output := None; o_error := None;
                           o_conditionResult := None; o_retryCount := None |}.

End Engine.

(** ** Bulk writes of the collection ([updateMany], [deleteOne]) *)
Module Bulk.
Import Model Store.

Definition update_all (query : Doc -> bool) (f : Doc -> Doc) (l : list Doc) : list Doc :=
  map (fun d => if query d then f d else d) l.

(** [updateMany(query, update)]: every document that matches is updated. *)
Definition updateMany (query : Doc -> bool) (update : Doc -> Doc) : M unit :=
  bind access (fun _ w => (Ok tt, set_docs (update_all query update) w)).

Fixpoint delete_first (query : Doc -> bool) (l : list Doc) : list Doc :=
  match l with
  | [] => []
  | d :: r => if query d then r else d :: delete_first query r
  end.

(** [deleteOne(query)]: the first document that matches is removed;
    the result is [deletedCount]. *)
Definition deleteOne (query : Doc -> bool) : M nat :=
  bind access (fun _ w =>
    (Ok (if existsb query (docs w) then 1%nat else 0%nat),
     set_docs (delete_first query) w)).

(** [$set: { state: 'cancelled', cancelledReason }] on a job; the reason
    is not among the fields the model keeps. *)
Definition cancel_job (d : Doc) : Doc :=
  match d with
  | DJob j =>
      DJob {| j_id := j_id j; j_scriptId := j_scriptId j; j_node := j_node j;
              j_state := "cancelled"; j_queueTime := j_queueTime j;
              j_priority := j_priority j; j_scheduleId := j_scheduleId j;
              j_remediationExecutionId := j_remediationExecutionId j;
              j_remediationStepId := j_remediationStepId j; j_tags := j_tags j;
              j_reason := j_reason j; j_originalStepId := j_originalStepId j |}
  | _ => d
  end.

End Bulk.

(** ** The advancement of an execution ([executeWorkflow], [handleStepResult],
    [executeConditionStep], [cancelExecution]) *)
Module Advance.
Import Model Store Engine.

(** What [executeStep] returns: the outcome with the two times it adds. *)
Record StepRun := {
  run_outcome : StepOutcome;
  run_startTime : Z;
  run_endTime : Z
}.

(** The record [handleStepResult] pushes on [execution.stepResults]. *)
Definition step_result (step : Step) (result : StepRun) : StepResult :=
  {| sr_stepId := id step;
     sr_stepName := orS (name step) (id step);
     sr_stepType := type step;
     sr_status := o_status (run_outcome result);
     sr_startTime := run_startTime result;
     sr_endTime := run_endTime result;
     sr_output := o_output (run_outcome result);
     sr_error := o_error (run_outcome result);
     sr_retryCount := Some (orZ (o_retryCount (run_outcome result)) 0) |}.

(** [execution.stepResults.push(stepResult)]. *)
Definition push_result (e : Execution) (r : StepResult) : Execution :=
  {| e_id := e_id e; e_workflowId := e_workflowId e; e_workflowName := e_workflowName e;
     e_nodeId := e_nodeId e; e_status := e_status e; e_currentStep := e_currentStep e;
     e_triggeredBy := e_triggeredBy e; e_triggerType := e_triggerType e;
     e_startTime := e_startTime e; e_endTime := e_endTime e; e_duration := e_duration e;
     e_completionReason := e_completionReason e; e_completedAt := e_completedAt e;
     e_stepResults := e_stepResults e ++ [r] |}.

(** [step.x || null]. *)
Definition or_null (x : option string) : option string :=
  if truthyS x then x else None.

(** The [nextStepId] that [handleStepResult] determines. *)
Definition next_step (step : Step) (result : StepOutcome) : option string :=
  if isS (type step) "condition" then
    if default false (o_conditionResult result) then onTrue step else onFalse step
  else if String.eqb (o_status result) "success" then or_null (onSuccess step)
  else or_null (onFailure step).

(** [handleStepResult] escalates: a step that is no condition did not
    succeed, has no failure path, and the workflow enables escalation. *)
Definition escalates (workflow : Workflow) (step : Step) (result : StepOutcome) : bool :=
  negb (isS (type step) "condition")
  && negb (String.eqb (o_status result) "success")
  && negb (truthyS (next_step step result))
  && w_escalationEnabled workflow.

(** [$set: { currentStep, stepResults }]. *)
Definition set_progress (currentStep : option string) (results : list StepResult)
    (e : Execution) : Execution :=
  {| e_id := e_id e; e_workflowId := e_workflowId e; e_workflowName := e_workflowName e;
     e_nodeId := e_nodeId e; e_status := e_status e; e_currentStep := currentStep;
     e_triggeredBy := e_triggeredBy e; e_triggerType := e_triggerType e;
     e_startTime := e_startTime e; e_endTime := e_endTime e; e_duration := e_duration e;
     e_completionReason := e_completionReason e; e_completedAt := e_completedAt e;
     e_stepResults := results |}.

(** How the loop of [executeWorkflow] ends without throwing: the walk is
    over, or the execution was found cancelled or missing. *)
Inductive Exit :=
| Finished
| Abandoned.

Section Loop.
(** [escalationManager.escalate(execution, workflow)]: it catches every
    error; what it does to the store and the memory is left open. *)
Variable escalate : Execution -> Workflow -> World -> World.
(** [executeStep(execution, workflow, step)] when it returns: its [catch]
    hands every error to [handleStepFailure], which returns a result; what
    the step's work and the collaborators do to the store meanwhile is
    left open. *)
Variable executeStep : Execution -> Step -> World -> StepRun * World.

(** [handleStepResult(execution, workflow, step, result)]: the execution
    with the result pushed, and [nextStepId]. *)
Definition handleStepResult (execution : Execution) (workflow : Workflow)
    (step : Step) (result : StepRun) : M (Execution * option string) :=
  let execution' := push_result execution (step_result step result) in
  let nextStepId := next_step step (run_outcome result) in
  if escalates workflow step (run_outcome result)
  then fun w => (Ok (execution', nextStepId), escalate execution' workflow w)
  else ret (execution', nextStepId).

(** The [while (currentStepId)] loop of [executeWorkflow].  Its rounds
    are bounded here by [fuel]; [None] is running out of it. *)
Fixpoint advance (fuel : nat) (workflow : Workflow) (currentStepId : option string)
    (execution : Execution) (w : World) : option (result Exit * World) :=
  match fuel with
  | O => None
  | S fuel' =>
      if negb (truthyS currentStepId) then Some (Ok Finished, w)
      else
        match findOne (is_execution (e_id execution)) w with
        | (Raised e, w1) => Some (Raised e, w1)
        | (Ok (Some (DExecution currentExecution)), w1) =>
            if String.eqb (e_status currentExecution) "cancelled"
            then Some (Ok Abandoned, w1)
            else
              match w_steps workflow with
              | None =>
                  Some (Raised "Cannot read properties of undefined (reading 'find')", w1)
              | Some steps =>
                  let x := default "" currentStepId in
                  match js_find (fun s => String.eqb (id s) x) steps with
                  | None => Some (Raised ("Step " +:+ x +:+ " not found in workflow"), w1)
                  | Some step =>
                      let '(stepResult, w2) := executeStep execution step w1 in
                      match handleStepResult execution workflow step stepResult w2 with
                      | (Raised e, w3) => Some (Raised e, w3)
                      | (Ok (execution', nextStepId), w3) =>
                          match updateOne (has_id (e_id execution))
                                  (on_execution
                                     (set_progress nextStepId (e_stepResults execution')))
                                  w3 with
                          | (Raised e, w4) => Some (Raised e, w4)
                          | (Ok _, w4) => advance fuel' workflow nextStepId execution' w4
                          end
                      end
                  end
              end
        | (Ok _, w1) => Some (Ok Abandoned, w1)
        end
  end.

(** [executeWorkflow(execution, workflow)]. *)
Definition executeWorkflow (fuel : nat) (execution : Execution) (workflow : Workflow)
    (w : World) : option (result unit * World) :=
  match advance fuel workflow (e_currentStep execution) execution w with
  | None => None
  | Some (Ok Finished, w') => Some (completeExecution execution "success" None w')
  | Some (Ok Abandoned, w') => Some (Ok tt, w')
  | Some (Raised e, w') => Some (completeExecution execution "failed" (Some e) w')
  end.
End Loop.

(** *** Condition steps *)

Definition opt_str (x : option string) : Js.value :=
  match x with Some s => Js.VStr s | None => Js.VUndefined end.

Definition opt_num (x : option Z) : Js.value :=
  match x with Some n => Js.num_of_Z n | None => Js.VUndefined end.

(** A recorded step result as the object the condition evaluator reads. *)
Definition step_result_value (r : StepResult) : Js.value :=
  Js.VObj [("stepId", Js.VStr (sr_stepId r));
           ("stepName", Js.VStr (sr_stepName r));
           ("stepType", opt_str (sr_stepType r));
           ("status", Js.VStr (sr_status r));
           ("startTime", Js.num_of_Z (sr_startTime r));
           ("endTime", Js.num_of_Z (sr_endTime r));
           ("duration", Js.VNum (Js.Fin (Qmake (sr_endTime r - sr_startTime r) 1000)));
           ("output", opt_str (sr_output r));
           ("error", opt_str (sr_error r));
           ("retryCount", opt_num (sr_retryCount r))].

Section Condition.
Variable number_to_string : Q -> string.
Variable regex_test : string -> string -> string -> option bool.
Variable json_parse : string -> option Js.value.

(** [executeConditionStep(execution, workflow, step)]: the condition is
    evaluated against the last recorded step result. *)
Definition executeConditionStep (execution : Execution) (step : Step) : StepOutcome :=
  match last (e_stepResults execution) with
  | None =>
      {| o_status := "success"; o_output := None; o_error := None;
         o_conditionResult := Some false; o_retryCount := None |}
  | Some previousStepResult =>
      {| o_status := "success"; o_output := None; o_error := None;
         o_conditionResult :=
           Some (Conditions.evaluate number_to_string regex_test json_parse
                   (default Js.VUndefined (condition step))
                   (step_result_value previousStepResult));
         o_retryCount := None |}
  end.
End Condition.

(** *** Cancellation *)




(** [getExecution(executionId)]. *)
Definition getExecution (executionId : DocId) : M (option Execution) :=
  try_catch
    (found <~ findOne (is_execution executionId) ;;
     ret (match found with Some (DExecution e) => Some e | _ => None end))
    (fun _ => ret None).

End Advance.

(** ** Quarantine ([ActionHandler.quarantineNode] and its siblings) *)
Module Quarantine.
Import Model Store.

(** [{ success, message | error }]. *)
Record Report := { q_success : bool; q_message : string }.

Definition is_pending_job_on (nodeId : string) (d : Doc) : bool :=
  match d with
  | DJob j => String.eqb (j_node j) nodeId && String.eqb (j_state j) "pending"
  | _ => false
  end.

Definition is_active_quarantine_of (nodeId : string) (d : Doc) : bool :=
  match d with
  | DQuarantine _ n active => String.eqb n nodeId && active
  | _ => false
  end.

(** [$set: { active: false, unquarantinedAt }]. *)
Definition lift_quarantine (d : Doc) : Doc :=
  match d with
  | DQuarantine i n _ => DQuarantine i n false
  | _ => d
  end.

(** [quarantineNode(nodeId)]. *)
Definition quarantineNode (nodeId : string) : M Report :=
  try_catch
    ((fun w => (Ok tt, set_quarantined (fun q => {[nodeId]} ∪ q) w)) ;;;
     (_ <~ insertOne (fun i => DQuarantine i nodeId true) ;;
      Bulk.updateMany (is_pending_job_on nodeId) Bulk.cancel_job ;;;
      ret {| q_success := true; q_message := "Node quarantined" |}))
    (fun e => ret {| q_success := false; q_message := e |}).

(** [unquarantineNode(nodeId)]. *)
Definition unquarantineNode (nodeId : string) : M Report :=
  try_catch
    ((fun w => (Ok tt, set_quarantined (fun q => q ∖ {[nodeId]}) w)) ;;;
     Bulk.updateMany (is_active_quarantine_of nodeId) lift_quarantine ;;;
     ret {| q_success := true; q_message := "Node unquarantined" |})
    (fun e => ret {| q_success := false; q_message := e |}).

(** [isNodeQuarantined(nodeId)]. *)
Definition isNodeQuarantined (w : World) (nodeId : string) : bool :=
  bool_decide (nodeId ∈ quarantinedNodes w).

(** [loadQuarantinedNodes()]. *)
Definition loadQuarantinedNodes : M unit :=
  try_catch
    (quarantined <~ find is_active_quarantine ;;
     for_each quarantined (fun record =>
       match record with
       | DQuarantine _ nodeId _ =>
           fun w => (Ok tt, set_quarantined (fun q => {[nodeId]} ∪ q) w)
       | _ => ret tt
       end))
    (fun _ => ret tt).

(** A restart: the store is kept, the memory is lost. *)
Definition restart (w : World) : World :=
  {| docs := docs w; next_id := next_id w; faults := faults w; clock := clock w;
     activeExecutions := ∅; quarantinedNodes := ∅ |}.

(** The memory mirrors the store: the nodes held quarantined in memory are
    those with an active quarantine record. *)
Definition mirrors (w : World) : Prop :=
  ∀ nodeId, nodeId ∈ quarantinedNodes w ↔ ∃ i, DQuarantine i nodeId true ∈ docs w.

End Quarantine.

(** ** Paths of the cycle check *)
Module Paths.
Import Model Builder.

(** Consecutive strings of [path] are joined by edges the check follows. *)
Definition chain (sm : gmap string Step) (path : list string) : Prop :=
  ∀ l1 a b l2, path = l1 ++ a :: b :: l2 → followed_edge sm a b.

(** A call of [detectCycle] whose [path] is the recursion stack, in
    order, leaves the stack as it found it; and it records an error only
    if the followed targets form a cycle. *)
Definition Sound (sm : gmap string Step) (fuel : nat) : Prop :=
  ∀ x p st st', detectCycle fuel sm x p st = Some st' →
    recursionStack st = list_to_set p → chain sm p →
    (∀ l, last p = Some l → truthyS x = true → followed_edge sm l (default "" x)) →
    recursionStack st' = recursionStack st ∧
    (errors st' = errors st ∨ ∃ c, tc (followed_edge sm) c c).

End Paths.

(** ** The compiled state machine ([WorkflowBuilder.buildStateMachine],
    [getNextStep]) and the builder's accessors *)
Module Machine.
Import Model.

(** The object [buildTransitions] returns; a property it does not set is
    absent. *)
Record Transitions := {
  t_onSuccess : option string;
  t_onFailure : option string;
  t_onTrue : option string;
  t_onFalse : option string
}.

(** [if (step.x) transitions.x = step.x]. *)
Definition kept (x : option string) : option string :=
  if truthyS x then x else None.

(** [buildTransitions(step)]. *)
Definition buildTransitions (step : Step) : Transitions :=
  if isS (type step) "condition"
  then {| t_onSuccess := None; t_onFailure := None;
          t_onTrue := kept (onTrue step); t_onFalse := kept (onFalse step) |}
  else {| t_onSuccess := kept (onSuccess step); t_onFailure := kept (onFailure step);
          t_onTrue := None; t_onFalse := None |}.

(** One entry of [stateMachine.steps].  Its [config], the step without its
    id, type, timeout and transitions, is not kept. *)
Record MachineStep := {
  m_id : string;
  m_type : option string;
  m_timeout : Z;
  m_transitions : Transitions
}.

Definition compile (step : Step) : MachineStep :=
  {| m_id := id step; m_type := type step; m_timeout := orZ (timeout step) 300;
     m_transitions := buildTransitions step |}.

Record StateMachine := {
  sm_name : string;
  sm_startStep : option string;
  sm_steps : gmap string MachineStep
}.

(** The loop that fills [stepMap]: a later step with the same id replaces
    an earlier one. *)
Definition compile_all (steps : list Step) : gmap string MachineStep :=
  fold_left (fun m step => <[id step := compile step]> m) steps ∅.

Section Build.
Variable validURL : string -> bool.

(** [buildStateMachine()]. *)
Definition buildStateMachine (wf : Workflow) : Store.result StateMachine :=
  let validation := Builder.validateWorkflow validURL wf in
  if negb (Builder.valid validation)
  then Store.Raised ("Workflow validation failed: "
                     +:+ join ", " (Builder.check_errors validation))
  else
    Store.Ok {| sm_name := if String.eqb (w_name wf) "" then "Unnamed Workflow"
                           else w_name wf;
                sm_startStep := w_startStep wf;
                sm_steps := compile_all (default [] (w_steps wf)) |}.
End Build.

(** The result [getNextStep] reads: the truthiness of [result.success],
    and [result.conditionResult]. *)
Record Outcome := { success : bool; conditionResult : option bool }.

(** What [getNextStep] reads of a step result of the engine.  The engine's
    results carry [status] and, for a condition step, [conditionResult];
    none carries [success], which so reads as [undefined]. *)
Definition engine_result (result : Engine.StepOutcome) : Outcome :=
  {| success := false; conditionResult := Engine.o_conditionResult result |}.

(** [getNextStep(currentStepId, result)]; [stateMachine] is [None] until
    it is built. *)
Definition getNextStep (stateMachine : option StateMachine) (currentStepId : string)
    (result : Outcome) : option string :=
  match stateMachine with
  | None => None
  | Some sm =>
      match sm_steps sm !! currentStepId with
      | None => None
      | Some step =>
          let transitions := m_transitions step in
          if isS (m_type step) "condition" then
            if bool_decide (conditionResult result = Some true)
               && truthyS (t_onTrue transitions)
            then t_onTrue transitions
            else if bool_decide (conditionResult result = Some false)
                    && truthyS (t_onFalse transitions)
                 then t_onFalse transitions
                 else None
          else if success result && truthyS (t_onSuccess transitions)
               then t_onSuccess transitions
          else if negb (success result) && truthyS (t_onFailure transitions)
               then t_onFailure transitions
          else None
      end
  end.

(** [getStep(stepId)]. *)
Definition getStep (wf : Workflow) (stepId : string) : option Step :=
  match w_steps wf with
  | None => None
  | Some steps => js_find (fun s => String.eqb (id s) stepId) steps
  end.

(** [getStartStep()]. *)
Definition getStartStep (wf : Workflow) : option Step :=
  if negb (truthyS (w_startStep wf)) then None
  else getStep wf (default "" (w_startStep wf)).

(** The property key a step's type is counted under: an absent type reads
    as the key [undefined]. *)
Definition type_key (step : Step) : string := default "undefined" (type step).

(** [summary[step.type] = (summary[step.type] || 0) + 1] on the own
    properties of [summary].  Read in a plain object, a type that names an
    inherited property finds that property, and what is written back is a
    string. *)
Definition tally (summary : gmap string Proto.scalar) (step : Step)
    : gmap string Proto.scalar :=
  Proto.set summary (type_key step)
    (Proto.plus_one (Proto.or_else (Proto.get summary (type_key step)) (Proto.Number 0))).

(** [getStepTypesSummary()]: the own properties of the object it
    returns. *)
Definition getStepTypesSummary (wf : Workflow) : gmap string Proto.scalar :=
  match w_steps wf with
  | None => ∅
  | Some steps => fold_left tally steps ∅
  end.

(** [getSummary()], on the fields the model keeps; [None] when it throws
    ([checkCircularDependencies] iterates a missing steps array). *)
Record Summary := {
  stepCount : Z;
  stepTypes : gmap string Proto.scalar;
  hasCircularDependencies : bool;
  isValid : bool
}.

Section Summarise.
Variable validURL : string -> bool.

Definition getSummary (wf : Workflow) : option Summary :=
  match w_steps wf with
  | None => None
  | Some steps =>
      Some {| stepCount := orZ (Some (Z.of_nat (length steps))) 0;
              stepTypes := getStepTypesSummary wf;
              hasCircularDependencies :=
                negb (Builder.valid
                        (Builder.checkCircularDependencies (w_startStep wf) steps));
              isValid := Builder.valid (Builder.validateWorkflow validURL wf) |}
  end.
End Summarise.

End Machine.

(** ** Validation of a condition definition
    ([ConditionEvaluator.validateCondition]) *)
Module ConditionCheck.
Import Js.

Record Validation := { valid : bool; errors : list string }.

(** [validateCondition(condition)]. *)
Definition validateCondition (condition : value) : Validation :=
  if negb (truthy condition)
  then {| valid := false; errors := ["Condition is required"] |}
  else
    let read key := default VUndefined (get condition key) in
    let type := read "type" in
    let errs :=
      (if negb (truthy type) then ["Condition type is required"] else [])
      ++
      (if strict_eq type (VStr "exitCode") then
         if strict_eq (read "exitCode") VUndefined
         then ["Exit code value is required"] else []
       else if strict_eq type (VStr "outputPattern") then
         if negb (truthy (read "pattern")) then ["Pattern is required"] else []
       else if strict_eq type (VStr "threshold") then
         (if negb (truthy (read "field")) then ["Field is required"] else [])
         ++ (if strict_eq (read "value") VUndefined
             then ["Threshold value is required"] else [])
       else if strict_eq type (VStr "jsonPath") then
         if negb (truthy (read "path")) then ["JSON path is required"] else []
       else if strict_eq type (VStr "composite") then
         (if negb (truthy (read "logic")) then ["Logic operator is required"] else [])
         ++ (match read "conditions" with
             | VArr (_ :: _) => []
             | _ => ["Conditions array is required and must not be empty"]
             end)
       else []) in
    {| valid := match errs with [] => true | _ => false end; errors := errs |}.

End ConditionCheck.

(** ** The scheduler's priority weights and deferred queue
    ([AdvancedScheduler], src/scheduler/index.js) *)
Module Scheduler.
Import Model Store.

(** The own properties of the literal table of [getPriorityValue]. *)
Definition priorities : gmap string Z :=
  <["critical" := 0]> (<["high" := 1]> (<["normal" := 2]> (<["low" := 3]> ∅))).

(** [getPriorityValue(priority)]: [priorities[priority] || 2].  The argument
    is [schedule.priority]; when it is absent the key read is [undefined].
    A priority that names a property of [Object.prototype] finds that
    property, which is truthy, and gets it back instead of a weight. *)
Definition getPriorityValue (priority : option string) : Proto.scalar :=
  Proto.or_else (Proto.get (Proto.Number <$> priorities) (default "undefined" priority))
                (Proto.Number 2).

(** One entry of [this.jobQueue]. *)
Record QueueEntry := {
  q_scheduleId : DocId;
  q_priority : Proto.scalar;
  q_queuedAt : Z
}.

(** The weight of an entry whose [priority] is a number. *)
Definition weight (e : QueueEntry) : option Z :=
  match q_priority e with
  | Proto.Number n => Some n
  | _ => None
  end.

(** The comparator [(a, b) => a.priority - b.priority] puts [a] before
    [b]: its result is negative.  NaN is not. *)
Definition before (a b : QueueEntry) : bool :=
  match Proto.minus (q_priority a) (q_priority b) with
  | Some d => Z.ltb d 0
  | None => false
  end.

(** [Array.prototype.sort((a, b) => a.priority - b.priority)]: a stable
    sort, here by insertion: an entry goes behind every entry it is not
    [before], so entries of equal weight keep their order.  While every
    weight is a number this is the order the language prescribes.  With a
    weight that is no number the comparator answers NaN, which is read as
    'equal' without being consistent; the language then leaves the order
    to the runtime, and the insertion gives one of the orders it allows. *)
Fixpoint insert_by_priority (e : QueueEntry) (q : list QueueEntry) : list QueueEntry :=
  match q with
  | [] => [e]
  | x :: r =>
      if before e x then e :: x :: r
      else x :: insert_by_priority e r
  end.

Definition sort_by_priority (q : list QueueEntry) : list QueueEntry :=
  fold_left (fun acc e => insert_by_priority e acc) q [].

(** [queueScheduleForLater(schedule)], on the identity and priority of the
    schedule, the queue and [Date.now()]. *)
Definition queueScheduleForLater
    (scheduleId : DocId) (priority : option string) (now : Z)
    (jobQueue : list QueueEntry) : list QueueEntry :=
  sort_by_priority
    (jobQueue ++ [{| q_scheduleId := scheduleId;
                     q_priority := Proto.plus_one (getPriorityValue priority);
                     q_queuedAt := now |}]).

(** *** The dependency gate and the concurrency gate *)

Definition is_schedule (i : DocId) (d : Doc) : bool :=
  match d with DSchedule s => Nat.eqb (s_id s) i | _ => false end.

Definition is_live_job (d : Doc) : bool :=
  match d with
  | DJob j => String.eqb (j_state j) "pending" || String.eqb (j_state j) "running"
  | _ => false
  end.

(** The loop of [checkDependencies] over [schedule.dependsOn]. *)
Fixpoint dependencies_ready (lastRun : option Z) (dependsOn : list DocId) : M bool :=
  match dependsOn with
  | [] => ret true
  | depId :: rest =>
      found <~ findOne (is_schedule depId) ;;
      match found with
      | Some (DSchedule depSchedule) =>
          if negb (truthyZ (s_lastRun depSchedule)) then ret false
          else if truthyZ lastRun
                  && Z.ltb (default 0 (s_lastRun depSchedule)) (default 0 lastRun)
               then ret false
               else dependencies_ready lastRun rest
      | _ => ret false
      end
  end.

(** [checkDependencies(schedule)].  Iterating a missing [dependsOn]
    throws. *)
Definition checkDependencies (schedule : Schedule) : M bool :=
  try_catch
    (match s_dependsOn schedule with
     | Some dependsOn => dependencies_ready (s_lastRun schedule) dependsOn
     | None => throw "schedule.dependsOn is not iterable"
     end)
    (fun _ => ret false).

Section Gate.
(** [this.config.maxConcurrentJobs]. *)
Variable maxConcurrentJobs : option Z.
(** [this.meshServer.webserver.wsagents]: the connected agents, each with
    its [dbMeshKey]. *)
Variable wsagents : gmap string (option string).

(** [wsagents[nodeId]] as the gate reads it: the [dbMeshKey] of the
    agent found.  [wsagents] is a plain object, so a node id that names
    an inherited property finds that property, which is truthy and has
    no [dbMeshKey]. *)
Definition agent (nodeId : string) : option (option string) :=
  match wsagents !! nodeId with
  | Some dbMeshKey => Some dbMeshKey
  | None => if Proto.inherited nodeId then Some None else None
  end.

(** The limit, when the schedule configures a truthy one. *)
Definition limit (schedule : Schedule) (field : Concurrency -> option Z) : option Z :=
  match s_concurrency schedule with
  | Some c => if truthyZ (field c) then field c else None
  | None => None
  end.

Definition count (p : Job -> bool) (jobs : list Job) : Z :=
  Z.of_nat (length (List.filter p jobs)).

(** The body of [checkConcurrencyLimits] once [runningJobs] is read. *)
Definition within_limits (schedule : Schedule) (nodeId : string)
    (runningJobs : list Job) : bool :=
  if match limit schedule maxPerNode with
     | Some n => Z.geb (count (fun j => String.eqb (j_node j) nodeId) runningJobs) n
     | None => false
     end then false
  else if match limit schedule maxPerMesh, agent nodeId with
          | Some n, Some agentKey =>
              Z.geb (count (fun j => match agent (j_node j) with
                                     | Some jobKey => bool_decide (jobKey = agentKey)
                                     | None => false
                                     end) runningJobs) n
          | _, _ => false
          end then false
  else if match limit schedule maxGlobal with
          | Some n => Z.geb (Z.of_nat (length runningJobs)) n
          | None => false
          end then false
  else if Z.geb (Z.of_nat (length runningJobs)) (orZ maxConcurrentJobs 50) then false
  else true.

(** [checkConcurrencyLimits(schedule, nodeId)]. *)
Definition checkConcurrencyLimits (schedule : Schedule) (nodeId : string) : M bool :=
  try_catch
    (runningJobs <~ find is_live_job ;;
     ret (within_limits schedule nodeId
            (omap (fun d => match d with DJob j => Some j | _ => None end) runningJobs)))
    (fun _ => ret true).
End Gate.

End Scheduler.

(** ** Maintenance windows ([MaintenanceWindows]) *)
Module MaintenanceWindows.
Import Model Store.

(** [{ allowed, reason }]. *)
Record Verdict := { allowed : bool; reason : string }.

Definition is_window_in (ids : list DocId) (d : Doc) : bool :=
  match d with DWindow m => existsb (Nat.eqb (mw_id m)) ids | _ => false end.

(** [getMaintenanceWindows(windowIds)]. *)
Definition getMaintenanceWindows (windowIds : list DocId) : M (list Window) :=
  try_catch
    (windows <~ find (is_window_in windowIds) ;;
     ret (omap (fun d => match d with DWindow m => Some m | _ => None end) windows))
    (fun _ => ret []).

Section Clock.
(** [this.tzHandler.now(tz).timestamp], in milliseconds; [None] when the
    handler returns [null]. *)
Variable tz_now : string -> option Z.
(** [new Cron(expression, { timezone }).previous()] at the moment of the
    call, in milliseconds: the constructor may throw, and the library may
    report no previous run. *)
Variable cron_previous : string -> string -> result (option Z).

(** [isInMaintenanceWindow(window, timestamp)]. *)
Definition isInMaintenanceWindow (window : Window) (timestamp : Z) : bool :=
  let tz := orS (mw_timezone window) "UTC" in
  match (if Z.eqb timestamp 0 then tz_now tz else Some timestamp) with
  | None => false
  | Some checkTime =>
      match cron_previous (mw_cronExpression window) tz with
      | Raised _ => false
      | Ok None => false
      | Ok (Some prevRunTime) =>
          let windowEnd := prevRunTime + mw_duration window * 1000 in
          Z.geb checkTime prevRunTime && Z.leb checkTime windowEnd
      end
  end.

(** The loop of [canJobRun] over the windows. *)
Fixpoint first_window (priority : option string) (timestamp : Z)
    (windows : list Window) : Verdict :=
  match windows with
  | [] => {| allowed := true; reason := "Not in any maintenance window" |}
  | window :: rest =>
      if negb (mw_enabled window) then first_window priority timestamp rest
      else if isInMaintenanceWindow window timestamp then
        if match mw_allowedPriorities window, priority with
           | Some l, Some p => includesS l p
           | _, _ => false
           end
        then {| allowed := true;
                reason := "Priority '" +:+ default "undefined" priority
                          +:+ "' is allowed during maintenance window '"
                          +:+ mw_name window +:+ "'" |}
        else {| allowed := false;
                reason := "Blocked by maintenance window '" +:+ mw_name window +:+ "'" |}
      else first_window priority timestamp rest
  end.

(** [canJobRun(schedule, timestamp)]. *)
Definition canJobRun (schedule : Schedule) (timestamp : Z) : M Verdict :=
  try_catch
    (match s_maintenanceWindowIds schedule with
     | None | Some [] =>
         ret {| allowed := true; reason := "No maintenance windows defined" |}
     | Some ids =>
         windows <~ getMaintenanceWindows ids ;;
         ret (first_window (s_priority schedule) timestamp windows)
     end)
    (fun _ => ret {| allowed := true; reason := "Error checking maintenance windows" |}).
End Clock.

(** *** The window the specification describes *)

Definition day_ms : Z := 86400000.

(** Modelled from the spec: "the most recent fire time of the window's own
    cron expression at or before [timestamp]", for an expression
    [minute hour * * *] evaluated in UTC, whose fire times are each day's
    [hour:minute].  The cron library that would compute it is not part of
    the repository. *)
Definition last_daily_fire (hour minute timestamp : Z) : Z :=
  let offset := (hour * 60 + minute) * 60000 in
  (timestamp - offset) / day_ms * day_ms + offset.

(** [timestamp] falls in [lastWindowStart, lastWindowStart + duration],
    the duration being in seconds. *)
Definition in_described_window (hour minute duration timestamp : Z) : bool :=
  let lastWindowStart := last_daily_fire hour minute timestamp in
  Z.leb lastWindowStart timestamp && Z.leb timestamp (lastWindowStart + duration * 1000).

End MaintenanceWindows.

(** ** Target nodes and job creation ([AdvancedScheduler.getTargetNodes],
    [createJobForSchedule]) *)
Module Dispatch.
Import Model Store.

(** The round of the loop of [getTargetNodes] over the online agents: an
    agent of a listed mesh is pushed unless it is there already. *)
Definition add_mesh_node (meshes : list string) (nodes : list string)
    (agent : string * option string) : list string :=
  if match snd agent with
     | Some dbMeshKey => includesS meshes dbMeshKey
     | None => false
     end
  then if negb (includesS nodes (fst agent)) then nodes ++ [fst agent] else nodes
  else nodes.

(** [getTargetNodes(schedule)], on [schedule.nodes], [schedule.meshes] and
    the entries of [wsagents] (each connected agent with its [dbMeshKey]) in
    the order [Object.keys] lists them. *)
Definition getTargetNodes (nodes meshes : option (list string))
    (wsagents : list (string * option string)) : list string :=
  let onlineAgents := map fst wsagents in
  let listed :=
    match nodes with
    | Some l => List.filter (fun n => includesS onlineAgents n) l
    | None => []
    end in
  match meshes with
  | Some (m :: ms) => fold_left (add_mesh_node (m :: ms)) wsagents listed
  | _ => listed
  end.

Section Jobs.
Variable maxConcurrentJobs : option Z.
Variable wsagents : gmap string (option string).

(** The job document [createJobForSchedule] inserts. *)
Definition scheduled_job (scriptId : option string) (schedule : Schedule)
    (nodeId : string) (queueTime : Z) (i : DocId) : Doc :=
  DJob {| j_id := i; j_scriptId := scriptId; j_node := nodeId; j_state := "pending";
          j_queueTime := queueTime; j_priority := orS (s_priority schedule) "normal";
          j_scheduleId := Some (s_id schedule); j_remediationExecutionId := None;
          j_remediationStepId := None; j_tags := ["scheduled"];
          j_reason := None; j_originalStepId := None |}.

(** [createJobForSchedule(schedule, nodeId)] up to the [await] of its
    insertion; [scriptId] is [schedule.scriptId].  The limits are checked
    against the live jobs read at the first [await], and the job document
    is built.  [None]: the call returns without a job.  The check catches
    its own errors, so nothing here throws. *)
Definition prepare (scriptId : option string) (schedule : Schedule)
    (nodeId : string) : M (option (DocId -> Doc)) :=
  try_catch
    (canRun <~ Scheduler.checkConcurrencyLimits maxConcurrentJobs wsagents
                 schedule nodeId ;;
     if negb canRun then ret None
     else
       t <~ now ;;
       ret (Some (scheduled_job scriptId schedule nodeId (t / 1000))))
    (fun _ => ret None).

(** The rest of the call: the insertion, whose error is caught and
    logged. *)
Definition insert (jobData : option (DocId -> Doc)) : M unit :=
  match jobData with
  | None => ret tt
  | Some mk => try_catch (_ <~ insertOne mk ;; ret tt) (fun _ => ret tt)
  end.

(** [createJobForSchedule(schedule, nodeId)] when nothing else touches
    the store between its two awaits. *)
Definition createJobForSchedule (scriptId : option string) (schedule : Schedule)
    (nodeId : string) : M unit :=
  jobData <~ prepare scriptId schedule nodeId ;;
  insert jobData.

(** *** Calls in flight

    [handleScheduleTrigger] sets off one call of [createJobForSchedule]
    per target node, each on a timer of its own, and awaits none of
    them: between the two awaits of one call the runtime may resume
    another. *)
Inductive Call :=
| Started (nodeId : string)
| Checked (jobData : option (DocId -> Doc))
| Returned.

(** The runtime resumes a call, which runs up to its next [await]. *)
Definition resume (scriptId : option string) (schedule : Schedule) (c : Call)
    : M Call :=
  match c with
  | Started nodeId =>
      jobData <~ prepare scriptId schedule nodeId ;; ret (Checked jobData)
  | Checked jobData => insert jobData ;;; ret Returned
  | Returned => ret Returned
  end.

(** The calls resumed in the order [order] gives, each of its entries
    the index of the call that moves next. *)
Fixpoint run (scriptId : option string) (schedule : Schedule) (order : list nat)
    (calls : list Call) : M (list Call) :=
  match order with
  | [] => ret calls
  | i :: rest =>
      match calls !! i with
      | Some c =>
          c' <~ resume scriptId schedule c ;;
          run scriptId schedule rest (<[i := c']> calls)
      | None => run scriptId schedule rest calls
      end
  end.

(** The order in which each of [n] calls has its check answered before
    any of them inserts. *)
Definition checks_first (n : nat) : list nat := seq 0 n ++ seq 0 n.
End Jobs.

(** The live jobs the store holds, as [checkConcurrencyLimits] reads
    them. *)
Definition live_jobs (w : World) : list Job :=
  omap (fun d => match d with DJob j => Some j | _ => None end)
       (List.filter Scheduler.is_live_job (docs w)).

(** [this.jobQueue.shift()]: the entry [processJobQueue] serves, and what
    stays queued. *)
Definition shift (jobQueue : list Scheduler.QueueEntry)
    : option Scheduler.QueueEntry * list Scheduler.QueueEntry :=
  match jobQueue with
  | [] => (None, [])
  | job :: rest => (Some job, rest)
  end.

(** [a] is served no later than [b]: both weights are numbers, and that
    of [a] is not greater. *)
Definition by_weight (a b : Scheduler.QueueEntry) : Prop :=
  match Scheduler.weight a, Scheduler.weight b with
  | Some m, Some n => m ≤ n
  | _, _ => False
  end.

(** [a] is served before [b]: both weights are numbers, and that of [a] is
    smaller. *)
Definition lighter (a b : Scheduler.QueueEntry) : Prop :=
  match Scheduler.weight a, Scheduler.weight b with
  | Some m, Some n => m < n
  | _, _ => False
  end.

End Dispatch.

(** ** Administration of maintenance windows
    ([MaintenanceWindows.createMaintenanceWindow] and its siblings) *)
Module WindowAdmin.
Import Model Store.

(** [windowData], on the fields the model keeps. *)
Record WindowData := {
  wd_name : string;
  wd_cronExpression : string;
  wd_timezone : option string;
  wd_duration : option Z;
  wd_allowedPriorities : option (list string);
  wd_enabled : option bool
}.

(** The document [createMaintenanceWindow] builds. *)
Definition new_window (windowData : WindowData) (i : DocId) : Window :=
  {| mw_id := i;
     mw_name := wd_name windowData;
     mw_enabled := negb (bool_decide (wd_enabled windowData = Some false));
     mw_cronExpression := wd_cronExpression windowData;
     mw_timezone := Some (orS (wd_timezone windowData) "UTC");
     mw_duration := orZ (wd_duration windowData) 3600;
     mw_allowedPriorities := Some (default ["critical"] (wd_allowedPriorities windowData)) |}.

(** [createMaintenanceWindow(windowData)]: [Some id] is
    [{ success: true, id }], [None] is [{ success: false, error }]. *)
Definition createMaintenanceWindow (windowData : WindowData) : M (option DocId) :=
  try_catch
    (i <~ insertOne (fun i => DWindow (new_window windowData i)) ;;
     ret (Some i))
    (fun _ => ret None).

Definition is_window (i : DocId) (d : Doc) : bool :=
  match d with DWindow m => Nat.eqb (mw_id m) i | _ => false end.

(** [deleteMaintenanceWindow(windowId)]: the result is [success]. *)
Definition deleteMaintenanceWindow (windowId : DocId) : M bool :=
  try_catch
    (deletedCount <~ Bulk.deleteOne (is_window windowId) ;;
     ret (Nat.ltb 0 deletedCount))
    (fun _ => ret false).

End WindowAdmin.

(** ** A schedule fires ([AdvancedScheduler.handleScheduleTrigger]) *)
Module Trigger.
Import Model Store.

(** What a trigger leaves behind in memory: the nodes for which a job
    creation is set off ([setTimeout] around [createJobForSchedule]), and the
    deferred queue. *)
Record Report := {
  dispatched : list string;
  jobQueue : list Scheduler.QueueEntry
}.

(** [$set: { lastRun: timestamp }] (and [$inc: { runCount: 1 }], a field
    the model does not keep). *)
Definition set_lastRun (timestamp : Z) (d : Doc) : Doc :=
  match d with
  | DSchedule s =>
      DSchedule {| s_id := s_id s; s_name := s_name s; s_priority := s_priority s;
                   s_maintenanceWindowIds := s_maintenanceWindowIds s;
                   s_dependsOn := s_dependsOn s; s_lastRun := Some timestamp;
                   s_concurrency := s_concurrency s;
                   s_missedJobPolicy := s_missedJobPolicy s |}
  | _ => d
  end.

Section Fire.
Variable tz_now : string -> option Z.
Variable cron_previous : string -> string -> result (option Z).
(** [this.cronJobs.get(id).next()], when the schedule has a cron job that
    reports a next run. *)
Variable cron_next : option Z.
(** The entries of [wsagents]. *)
Variable wsagents : list (string * option string).

(** The bookkeeping after the jobs are set off; [nextRun] is a field the
    model does not keep, its update is one more access to the store. *)
Definition record_run (schedule : Schedule) (timestamp : Z) : M unit :=
  updateOne (has_id (s_id schedule)) (set_lastRun timestamp) ;;;
  match cron_next with
  | Some _ => updateOne (has_id (s_id schedule)) (fun d => d)
  | None => ret tt
  end.

(** [handleScheduleTrigger(schedule)], on the schedule, its [nodes] and
    [meshes], and the deferred queue.  Nothing before the jobs are set off
    can throw (both gates catch their errors); an error of the bookkeeping
    is caught after they are. *)
Definition handleScheduleTrigger (schedule : Schedule)
    (nodes meshes : option (list string)) (queue : list Scheduler.QueueEntry)
    : M Report :=
  timestamp <~ now ;;
  maintenanceCheck <~ MaintenanceWindows.canJobRun tz_now cron_previous
                        schedule timestamp ;;
  if negb (MaintenanceWindows.allowed maintenanceCheck) then
    if isS (s_missedJobPolicy schedule) "queue" then
      queuedAt <~ now ;;
      ret {| dispatched := [];
             jobQueue := Scheduler.queueScheduleForLater (s_id schedule)
                           (s_priority schedule) queuedAt queue |}
    else ret {| dispatched := []; jobQueue := queue |}
  else
    depsReady <~ match s_dependsOn schedule with
                 | Some (_ :: _) => Scheduler.checkDependencies schedule
                 | _ => ret true
                 end ;;
    if negb depsReady then ret {| dispatched := []; jobQueue := queue |}
    else
      let targets := Dispatch.getTargetNodes nodes meshes wsagents in
      try_catch (record_run schedule timestamp) (fun _ => ret tt) ;;;
      ret {| dispatched := targets; jobQueue := queue |}.
End Fire.

End Trigger.

(** ** Example data *)
Module Examples.
Import Model Store.

(** A schedule with the given priority, maintenance windows and
    dependencies. *)
Definition schedule_with (priority : option string) (windows : option (list DocId))
    (dependsOn : option (list DocId)) : Schedule :=
  {| s_id := 1%nat; s_name := "nightly"; s_priority := priority;
     s_maintenanceWindowIds := windows; s_dependsOn := dependsOn;
     s_lastRun := None; s_concurrency := None; s_missedJobPolicy := None |}.

(** A world that holds [l], whose accesses fault as [fs] says. *)
Definition world_of (l : list Doc) (fs : list bool) : World :=
  {| docs := l; next_id := 100%nat; faults := fs; clock := 0;
     activeExecutions := ∅; quarantinedNodes := ∅ |}.

(** The maintenance window [0 2 * * *] of two hours in UTC, which lets
    priority 'critical' through. *)
Definition nightly_window : Window :=
  {| mw_id := 5%nat; mw_name := "nightly"; mw_enabled := true;
     mw_cronExpression := "0 2 * * *"; mw_timezone := Some "UTC";
     mw_duration := 7200; mw_allowedPriorities := Some ["critical"] |}.

(** 1970-01-02 02:30:00 UTC, in milliseconds. *)
Definition half_past_two : Z := 95400000.

(** The threshold condition [{type, field, operator, value}]. *)
Definition threshold (field operator : string) (v : Z) : Js.value :=
  Js.VObj [("type", Js.VStr "threshold"); ("field", Js.VStr field);
        ("operator", Js.VStr operator); ("value", Js.num_of_Z v)].

(** A workflow document of two script steps, [backup] then [patch]; the
    first declares a rollback script. *)
Definition patch_workflow (enabled rollbackEnabled : bool) : Workflow :=
  {| w_id := 1%nat; w_name := "patch"; w_enabled := enabled;
     w_steps := Some [ {| id := "backup"; name := None; type := Some "script";
                          timeout := None; scriptId := Some "s1"; script := None;
                          priority := None; url := None; method := None; to := None;
                          subject := None; body := None; template := None;
                          duration := None; condition := None;
                          onSuccess := Some "patch"; onFailure := None;
                          onTrue := None; onFalse := None; retryPolicy := None;
                          rollbackScriptId := Some "undo-backup" |};
                       script_step "patch" "s2" None None ];
     w_startStep := Some "backup"; w_escalationEnabled := false;
     w_escalationPolicyId := None; w_rollbackEnabled := rollbackEnabled |}.

(** A successful result of step [i]. *)
Definition success_of (i : string) : StepResult :=
  {| sr_stepId := i; sr_stepName := i; sr_stepType := Some "script";
     sr_status := "success"; sr_startTime := 0; sr_endTime := 0;
     sr_output := None; sr_error := None; sr_retryCount := Some 0 |}.

(** An execution of workflow 1 on node [web-1], stored under [_id] 7. *)
Definition stored_execution (status : string) (results : list StepResult) : Execution :=
  {| e_id := 7%nat; e_workflowId := 1%nat; e_workflowName := "patch";
     e_nodeId := "web-1"; e_status := status; e_currentStep := Some "patch";
     e_triggeredBy := "admin"; e_triggerType := "manual"; e_startTime := 0;
     e_endTime := None; e_duration := None; e_completionReason := None;
     e_completedAt := None; e_stepResults := results |}.

(** A store with the patch workflow and one execution of it, interrupted
    after its [backup] step succeeded. *)
Definition interrupted_world (rollbackEnabled : bool) : World :=
  world_of [DWorkflow (patch_workflow true rollbackEnabled);
            DExecution (stored_execution "running" [success_of "backup"])] [].

End Examples.

(** ** Sample data of the worked cases *)
Module Samples.
Import Model Store.

(** A condition step on the exit code of the step before it. *)
Definition exit_code_step : Step :=
  {| id := "check"; name := None; type := Some "condition"; timeout := None;
     scriptId := None; script := None; priority := None; url := None; method := None;
     to := None; subject := None; body := None; template := None; duration := None;
     condition := Some (Js.VObj [("type", Js.VStr "exitCode");
                                 ("exitCode", Js.num_of_Z 0)]);
     onSuccess := None; onFailure := None;
     onTrue := Some "cleanup"; onFalse := Some "alert";
     retryPolicy := None; rollbackScriptId := None |}.

(** A queue of three schedules in order of weight. *)
Definition queue_of_three : list Scheduler.QueueEntry :=
  [ {| Scheduler.q_scheduleId := 1%nat; Scheduler.q_priority := Proto.Number 2;
       Scheduler.q_queuedAt := 10 |};
    {| Scheduler.q_scheduleId := 2%nat; Scheduler.q_priority := Proto.Number 3;
       Scheduler.q_queuedAt := 20 |};
    {| Scheduler.q_scheduleId := 3%nat; Scheduler.q_priority := Proto.Number 4;
       Scheduler.q_queuedAt := 30 |} ].

(** A queue of two schedules that is not in order of weight. *)
Definition queue_out_of_order : list Scheduler.QueueEntry :=
  [ {| Scheduler.q_scheduleId := 1%nat; Scheduler.q_priority := Proto.Number 4;
       Scheduler.q_queuedAt := 10 |};
    {| Scheduler.q_scheduleId := 2%nat; Scheduler.q_priority := Proto.Number 3;
       Scheduler.q_queuedAt := 20 |} ].

(** A pending job on node [web-1]. *)
Definition pending_job : Job :=
  {| j_id := 3%nat; j_scriptId := None; j_node := "web-1"; j_state := "pending";
     j_queueTime := 0; j_priority := "normal"; j_scheduleId := None;
     j_remediationExecutionId := None; j_remediationStepId := None;
     j_tags := []; j_reason := None; j_originalStepId := None |}.

(** A schedule that allows one live job per node. *)
Definition one_per_node : Schedule :=
  {| s_id := 1%nat; s_name := "nightly"; s_priority := None;
     s_maintenanceWindowIds := None; s_dependsOn := None; s_lastRun := None;
     s_concurrency := Some {| maxPerNode := Some 1; maxPerMesh := None;
                              maxGlobal := None |};
     s_missedJobPolicy := None |}.

(** A running job on node [web-2]. *)
Definition running_job : Job :=
  {| j_id := 4%nat; j_scriptId := None; j_node := "web-2"; j_state := "running";
     j_queueTime := 0; j_priority := "normal"; j_scheduleId := None;
     j_remediationExecutionId := None; j_remediationStepId := None;
     j_tags := []; j_reason := None; j_originalStepId := None |}.

(** A schedule that allows two live jobs per node, three per mesh and four
    in all. *)
Definition limited : Schedule :=
  {| s_id := 1%nat; s_name := "nightly"; s_priority := None;
     s_maintenanceWindowIds := None; s_dependsOn := None; s_lastRun := None;
     s_concurrency := Some {| maxPerNode := Some 2; maxPerMesh := Some 3;
                              maxGlobal := Some 4 |};
     s_missedJobPolicy := None |}.

(** A schedule that allows one live job in all. *)
Definition one_in_all : Schedule :=
  {| s_id := 1%nat; s_name := "nightly"; s_priority := None;
     s_maintenanceWindowIds := None; s_dependsOn := None; s_lastRun := None;
     s_concurrency := Some {| maxPerNode := None; maxPerMesh := None;
                              maxGlobal := Some 1 |};
     s_missedJobPolicy := None |}.

(** Two connected agents of one mesh. *)
Definition agents : gmap string (option string) :=
  <["web-1" := Some "mesh-a"]> (<["web-2" := Some "mesh-a"]> ∅).

(** A window that is not the nightly one, and lets no priority through. *)
Definition other_window : Window :=
  {| mw_id := 6%nat; mw_name := "freeze"; mw_enabled := true;
     mw_cronExpression := "0 2 * * *"; mw_timezone := Some "UTC";
     mw_duration := 7200; mw_allowedPriorities := Some [] |}.

(** Schedule 1 depends on schedule 2, which ran at time 5. *)
Definition dependent : Schedule :=
  {| s_id := 1%nat; s_name := "report"; s_priority := None;
     s_maintenanceWindowIds := None; s_dependsOn := Some [2%nat]; s_lastRun := None;
     s_concurrency := None; s_missedJobPolicy := None |}.

Definition dependency : Schedule :=
  {| s_id := 2%nat; s_name := "collect"; s_priority := None;
     s_maintenanceWindowIds := None; s_dependsOn := Some []; s_lastRun := Some 5;
     s_concurrency := None; s_missedJobPolicy := None |}.

Definition dependency_world : World :=
  Examples.world_of [DSchedule dependent; DSchedule dependency] [].

(** The data of a window that names no allowed priority. *)
Definition window_data : WindowAdmin.WindowData :=
  {| WindowAdmin.wd_name := "patching"; WindowAdmin.wd_cronExpression := "0 2 * * *";
     WindowAdmin.wd_timezone := None; WindowAdmin.wd_duration := None;
     WindowAdmin.wd_allowedPriorities := None; WindowAdmin.wd_enabled := None |}.

(** The cron library answers 02:00 of the second day of 1970. *)
Definition two_o_clock : string -> string -> result (option Z) :=
  fun _ _ => Ok (Some (Examples.half_past_two - 1800000)).

(** The time zone handler answers nothing. *)
Definition no_clock : string -> option Z := fun _ => None.

(** Every step's work fails, and leaves the store as it is. *)
Definition failing_run : Advance.StepRun :=
  {| Advance.run_outcome := Engine.failure "Job timed out";
     Advance.run_startTime := 0; Advance.run_endTime := 1 |}.

Definition always_fails : Execution -> Step -> World -> Advance.StepRun * World :=
  fun _ _ w => (failing_run, w).

(** Escalation leaves the store as it is. *)
Definition no_escalation : Execution -> Workflow -> World -> World :=
  fun _ _ w => w.

(** The workflow [A -> B -> C], as a document. *)
Definition chain_workflow : Workflow :=
  Builder.mk_workflow Builder.steps_ABC (Some "A").

(** The state machine compiled from it. *)
Definition chain_machine : Machine.StateMachine :=
  {| Machine.sm_name := "workflow"; Machine.sm_startStep := Some "A";
     Machine.sm_steps := Machine.compile_all Builder.steps_ABC |}.

(** A result with status 'success'. *)
Definition succeeded : Engine.StepOutcome :=
  {| Engine.o_status := "success"; Engine.o_output := None; Engine.o_error := None;
     Engine.o_conditionResult := None; Engine.o_retryCount := None |}.

(** A composite condition: the disk is above 90 and the memory above 80. *)
Definition both_high : Js.value :=
  Js.VObj [("type", Js.VStr "composite"); ("logic", Js.VStr "and");
           ("conditions", Js.VArr [Examples.threshold "disk" "gt" 90;
                                   Examples.threshold "memory" "gt" 80])].

(** A schedule of priority 'normal' behind the nightly window, to be
    queued when it is blocked. *)
Definition blocked_schedule : Schedule :=
  {| s_id := 1%nat; s_name := "nightly"; s_priority := Some "normal";
     s_maintenanceWindowIds := Some [5%nat]; s_dependsOn := None; s_lastRun := None;
     s_concurrency := None; s_missedJobPolicy := Some "queue" |}.

(** The store holds the nightly window; the clock is at 02:30. *)
Definition half_past_two_world : World :=
  {| docs := [DWindow Examples.nightly_window]; next_id := 100%nat; faults := [];
     clock := Examples.half_past_two; activeExecutions := ∅; quarantinedNodes := ∅ |}.

(** The store holds the two schedules; the clock is at 02:30. *)
Definition running_world : World :=
  {| docs := [DSchedule dependent; DSchedule dependency]; next_id := 100%nat;
     faults := []; clock := Examples.half_past_two;
     activeExecutions := ∅; quarantinedNodes := ∅ |}.

(** The output-pattern condition [{type, pattern, matchType, caseSensitive}]. *)
Definition output_pattern (matchType pattern : string) (caseSensitive : Js.value)
    : Js.value :=
  Js.VObj [("type", Js.VStr "outputPattern"); ("pattern", Js.VStr pattern);
           ("matchType", Js.VStr matchType); ("caseSensitive", caseSensitive)].

End Samples.

(** * Facts about [Array.prototype.find] *)
Section FindProofs.

Lemma js_find_app {A} (p : A → bool) l l' x :
  js_find p l = Some x → js_find p (l ++ l') = Some x.
Proof.
  induction l as [|a l IH]; simpl; [discriminate|]. destruct (p a); auto.
Qed.

Lemma js_find_app_none {A} (p : A → bool) l l' :
  js_find p l = None → js_find p (l ++ l') = js_find p l'.
Proof.
  induction l as [|a l IH]; simpl; [done|]. destruct (p a); [discriminate|auto].
Qed.

Lemma js_find_some {A} (p : A → bool) l x :
  js_find p l = Some x → x ∈ l ∧ p x = true.
Proof.
  induction l as [|a l IH]; simpl; [discriminate|].
  destruct (p a) eqn:Hp.
  - intros [= ->]. split; [apply list_elem_of_here|done].
  - intros H. destruct (IH H). split; [by apply list_elem_of_further|done].
Qed.

Lemma js_find_app_false {A} (q : A → bool) l extra :
  (∀ d, d ∈ extra → q d = false) → js_find q (l ++ extra) = js_find q l.
Proof.
  intros H. induction l as [|d l IH]; simpl.
  - induction extra as [|x extra IH]; simpl; [reflexivity|].
    rewrite (H x) by apply list_elem_of_here.
    apply IH. intros d Hd. apply H. by apply list_elem_of_further.
  - destruct (q d); auto.
Qed.

End FindProofs.

(** * Properties of workflow validation *)
Section BuilderProofs.
Import Model Builder.

Lemma Post_Inv sm a b : Post sm a b → Inv sm b.
Proof. intros H. apply H. Qed.

Lemma circular_message (s : string) :
  is_circular_error ("Circular dependency detected: " +:+ s) = true.
Proof. unfold is_circular_error. simpl. by destruct s. Qed.

Lemma truthyS_Some (o : option string) :
  truthyS o = true → ∃ s, o = Some s ∧ s ≠ "" ∧ default "" o = s.
Proof.
  destruct o as [s|]; simpl; [|discriminate].
  intros H. exists s. split_and!; auto.
  intros ->. simpl in H. discriminate.
Qed.

Lemma truthyS_intro (s : string) : s ≠ "" → truthyS (Some s) = true.
Proof.
  intros H. simpl. destruct (String.eqb_spec s ""); [contradiction|reflexivity].
Qed.

Lemma Post_refl sm st : Inv sm st → Post sm st st.
Proof. intros H. unfold Post. split_and!; auto. Qed.

Lemma Post_trans sm a b c : Post sm a b → Post sm b c → Post sm a c.
Proof.
  intros (hS1 & hV1 & hE1 & hC1 & hI1) (hS2 & hV2 & hE2 & hC2 & hI2).
  unfold Post. split_and!; [congruence|set_solver|tauto|tauto|exact hI2].
Qed.

Lemma black_mono sm a b : Post sm a b → black a ⊆ black b.
Proof. intros (hS1 & hV1 & _). unfold black. rewrite hS1. set_solver. Qed.

Lemma closed_stays sm st y z :
  Inv sm st → errors st = [] → y ∈ black st → rtc (followed_edge sm) y z → z ∈ black st.
Proof.
  intros [_ HI] He Hy Hr. destruct (HI He) as [Hc _].
  induction Hr; eauto.
Qed.

Section Detect.
Variable sm : gmap string Step.

Lemma visit_None fuel path tgts : foldl (visit sm fuel path) None tgts = None.
Proof. induction tgts; simpl; auto. Qed.

Lemma visit_Some fuel path a t :
  visit sm fuel path (Some a) t =
  if truthyS t then detectCycle fuel sm t path a else Some a.
Proof. reflexivity. Qed.

Lemma fold_post fuel path :
  (∀ x p st st', detectCycle fuel sm x p st = Some st' → Inv sm st →
      Post sm st st' ∧ (errors st' = [] → truthyS x = true → default "" x ∈ black st')) →
  ∀ tgts a st2,
    foldl (visit sm fuel path) (Some a) tgts = Some st2 → Inv sm a →
    Post sm a st2 ∧
    (errors st2 = [] → ∀ t, t ∈ tgts → truthyS t = true → default "" t ∈ black st2).
Proof.
    intros IH tgts. induction tgts as [|t tgts IHl]; intros a st2 Hf Ha.
    - inversion Hf; subst. split; [by apply Post_refl|]. intros _ t Ht. inversion Ht.
    - change (foldl (visit sm fuel path) (visit sm fuel path (Some a) t) tgts = Some st2) in Hf.
      rewrite visit_Some in Hf.
      destruct (truthyS t) eqn:Ht.
      + destruct (detectCycle fuel sm t path a) as [a1|] eqn:Hd.
        2:{ rewrite visit_None in Hf. discriminate. }
        destruct (IH _ _ _ _ Hd Ha) as [P1 B1].
        destruct (IHl _ _ Hf (Post_Inv _ _ _ P1)) as [P2 B2].
        split; [eapply Post_trans; eauto|].
        intros He u Hu Hut. apply elem_of_cons in Hu as [->|Hu].
        * eapply (black_mono sm a1 st2); auto. apply B1; auto. apply P2; auto.
        * eapply B2; eauto.
      + destruct (IHl _ _ Hf Ha) as [P2 B2]. split; auto.
        intros He u Hu Hut. apply elem_of_cons in Hu as [->|Hu]; [congruence|].
        eapply B2; eauto.
Qed.

Lemma detect_post fuel :
  ∀ x p st st', detectCycle fuel sm x p st = Some st' → Inv sm st →
    Post sm st st' ∧ (errors st' = [] → truthyS x = true → default "" x ∈ black st').
Proof.
    induction fuel as [|fuel IH]; intros x p st st' Hd HI; simpl in Hd; [discriminate|].
    destruct (truthyS x) eqn:Hx; simpl in Hd.
    2:{ inversion Hd; subst. split; [by apply Post_refl|]. intros; discriminate. }
    destruct (truthyS_Some _ Hx) as (s & -> & Hne & _). simpl in Hd. simpl.
    destruct (decide (s ∈ recursionStack st)) as [Hin|Hnin].
    { inversion Hd; subst; clear Hd. split.
      - unfold Post. split_and!; simpl; auto.
        + intros He. destruct (errors st); discriminate.
        + intros Hc. apply Forall_app. split; auto.
          apply Forall_cons. split; [apply circular_message|apply Forall_nil_2].
        + split; simpl; [apply HI|]. intros He. destruct (errors st); discriminate.
      - simpl. intros He. destruct (errors st); discriminate. }
    destruct (decide (s ∈ visited st)) as [Hv|Hnv].
    { inversion Hd; subst; clear Hd. split; [by apply Post_refl|].
      intros _ _. unfold black. set_solver. }
    set (st1 := {| visited := {[s]} ∪ visited st;
                   recursionStack := {[s]} ∪ recursionStack st;
                   errors := errors st |}) in *.
    assert (Hb1 : black st1 = black st).
    { unfold black, st1; simpl. destruct HI as [Hsub _]. set_solver. }
    assert (HI1 : Inv sm st1).
    { destruct HI as [Hsub HI]. split; [unfold st1; simpl; set_solver|].
      rewrite Hb1. exact HI. }
    assert (∃ st2, Some st2 = match sm !! s with
          | Some step => foldl (visit sm fuel (p ++ [s])) (Some st1) (followed step)
          | None => Some st1 end ∧
          st' = {| visited := visited st2; recursionStack := recursionStack st2 ∖ {[s]};
                   errors := errors st2 |}) as (st2 & Hst2 & ->).
    { unfold visit. destruct (match sm !! s with Some _ => _ | None => _ end) as [st2|]; simpl in Hd;
        [|discriminate]. inversion Hd. eauto. }
    clear Hd.
    assert (P2 : Post sm st1 st2 ∧
       (errors st2 = [] → ∀ z, followed_edge sm s z → z ∈ black st2)).
    { destruct (sm !! s) as [step|] eqn:Hs.
      - symmetry in Hst2. destruct (fold_post fuel (p ++ [s]) IH _ _ _ Hst2 HI1) as [P B].
        split; auto. intros He z (s' & Hs' & Ht & Hz).
        rewrite Hs in Hs'. inversion Hs'; subst s'.
        specialize (B He (Some z) Ht (truthyS_intro _ Hz)). exact B.
      - inversion Hst2; subst. split; [by apply Post_refl|].
        intros _ z (s' & Hs' & _). congruence. }
    destruct P2 as [(S2 & V2 & E2 & C2 & I2) Hsucc].
    assert (Hs2 : s ∈ visited st2) by (unfold st1 in V2; simpl in V2; set_solver).
    assert (HsS : s ∈ recursionStack st2) by (rewrite S2; unfold st1; simpl; set_solver).
    assert (Hbl : black {| visited := visited st2; recursionStack := recursionStack st2 ∖ {[s]};
                   errors := errors st2 |} = {[s]} ∪ black st2).
    { unfold black; simpl. apply set_eq. intros y.
      rewrite elem_of_union, !elem_of_difference, elem_of_singleton.
      destruct (decide (y = s)) as [->|]; set_solver. }
    split.
    - unfold Post. split_and!; simpl.
      + rewrite S2. unfold st1; simpl. set_solver.
      + unfold st1 in V2; simpl in V2. set_solver.
      + exact E2.
      + exact C2.
      + split; simpl; [destruct I2 as [Hsub _]; set_solver|].
        intros He. rewrite Hbl. destruct I2 as [Hsub I2]. destruct (I2 He) as [Hc Ha].
        split.
        * intros y z Hy Hyz. apply elem_of_union in Hy as [Hy|Hy].
          -- apply elem_of_singleton in Hy; subst y. apply elem_of_union; right. by apply Hsucc.
          -- apply elem_of_union; right. eapply Hc; eauto.
        * intros y Hy Hcyc. apply elem_of_union in Hy as [Hy|Hy]; [|by eapply Ha].
          apply elem_of_singleton in Hy; subst y.
          inversion Hcyc as [? ? Hst|? z ? Hsz Hzs]; subst.
          -- specialize (Hsucc He _ Hst). unfold black in Hsucc. set_solver.
          -- specialize (Hsucc He _ Hsz).
             assert (s ∈ black st2).
             { eapply (closed_stays sm st2 z s); eauto. split; auto. by apply tc_rtc. }
             unfold black in *. set_solver.
    - simpl. intros He _. rewrite Hbl. set_solver.
Qed.
End Detect.

Lemma detectCycle_S sm fuel x p st :
  detectCycle (S fuel) sm x p st =
  if negb (truthyS x) then Some st
  else
    let s := default "" x in
    if decide (s ∈ recursionStack st) then
      Some {| visited := visited st; recursionStack := recursionStack st;
              errors := errors st ++
                ["Circular dependency detected: " +:+ join " -> " (p ++ [s])] |}
    else if decide (s ∈ visited st) then Some st
    else
      let st1 := {| visited := {[s]} ∪ visited st;
                    recursionStack := {[s]} ∪ recursionStack st;
                    errors := errors st |} in
      st2 ← match sm !! s with
            | Some step => foldl (visit sm fuel (p ++ [s])) (Some st1) (followed step)
            | None => Some st1
            end;
      Some {| visited := visited st2; recursionStack := recursionStack st2 ∖ {[s]};
              errors := errors st2 |}.
Proof. reflexivity. Qed.

Lemma size_shrink (U V : gset string) x n :
  x ∈ U → x ∉ V → (size (U ∖ V) < S n)%nat → (size (U ∖ ({[x]} ∪ V)) < n)%nat.
Proof.
  intros Hx Hv Hn.
  assert (size (U ∖ ({[x]} ∪ V)) < size (U ∖ V))%nat; [|lia].
  apply subset_size. set_solver.
Qed.

Lemma size_anti (U V V' : gset string) n :
  V ⊆ V' → (size (U ∖ V) < n)%nat → (size (U ∖ V') < n)%nat.
Proof.
  intros Hs Hn. assert (size (U ∖ V') ≤ size (U ∖ V))%nat; [|lia].
  apply subseteq_size. set_solver.
Qed.

Section Total.
Variable sm : gmap string Step.
Variable U : gset string.
Hypothesis U_closed : ∀ s step t,
  sm !! s = Some step → t ∈ followed step → truthyS t = true → default "" t ∈ U.

Lemma fold_total fuel path :
  Tot sm U fuel →
  ∀ tgts a, (∀ t, t ∈ tgts → truthyS t = true → default "" t ∈ U) →
    visited a ⊆ U → (size (U ∖ visited a) < fuel)%nat →
    ∃ st2, foldl (visit sm fuel path) (Some a) tgts = Some st2 ∧
           visited st2 ⊆ U ∧ visited a ⊆ visited st2.
Proof.
    intros IH tgts. induction tgts as [|t tgts IHl]; intros a Ht Ha Hn.
    - exists a. split_and!; auto.
    - change (foldl (visit sm fuel path) (Some a) (t :: tgts))
        with (foldl (visit sm fuel path) (visit sm fuel path (Some a) t) tgts).
      rewrite visit_Some.
      assert (Ht' : ∀ t0, t0 ∈ tgts → truthyS t0 = true → default "" t0 ∈ U).
      { intros t0 H0. apply Ht. by apply list_elem_of_further. }
      destruct (truthyS t) eqn:Htt.
      + destruct (IH t path a) as (a1 & -> & HU1 & Hm1); auto.
        { intros _. apply Ht; auto. apply list_elem_of_here. }
        destruct (IHl a1 Ht' HU1) as (st2 & -> & HU2 & Hm2).
        { eapply size_anti; eauto. }
        exists st2. split_and!; auto. set_solver.
      + apply IHl; auto.
Qed.

Lemma detect_total fuel : Tot sm U fuel.
Proof.
    induction fuel as [|fuel IH]; intros x p st Hx HU Hn; [lia|].
    rewrite detectCycle_S. destruct (truthyS x) eqn:Hxt; cbn [negb]; [|eauto].
    cbv zeta.
    destruct (decide (default "" x ∈ recursionStack st)); [eexists; split_and!; eauto|].
    destruct (decide (default "" x ∈ visited st)) as [|Hnv]; [eauto|].
    set (s := default "" x) in *.
    set (st1 := {| visited := {[s]} ∪ visited st;
                   recursionStack := {[s]} ∪ recursionStack st;
                   errors := errors st |}).
    assert (HU1 : visited st1 ⊆ U) by (unfold st1; simpl; set_solver).
    assert (Hn1 : (size (U ∖ visited st1) < fuel)%nat).
    { unfold st1; simpl. apply size_shrink; auto. }
    assert (∃ st2, match sm !! s with
          | Some step => foldl (visit sm fuel (p ++ [s])) (Some st1) (followed step)
          | None => Some st1 end = Some st2 ∧ visited st2 ⊆ U ∧ visited st1 ⊆ visited st2)
      as (st2 & Hst2 & HU2 & Hm2).
    { destruct (sm !! s) as [step|] eqn:Hs; [|eauto].
      apply fold_total; auto. intros t Ht Htt. eapply U_closed; eauto. }
    rewrite Hst2. simpl.
    eexists; split_and!; eauto. simpl. unfold st1 in Hm2; simpl in Hm2. set_solver.
Qed.
End Total.

Lemma build_stepMap_lookup_gen steps : ∀ (m : gmap string Step) k v,
  fold_left (fun m s => <[id s := s]> m) steps m !! k = Some v →
  (v ∈ steps ∧ id v = k) ∨ m !! k = Some v.
Proof.
  induction steps as [|s steps IH]; intros m k v H; simpl in H; [by right|].
  destruct (IH _ _ _ H) as [[Hin Hid]|Hm].
  - left. split; auto. by apply list_elem_of_further.
  - destruct (decide (id s = k)) as [<-|Hne].
    + rewrite lookup_insert_eq in Hm. inversion Hm; subst. left. split; auto. apply list_elem_of_here.
    + rewrite lookup_insert_ne in Hm by done. by right.
Qed.

Lemma build_stepMap_lookup steps k v :
  build_stepMap steps !! k = Some v → v ∈ steps ∧ id v = k.
Proof.
  intros H. destruct (build_stepMap_lookup_gen _ _ _ _ H) as [?|Hm]; auto.
  rewrite lookup_empty in Hm. discriminate.
Qed.

Lemma universe_start start steps :
  truthyS start = true → default "" start ∈ universe start steps.
Proof.
  intros H. destruct (truthyS_Some _ H) as (s & -> & _ & _). simpl.
  unfold universe. simpl. set_solver.
Qed.

Lemma universe_spec start steps (x : string) :
  x ∈ universe start steps ↔
  start = Some x ∨ ∃ s, s ∈ steps ∧ (id s = x ∨ Some x ∈ followed s).
Proof.
  unfold universe. rewrite elem_of_list_to_set, list_elem_of_omap.
  split.
  - intros (o & Ho & Hx). subst o. apply elem_of_cons in Ho as [Ho|Ho]; [left; congruence|].
    right. apply list_elem_of_In, in_flat_map in Ho as (s & Hs & Hin).
    exists s. split; [by apply list_elem_of_In|].
    apply list_elem_of_In, elem_of_cons in Hin as [Hin|Hin]; [left; congruence|by right].
  - intros [->|(s & Hs & Hx)].
    + exists (Some x). split; auto. apply list_elem_of_here.
    + exists (Some x). split; auto. apply list_elem_of_further.
      apply list_elem_of_In, in_flat_map. exists s. split; [by apply list_elem_of_In|].
      apply list_elem_of_In. destruct Hx as [<-|Hx]; [apply list_elem_of_here|by apply list_elem_of_further].
Qed.

Lemma universe_closed start steps s step t :
  build_stepMap steps !! s = Some step → t ∈ followed step → truthyS t = true →
  default "" t ∈ universe start steps.
Proof.
  intros Hs Ht Htt. destruct (truthyS_Some _ Htt) as (y & -> & _ & _). simpl.
  apply universe_spec. right. exists step. split; [|by right].
  by apply build_stepMap_lookup in Hs as [? _].
Qed.

Lemma sweep_spec sm U fuel :
  (∀ s step t, sm !! s = Some step → t ∈ followed step → truthyS t = true → default "" t ∈ U) →
  ∀ steps a,
    (∀ s, s ∈ steps → id s ∈ U) →
    Inv sm a → recursionStack a = ∅ → visited a ⊆ U →
    (size (U ∖ visited a) < fuel)%nat →
    ∃ st, foldl (sweep fuel sm) (Some a) steps = Some st ∧ Post sm a st ∧ visited st ⊆ U ∧
          (errors st = [] → ∀ s, s ∈ steps → id s ≠ "" → id s ∈ black st).
Proof.
  intros HU steps. induction steps as [|s steps IH]; intros a Hids Ha Hst HVU Hn.
  - exists a. split_and!; auto; [by apply Post_refl|]. intros _ s Hs. inversion Hs.
  - change (foldl (sweep fuel sm) (Some a) (s :: steps))
      with (foldl (sweep fuel sm) (sweep fuel sm (Some a) s) steps).
    assert (Hids' : ∀ s0, s0 ∈ steps → id s0 ∈ U).
    { intros s0 H0. apply Hids. by apply list_elem_of_further. }
    assert (∃ a1, sweep fuel sm (Some a) s = Some a1 ∧ Post sm a a1 ∧ visited a1 ⊆ U ∧
              (errors a1 = [] → id s ≠ "" → id s ∈ black a1)) as (a1 & -> & P1 & HU1 & B1).
    { unfold sweep; simpl. destruct (decide (id s ∈ visited a)) as [Hin|Hnin].
      - exists a. split_and!; auto; [by apply Post_refl|].
        intros _ _. unfold black. rewrite Hst. set_solver.
      - destruct (detect_total sm U HU fuel (Some (id s)) [] a) as (a1 & Hd & HU1 & _); auto.
        { intros _. simpl. apply Hids, list_elem_of_here. }
        exists a1. destruct (detect_post sm fuel _ _ _ _ Hd Ha) as [P1 B1].
        split_and!; auto. intros He Hne. apply (B1 He). by apply truthyS_intro. }
    assert (Hst1 : recursionStack a1 = ∅) by (destruct P1 as [-> _]; done).
    assert (Hn1 : (size (U ∖ visited a1) < fuel)%nat).
    { apply (size_anti U (visited a) (visited a1)); [apply P1|exact Hn]. }
    destruct (IH a1 Hids' (Post_Inv _ _ _ P1) Hst1 HU1 Hn1) as (st & Hf & P2 & HU2 & B2).
    exists st. split_and!; auto; [eapply Post_trans; eauto|].
    intros He u Hu Hne. apply elem_of_cons in Hu as [->|Hu]; [|by apply B2].
    apply (black_mono sm a1 st P2). apply B1; auto. apply P2; auto.
Qed.

Lemma Inv_dfs0 sm : Inv sm dfs0.
Proof.
  split; simpl; [set_solver|]. intros _. unfold black; simpl. split; intros; set_solver.
Qed.

Lemma run_checks_spec start steps :
  let sm := build_stepMap steps in
  ∃ st, run_checks start steps = Some st ∧ Inv sm st ∧ recursionStack st = ∅ ∧
        circular (errors st) ∧
        (errors st = [] → ∀ s, s ∈ steps → id s ≠ "" → id s ∈ black st).
Proof.
  intros sm. unfold run_checks. fold sm. fold dfs0.
  set (U := universe start steps). set (fuel := S (size U)).
  assert (HU : ∀ s step t, sm !! s = Some step → t ∈ followed step →
                           truthyS t = true → default "" t ∈ U).
  { intros. eapply universe_closed; eauto. }
  assert (Hn0 : (size (U ∖ visited dfs0) < fuel)%nat).
  { unfold fuel, dfs0; simpl. assert (size (U ∖ ∅) ≤ size U)%nat; [|lia].
    apply subseteq_size. set_solver. }
  assert (∃ st0, (if truthyS start then detectCycle fuel sm start [] dfs0 else Some dfs0) = Some st0
                 ∧ Post sm dfs0 st0 ∧ visited st0 ⊆ U) as (st0 & -> & P0 & HU0).
  { destruct (truthyS start) eqn:Hs.
    - destruct (detect_total sm U HU fuel start [] dfs0) as (st0 & Hd & HU0 & _); auto.
      { intros _. by apply universe_start. }
      { simpl. set_solver. }
      exists st0. split_and!; auto. by destruct (detect_post sm fuel _ _ _ _ Hd (Inv_dfs0 sm)).
    - exists dfs0. split_and!; auto; [apply Post_refl, Inv_dfs0|simpl; set_solver]. }
  assert (Hids : ∀ s, s ∈ steps → id s ∈ U).
  { intros s Hs. apply universe_spec. right. exists s. auto. }
  assert (Hst0 : recursionStack st0 = ∅) by (by destruct P0 as [-> _]).
  assert (Hn1 : (size (U ∖ visited st0) < fuel)%nat).
  { apply (size_anti U (visited dfs0) (visited st0)); [apply P0|exact Hn0]. }
  destruct (sweep_spec sm U fuel HU steps st0 Hids (Post_Inv _ _ _ P0) Hst0 HU0 Hn1)
    as (st & Hf & P & _ & B).
  exists st. split_and!; auto.
  - by apply Post_Inv in P.
  - destruct P as [-> _]. by destruct P0 as [-> _].
  - apply P. apply P0. apply Forall_nil_2.
Qed.

Lemma tc_mono {A} (R R' : relation A) x y :
  (∀ a b, R a b → R' a b) → tc R x y → tc R' x y.
Proof.
  intros H. induction 1 as [? ? H1|? ? ? H1 _ IH]; [by apply tc_once, H|].
  eapply tc_l; [by apply H|exact IH].
Qed.

Lemma tc_target {A} (R : relation A) x y : tc R x y → ∃ z, R z y.
Proof. induction 1; eauto. Qed.

(** Every cycle of the graph the detector follows is reported. *)
Lemma followed_cycle_reported start steps x :
  tc (followed_edge (build_stepMap steps)) x x →
  check_errors (checkCircularDependencies start steps) ≠ [].
Proof.
  intros Hc. unfold checkCircularDependencies; simpl.
  destruct (run_checks_spec start steps) as (st & -> & HI & Hst & _ & B). simpl.
  intros He.
  assert (Hx : x ∈ black st).
  { destruct (tc_target _ _ _ Hc) as (z & s & _ & _ & Hne).
    assert (∃ sx, build_stepMap steps !! x = Some sx) as (sx & Hsx).
    { inversion Hc as [? ? (s' & ? & _)|? ? ? (s' & ? & _)]; eauto. }
    apply build_stepMap_lookup in Hsx as [Hin <-]. by apply B. }
  destruct HI as [_ HI]. destruct (HI He) as [_ Ha]. by apply (Ha x).
Qed.

Lemma checks_circular start steps :
  circular (check_errors (checkCircularDependencies start steps)).
Proof.
  unfold checkCircularDependencies; simpl.
  by destruct (run_checks_spec start steps) as (st & -> & _ & _ & Hc & _).
Qed.

Lemma find_stepMap_gen steps : ∀ (m : gmap string Step) x s,
  NoDup (map id steps) →
  js_find (fun s => String.eqb (id s) x) steps = Some s →
  fold_left (fun m s => <[id s := s]> m) steps m !! x = Some s.
Proof.
  induction steps as [|s0 steps IH]; intros m x s Hnd Hf; simpl in *; [discriminate|].
  apply NoDup_cons in Hnd as [Hnin Hnd].
  destruct (String.eqb_spec (id s0) x) as [Heq|Hne].
  - inversion Hf; subst s0. clear Hf.
    assert (G : ∀ (steps : list Step) (m : gmap string Step),
               x ∉ map id steps → fold_left (fun m s => <[id s := s]> m) steps m !! x = m !! x).
    { clear. induction steps as [|s1 steps IH]; intros m Hn; simpl; auto.
      rewrite IH; [|intros H; apply Hn; simpl; by apply list_elem_of_further].
      apply lookup_insert_ne. intros Heq. apply Hn. simpl. rewrite Heq. apply list_elem_of_here. }
    rewrite G; [|by rewrite Heq in Hnin]. rewrite <- Heq. apply lookup_insert_eq.
  - by apply IH.
Qed.

Lemma transitions_followed s y : targets (transitions s) y → targets (followed s) y.
Proof.
  unfold targets, transitions, followed. intros [Hin Hne]. split; auto.
  destruct (isS (type s) "condition"); set_solver.
Qed.

Lemma transition_followed steps x y :
  NoDup (map id steps) → transition_edge steps x y → followed_edge (build_stepMap steps) x y.
Proof.
  intros Hnd (s & Hf & Ht). exists s. split; [|by apply transitions_followed].
  by apply find_stepMap_gen.
Qed.

Lemma size_list_to_set_le (l : list string) :
  (size (list_to_set l : gset string) ≤ length l)%nat.
Proof.
  induction l as [|a l IH].
  { change (size (∅ : gset string) ≤ 0)%nat. by rewrite size_empty. }
  change (size ({[a]} ∪ list_to_set l : gset string) ≤ S (length l))%nat.
  rewrite size_union_alt, size_singleton.
  assert (size (list_to_set l ∖ {[a]} : gset string) ≤ size (list_to_set l : gset string))%nat.
  { apply subseteq_size. set_solver. }
  lia.
Qed.

Lemma size_list_to_set_NoDup (l : list string) :
  size (list_to_set l : gset string) = length l → NoDup l.
Proof.
  induction l as [|a l IH]; intros H; [apply NoDup_nil_2|].
  change (size ({[a]} ∪ list_to_set l : gset string) = S (length l)) in H.
  rewrite size_union_alt, size_singleton in H.
  pose proof (size_list_to_set_le l) as Hle.
  assert (Hsub : (size (list_to_set l ∖ {[a]} : gset string) ≤ size (list_to_set l : gset string))%nat).
  { apply subseteq_size. set_solver. }
  apply NoDup_cons. split.
  - intros Hin.
    assert (size (list_to_set l ∖ {[a]} : gset string) < size (list_to_set l : gset string))%nat; [|lia].
    apply subset_size.
    assert (a ∈ (list_to_set l : gset string)) by (by apply elem_of_list_to_set).
    set_solver.
  - apply IH. lia.
Qed.

Lemma has_cycle_AB : has_cycle steps_AB.
Proof.
  exists "A". apply (tc_l _ "A" "B" "A"); [|apply tc_once].
  - exists (script_step "A" "s1" (Some "B") None). split; [reflexivity|].
    split; [cbn; apply list_elem_of_here|discriminate].
  - exists (script_step "B" "s2" (Some "A") None). split; [reflexivity|].
    split; [cbn; apply list_elem_of_here|discriminate].
Qed.

Lemma invalid_of_elem (errs : list string) e :
  e ∈ errs → match errs with [] => true | _ => false end = false.
Proof. destruct errs; [inversion 1|reflexivity]. Qed.

(** C6.  Validation detects every cycle of the transition graph: a workflow
    whose steps form a cycle of transitions is invalid, and when its step
    ids are unique the errors include a circular-dependency error.  The
    workflow [A.onSuccess = B, B.onSuccess = A] fails with
    "Circular dependency detected: A -> B -> A"; the chain
    [A.onSuccess = B, B.onSuccess = C] passes with no error; and a cycle
    [X -> Y -> X] that cannot be reached from [startStep] is reported
    too. *)
Theorem validation_detects_every_cycle (validURL : string → bool) :
  (∀ wf steps, w_steps wf = Some steps → has_cycle steps →
     valid (validateWorkflow validURL wf) = false ∧
     (NoDup (map id steps) →
      ∃ e, e ∈ check_errors (validateWorkflow validURL wf) ∧ is_circular_error e = true)) ∧
  validateWorkflow validURL (mk_workflow steps_AB (Some "A"))
    = {| valid := false;
         check_errors := ["Circular dependency detected: A -> B -> A"] |} ∧
  validateWorkflow validURL (mk_workflow steps_ABC (Some "A"))
    = {| valid := true; check_errors := [] |} ∧
  validateWorkflow validURL (mk_workflow steps_ABC_XY (Some "A"))
    = {| valid := false;
         check_errors := ["Circular dependency detected: X -> Y -> X"] |}.
Proof.
  split; [|split_and!; vm_compute; reflexivity].
  intros wf steps Hsteps [x Hcyc].
  assert (Hcirc : NoDup (map id steps) →
            ∃ e, e ∈ check_errors (checkCircularDependencies (w_startStep wf) steps)
                 ∧ is_circular_error e = true).
  { intros Hnd.
    assert (Hne : check_errors (checkCircularDependencies (w_startStep wf) steps) ≠ []).
    { apply (followed_cycle_reported _ _ x).
      apply (tc_mono (transition_edge steps)); [|exact Hcyc].
      intros a b. by apply transition_followed. }
    pose proof (checks_circular (w_startStep wf) steps) as Hall.
    destruct (check_errors (checkCircularDependencies (w_startStep wf) steps)) as [|e l];
      [done|].
    exists e. split; [apply list_elem_of_here|]. by inversion Hall. }
  unfold validateWorkflow. rewrite Hsteps.
  destruct steps as [|s0 steps'].
  { exfalso. destruct (tc_target _ _ _ Hcyc) as (z & s & Hf & _). discriminate. }
  set (steps := s0 :: steps') in *.
  cbv zeta. cbn [valid check_errors].
  match goal with |- context [negb ?b] => destruct b eqn:Htest end; cbn [negb].
  - assert (Hnd : NoDup (map id steps)).
    { apply size_list_to_set_NoDup. symmetry. by apply Nat.eqb_eq. }
    destruct (Hcirc Hnd) as (e & He & Hce).
    assert (Hin : ∀ pre, e ∈ pre ++ check_errors (checkCircularDependencies (w_startStep wf) steps)).
    { intros pre. apply elem_of_app. by right. }
    split.
    + eapply invalid_of_elem. rewrite !app_assoc. apply Hin.
    + intros _. exists e. split; auto. rewrite !app_assoc. apply Hin.
  - split; [reflexivity|].
    intros Hnd. destruct (Hcirc Hnd) as (e & He & Hce). exists e. split; auto.
    rewrite !app_assoc. apply elem_of_app. by right.
Qed.

Lemma validation_detects_every_cycle_witness :
  has_cycle steps_AB ∧
  valid (validateWorkflow (fun _ => true) (mk_workflow steps_AB (Some "A"))) = false.
Proof.
  split; [exact has_cycle_AB|].
  exact (proj1 (proj1 (validation_detects_every_cycle (fun _ => true))
                  (mk_workflow steps_AB (Some "A")) steps_AB eq_refl has_cycle_AB)).
Defined.

End BuilderProofs.

(** * Properties of the priority weights *)
Section PriorityProofs.
Import Scheduler.

Lemma priorities_lookup (p : string) :
  priorities !! p =
  if decide (p = "critical") then Some 0
  else if decide (p = "high") then Some 1
  else if decide (p = "normal") then Some 2
  else if decide (p = "low") then Some 3
  else None.
Proof.
  unfold priorities.
  repeat (rewrite lookup_insert; case_decide; subst;
          [repeat case_decide; congruence|]).
  rewrite lookup_empty. repeat case_decide; congruence.
Qed.

(** What [priorities[priority] || 2] comes to, key by key. *)
Lemma getPriorityValue_cases (priority : option string) :
  getPriorityValue priority =
  let key := default "undefined" priority in
  if decide (key = "high") then Proto.Number 1
  else if decide (key = "low") then Proto.Number 3
  else if Proto.inherited key then Proto.Member key
  else Proto.Number 2.
Proof.
  unfold getPriorityValue, Proto.get. cbv zeta.
  generalize (default "undefined" priority). intros key.
  rewrite lookup_fmap, priorities_lookup.
  repeat case_decide; subst; try discriminate; try reflexivity.
  cbn [fmap option_fmap option_map].
  destruct (Proto.inherited key); reflexivity.
Qed.

(** A priority that names no inherited property is weighed 1, 2 or 3. *)
Lemma getPriorityValue_number (priority : option string) :
  (∀ p, priority = Some p → Proto.inherited p = false) →
  ∃ n, getPriorityValue priority = Proto.Number n ∧ 1 ≤ n ≤ 3.
Proof.
  intros Hown. rewrite getPriorityValue_cases. cbv zeta.
  assert (Hkey : Proto.inherited (default "undefined" priority) = false).
  { destruct priority as [p|]; [by apply Hown|reflexivity]. }
  rewrite Hkey. repeat case_decide; eexists; (split; [reflexivity|lia]).
Qed.



End PriorityProofs.

(** * Properties of the retry decision and of the retry loop *)
Section RetryProofs.
Import Model Escalation.

Lemma retry_below_ceiling (execution : Execution) (step : Step) :
  shouldRetry (handleStepFailure execution step) = true →
  consumed execution step < attempt_ceiling step.
Proof.
  unfold handleStepFailure.
  destruct (Z.geb_spec (consumed execution step) (attempt_ceiling step)); simpl;
    [discriminate|lia].
Qed.

(** The retries [handleStepFailure] reads off the execution: those of the
    first result recorded for the step, none when there is no such result. *)
Lemma consumed_recorded (execution : Execution) (step : Step) (n : Z) :
  (∀ r, js_find (fun r => String.eqb (sr_stepId r) (id step)) (e_stepResults execution)
        = Some r → orZ (sr_retryCount r) 0 = n) →
  (js_find (fun r => String.eqb (sr_stepId r) (id step)) (e_stepResults execution) = None →
   n = 0) →
  consumed execution step = n.
Proof.
  intros Hsome Hnone. unfold consumed.
  destruct (js_find _ (e_stepResults execution)) as [r|]; [by apply Hsome|].
  symmetry. by apply Hnone.
Qed.

(** C7, counterexample.  Under the default ceiling of 3 attempts and
    exponential backoff from 60 seconds, a step whose recorded retry count is
    3 gets no retry and the delay 0, where the formula gives
    [min (60 * 2^3) 3600 = 480]; and at a count of 10 the delay is 0 again,
    not the cap of 3600. *)
Lemma retry_delay_is_zero_at_the_ceiling :
  handleStepFailure (execution_with [result_with "check" 3])
    (with_policy (script_step "check" "s1" None None)
       {| maxAttempts := None; backoffType := Some "exponential"; delaySeconds := Some 60 |})
  = {| shouldRetry := false; delay := 0 |} ∧
  Z.min (60 * 2 ^ 3) 3600 = 480 ∧
  handleStepFailure (execution_with [result_with "check" 10])
    (with_policy (script_step "check" "s1" None None)
       {| maxAttempts := None; backoffType := Some "exponential"; delaySeconds := Some 60 |})
  = {| shouldRetry := false; delay := 0 |}.
Proof. split_and!; vm_compute; reflexivity. Qed.

(** C7, amended.  For a retry policy with base delay [b] ([delaySeconds], 60
    when unset or 0) and attempt ceiling [m] ([maxAttempts], 3 when unset or
    0), and a recorded retry count [n >= 0] (that of the first result
    recorded for the step, 0 when there is none): while [n < m] a retry is
    decided, with the delay [min (b * 2^n) 3600] for exponential backoff
    (also when no backoff type is given) and [min (b * (n+1)) 3600] for
    linear backoff, so never above 3600; once [n >= m] no retry is decided
    and the delay is 0.  With [delaySeconds = 60], exponential backoff gives
    240 at count 2, and 3600 at count 10 of a policy that allows 20. *)
Theorem retry_delay_formula :
  (∀ (execution : Execution) (step : Step) (policy : RetryPolicy) (n : Z),
     retryPolicy step = Some policy →
     (∀ r, js_find (fun r => String.eqb (sr_stepId r) (id step)) (e_stepResults execution)
           = Some r → orZ (sr_retryCount r) 0 = n) →
     (js_find (fun r => String.eqb (sr_stepId r) (id step)) (e_stepResults execution)
      = None → n = 0) →
     0 ≤ n →
     let b := orZ (delaySeconds policy) 60 in
     let m := orZ (maxAttempts policy) 3 in
     let d := handleStepFailure execution step in
     (n < m →
        shouldRetry d = true ∧ delay d ≤ 3600 ∧
        (backoffType policy = Some "exponential" ∨ truthyS (backoffType policy) = false →
         delay d = Z.min (b * 2 ^ n) 3600) ∧
        (backoffType policy = Some "linear" → delay d = Z.min (b * (n + 1)) 3600)) ∧
     (m ≤ n → d = {| shouldRetry := false; delay := 0 |})) ∧
  handleStepFailure (execution_with [result_with "check" 2])
    (with_policy (script_step "check" "s1" None None)
       {| maxAttempts := None; backoffType := Some "exponential"; delaySeconds := Some 60 |})
  = {| shouldRetry := true; delay := 240 |} ∧
  handleStepFailure (execution_with [result_with "check" 10])
    (with_policy (script_step "check" "s1" None None)
       {| maxAttempts := Some 20; backoffType := Some "exponential"; delaySeconds := Some 60 |})
  = {| shouldRetry := true; delay := 3600 |}.
Proof.
  split_and!; try (vm_compute; reflexivity).
  intros execution step policy n Hp Hsome Hnone Hn b m d.
  pose proof (consumed_recorded execution step n Hsome Hnone) as Hc.
  subst d b m. unfold handleStepFailure, attempt_ceiling, base_delay, backoff.
  rewrite Hc, Hp. cbn [mbind option_bind].
  destruct (Z.geb_spec n (orZ (maxAttempts policy) 3)) as [Hge|Hlt].
  - split; [lia|]. reflexivity.
  - split; [|lia]. intros _. cbn [shouldRetry delay]. split_and!.
    + reflexivity.
    + lia.
    + intros [He|He].
      * rewrite He. reflexivity.
      * unfold orS. rewrite He. reflexivity.
    + intros He. rewrite He. reflexivity.
Qed.

Lemma retry_delay_formula_witness :
  let step := with_policy (script_step "check" "s1" None None)
       {| maxAttempts := None; backoffType := Some "linear"; delaySeconds := Some 45 |} in
  let execution := execution_with [result_with "check" 2] in
  delay (handleStepFailure execution step) = Z.min (45 * (2 + 1)) 3600 ∧
  Z.min (45 * (2 + 1)) 3600 ≠ Z.min (45 * 2 ^ 2) 3600.
Proof.
  intros step execution. split.
  - refine (proj2 (proj2 (proj2 (proj1
             (proj1 retry_delay_formula execution step
                {| maxAttempts := None; backoffType := Some "linear";
                   delaySeconds := Some 45 |} 2 eq_refl _ _ _) _))) eq_refl).
    + intros r [= <-]. reflexivity.
    + discriminate.
    + lia.
    + reflexivity.
  - vm_compute. discriminate.
Defined.

End RetryProofs.

Section RetryLoopProofs.
Import Model Engine.

(** The retry decision reads the execution record, which the loop never
    changes: when it says "retry" once, it says so at every failure. *)
Lemma executeStep_never_returns (work : nat → Attempt) (execution : Execution) (step : Step) :
  Escalation.shouldRetry (Escalation.handleStepFailure execution step) = true →
  (∀ k, ∃ message, attempt_step work k step = Thrown message) →
  ∀ fuel k, executeStep fuel work k execution step = None.
Proof.
  intros Hretry Hfail fuel. induction fuel as [|fuel IH]; intros k; [reflexivity|].
  simpl. destruct (Hfail k) as [message ->].
  unfold handleStepFailure. rewrite Hretry. apply IH.
Qed.

(** C1 (violated by the code).  A script step under the default retry
    policy (3 attempts) whose job times out at every attempt is re-executed
    without end: no amount of fuel lets [executeStep] return.  And when the
    job first succeeds at its eleventh attempt, the engine has retried ten
    times, past the ceiling of 3. *)
Theorem retry_loop_ignores_ceiling :
  Escalation.attempt_ceiling (script_step "check" "s1" None None) = 3 ∧
  (∀ fuel,
     executeStep fuel (always_thrown "Job timed out") 0
       (Escalation.execution_with []) (script_step "check" "s1" None None) = None) ∧
  executeStep 11 (thrown_until 10) 0
    (Escalation.execution_with []) (script_step "check" "s1" None None)
  = Some {| o_status := "success"; o_output := None; o_error := None;
            o_conditionResult := None; o_retryCount := None |} ∧
  executeStep 10 (thrown_until 10) 0
    (Escalation.execution_with []) (script_step "check" "s1" None None) = None.
Proof.
  split_and!; try (vm_compute; reflexivity).
  intros fuel. apply executeStep_never_returns; [reflexivity|].
  intros k. eexists. reflexivity.
Qed.

End RetryLoopProofs.

(** * Properties of the condition evaluator *)
Section ConditionProofs.
Import Js Conditions Examples.

Variable number_to_string : Q → string.
Variable regex_test : string → string → string → option bool.
Variable json_parse : string → option value.

Local Abbreviation evaluate := (Conditions.evaluate number_to_string regex_test json_parse).
Local Abbreviation evaluate_at := (Conditions.evaluate_at number_to_string regex_test json_parse).

(** A condition whose [type] is a string that names none of the five
    evaluators is false at every depth. *)
Lemma unknown_type_false depth (condition jobResult : value) (t : string) :
  get condition "type" = Some (VStr t) →
  t ≠ "exitCode" → t ≠ "outputPattern" → t ≠ "threshold" → t ≠ "jsonPath" →
  t ≠ "composite" →
  evaluate_at depth condition jobResult = false.
Proof.
  intros Ht H1 H2 H3 H4 H5.
  assert (Hne : ∀ lit, t ≠ lit → strict_eq (VStr t) (VStr lit) = false).
  { intros lit H. simpl. by apply String.eqb_neq. }
  destruct depth; simpl; rewrite Ht; simpl;
    destruct (truthy condition); simpl; try reflexivity;
    destruct (String.eqb t ""); simpl; try reflexivity;
    rewrite ?(proj2 (String.eqb_neq _ _) H1), ?(proj2 (String.eqb_neq _ _) H2),
            ?(proj2 (String.eqb_neq _ _) H3), ?(proj2 (String.eqb_neq _ _) H4),
            ?(proj2 (String.eqb_neq _ _) H5); reflexivity.
Qed.

Lemma nesting_item items x :
  x ∈ items → (nesting x < nesting (VArr items))%nat.
Proof.
  intros Hx. simpl. induction Hx as [x l|x y l Hx IH]; simpl; lia.
Qed.

Lemma nesting_field fields k v :
  (k, v) ∈ fields → (nesting v < nesting (VObj fields))%nat.
Proof.
  intros Hx. simpl.
  remember (k, v) as kv eqn:E.
  induction Hx as [x l|x y l Hx IH]; subst; simpl; [lia|].
  specialize (IH eq_refl). lia.
Qed.

Lemma nesting_get v key x :
  get v key = Some x → (nesting x ≤ Nat.pred (nesting v))%nat.
Proof.
  destruct v as [| | | |s|items|fields]; simpl; try discriminate;
    try (intros [= <-]; simpl; lia).
  - destruct (String.eqb key "length"); [intros [= <-]; simpl; lia|].
    destruct (span is_digit key) as [ds rest].
    destruct (_ && _); intros [= <-]; simpl; [|lia].
    destruct (String.get _ s); simpl; lia.
  - destruct (String.eqb key "length"); [intros [= <-]; simpl; lia|].
    destruct (span is_digit key) as [ds rest].
    destruct (_ && _); intros [= <-]; [|simpl; lia].
    destruct (nth_in_or_default (parseInt_digits ds) items VUndefined) as [Hin | -> ];
      [|simpl; lia].
    apply list_elem_of_In, nesting_item in Hin. simpl in *. lia.
  - intros [= <-].
    destruct (js_find (λ kv : string * value, (kv.1 =? key)%string) fields) as [[k v]|] eqn:Hf;
      simpl; [|lia].
    apply js_find_some in Hf as [Hin _]. apply nesting_field in Hin. simpl in *. lia.
Qed.

Lemma forallb_agree {A} (f g : A → bool) l :
  (∀ x, x ∈ l → f x = g x) → forallb f l = forallb g l.
Proof.
  induction l as [|a l IH]; simpl; intros H; [reflexivity|].
  rewrite (H a) by apply list_elem_of_here.
  rewrite IH; [reflexivity|]. intros x Hx. apply H. by apply list_elem_of_further.
Qed.

Lemma existsb_agree {A} (f g : A → bool) l :
  (∀ x, x ∈ l → f x = g x) → existsb f l = existsb g l.
Proof.
  induction l as [|a l IH]; simpl; intros H; [reflexivity|].
  rewrite (H a) by apply list_elem_of_here.
  rewrite IH; [reflexivity|]. intros x Hx. apply H. by apply list_elem_of_further.
Qed.

(** Any two depths above the nesting of the condition give the same
    result: the bound in [evaluate] is never what stops the evaluation. *)
Lemma evaluate_at_depth jobResult : ∀ d1 d2 condition,
  (nesting condition < d1)%nat → (nesting condition < d2)%nat →
  evaluate_at d1 condition jobResult = evaluate_at d2 condition jobResult.
Proof.
  induction d1 as [|d1 IH]; intros d2 condition H1 H2; [lia|].
  destruct d2 as [|d2]; [lia|].
  assert (Hnested : ∀ c, (nesting c < nesting condition)%nat →
            evaluate_at d1 c jobResult = evaluate_at d2 c jobResult).
  { intros c Hc. apply IH; lia. }
  cbn [Conditions.evaluate_at].
  destruct (negb (truthy condition)); [reflexivity|].
  destruct (get condition "type") as [type|] eqn:Htype; [|reflexivity].
  cbn [mbind option_bind].
  repeat (match goal with |- context [if ?b then _ else _] =>
            destruct b; [reflexivity|] end).
  destruct (strict_eq type (VStr "composite")) eqn:Hcomposite; [|reflexivity].
  assert (Hobj : (0 < nesting condition)%nat).
  { destruct condition; try (simpl; lia); vm_compute in Htype;
      first [discriminate Htype | injection Htype as <-; discriminate Hcomposite]. }
  f_equal.
  destruct (get condition "logic") as [logic|]; [|reflexivity]. cbn [mbind option_bind].
  destruct (get condition "conditions") as [cs|] eqn:Hcs; [|reflexivity].
  cbn [mbind option_bind].
  pose proof (nesting_get _ _ _ Hcs) as Hn.
  assert (Hor : (nesting (or_else cs (VArr [])) ≤ Nat.pred (nesting condition))%nat
                ∧ (0 < nesting condition)%nat ∨ or_else cs (VArr []) = VArr []).
  { unfold or_else. destruct (truthy cs) eqn:Ht; [|by right]. left. split; [exact Hn|].
    destruct condition; try (simpl; lia); vm_compute in Hcs;
      first [discriminate Hcs | injection Hcs as <-; discriminate Ht]. }
  destruct (strict_eq (or_else logic (VStr "and")) (VStr "and")).
  { destruct Hor as [[Hor Hpos] | -> ]; [|reflexivity].
    destruct (or_else cs (VArr [])) as [| | | | |items|]; try reflexivity.
    f_equal. apply forallb_agree. intros x Hx. apply Hnested.
    apply nesting_item in Hx. lia. }
  destruct (strict_eq (or_else logic (VStr "and")) (VStr "or")).
  { destruct Hor as [[Hor Hpos] | -> ]; [|reflexivity].
    destruct (or_else cs (VArr [])) as [| | | | |items|]; try reflexivity.
    f_equal. apply existsb_agree. intros x Hx. apply Hnested.
    apply nesting_item in Hx. lia. }
  destruct (strict_eq (or_else logic (VStr "and")) (VStr "not")); [|reflexivity].
  destruct (get (or_else cs (VArr [])) "0") as [first|] eqn:Hfirst; [|reflexivity].
  cbn [mbind option_bind]. do 2 f_equal.
  destruct Hor as [[Hor Hpos]|Hor].
  - apply nesting_get in Hfirst.
    destruct (Nat.eq_dec (nesting first) 0%nat) as [H0|H0].
    + apply IH; lia.
    + apply Hnested. lia.
  - rewrite Hor in Hfirst. simpl in Hfirst. injection Hfirst as <-.
    apply IH; simpl; lia.
Qed.

(** [evaluate] is [evaluate_at] at any depth above the nesting of the
    condition. *)
Lemma evaluate_any_depth depth (condition jobResult : value) :
  (nesting condition < depth)%nat →
  evaluate condition jobResult = evaluate_at depth condition jobResult.
Proof. intros H. unfold Conditions.evaluate. apply evaluate_at_depth; lia. Qed.

(** C8 (violated by the code).  The two examples of the claim hold: the
    threshold [diskUsage > 90] is true against [{diskUsage: 95}] and false
    against [{diskUsage: "not-a-number"}]; so does the unknown type.  But a
    field extraction that fails below the first path segment yields [null],
    which [isNaN] lets through as 0: the threshold [disk.usage < 90] is
    true against [{diskUsage: 95}] and against [{}], where no such field
    exists. *)
Theorem missing_nested_field_passes_threshold :
  evaluate (threshold "diskUsage" "gt" 90) (VObj [("diskUsage", num_of_Z 95)]) = true ∧
  evaluate (threshold "diskUsage" "gt" 90) (VObj [("diskUsage", VStr "not-a-number")]) = false ∧
  evaluate (VObj [("type", VStr "uptime")]) (VObj [("diskUsage", num_of_Z 95)]) = false ∧
  extractField (VObj [("diskUsage", num_of_Z 95)]) (VStr "disk.usage") = Some VNull ∧
  evaluate (threshold "disk.usage" "lt" 90) (VObj [("diskUsage", num_of_Z 95)]) = true ∧
  evaluate (threshold "disk.usage" "lt" 90) (VObj []) = true.
Proof. split_and!; vm_compute; reflexivity. Qed.

End ConditionProofs.

(** * Properties of the admission gates *)
Section GateProofs.
Import Model Store Scheduler MaintenanceWindows Examples.

(** C2, counterexample.  When its lookup raises, [checkDependencies]
    reports the dependencies as not satisfied. *)
Lemma dependency_gate_fails_closed :
  fst (checkDependencies (schedule_with None None (Some [2%nat])) (world_of [] [true]))
  = Ok false.
Proof. reflexivity. Qed.

(** C2, amended.  When the gate's lookup raises, [checkConcurrencyLimits]
    returns true and [canJobRun] returns allowed (they fail open), while
    [checkDependencies] returns false (it fails closed), as the condition
    evaluator does when reading the job result throws. *)
Theorem gates_on_lookup_error :
  (∀ maxConcurrentJobs wsagents schedule nodeId w fs,
     faults w = true :: fs →
     fst (checkConcurrencyLimits maxConcurrentJobs wsagents schedule nodeId w) = Ok true) ∧
  (∀ tz_now cron_previous schedule timestamp w fs,
     faults w = true :: fs →
     ∃ why, fst (canJobRun tz_now cron_previous schedule timestamp w)
            = Ok {| allowed := true; reason := why |}) ∧
  (∀ schedule depId rest w fs,
     s_dependsOn schedule = Some (depId :: rest) →
     faults w = true :: fs →
     fst (checkDependencies schedule w) = Ok false) ∧
  (∀ number_to_string regex_test json_parse condition t,
     Js.get condition "type" = Some (Js.VStr t) →
     t = "exitCode" ∨ t = "outputPattern" ∨ t = "jsonPath" →
     Conditions.evaluate number_to_string regex_test json_parse condition Js.VNull = false).
Proof.
  split_and!.
  - intros maxConcurrentJobs wsagents schedule nodeId w fs Hf.
    unfold checkConcurrencyLimits, try_catch, find, bind, access. rewrite Hf. reflexivity.
  - intros tz_now cron_previous schedule timestamp w fs Hf.
    unfold canJobRun, try_catch.
    destruct (s_maintenanceWindowIds schedule) as [ [ | i ids ] | ]; simpl; eauto.
    unfold bind, getMaintenanceWindows, try_catch, find, bind, access. rewrite Hf.
    simpl. eauto.
  - intros schedule depId rest w fs Hd Hf.
    unfold checkDependencies, try_catch. rewrite Hd. simpl.
    unfold bind, findOne, bind, access. rewrite Hf. reflexivity.
  - intros number_to_string regex_test json_parse condition t Ht Hcase.
    unfold Conditions.evaluate.
    destruct condition; try discriminate; simpl in Ht; injection Ht as Ht;
      destruct Hcase as [ -> | [ -> | -> ] ]; simpl; rewrite Ht; reflexivity.
Qed.

Lemma gates_on_lookup_error_witness :
  fst (checkConcurrencyLimits None ∅ (schedule_with None None None) "node"
         (world_of [] [true])) = Ok true.
Proof.
  exact (proj1 gates_on_lookup_error None ∅ (schedule_with None None None) "node"
           (world_of [] [true]) [] eq_refl).
Defined.

(** C5 (violated by the code).  The window [0 2 * * *] of 7200 seconds in
    UTC contains, as the specification describes it, 02:30 of every day:
    here 02:30 of the second and of the third day of 1970.  The code takes
    the start of the window from the cron library without telling it the
    queried timestamp, so whatever the library answers, it cannot judge both
    timestamps inside: at one of them a schedule of priority 'normal' is
    allowed where the claim has it blocked.  When the library does answer
    the 02:00 before the query, the verdicts are those of the claim. *)
Theorem window_start_ignores_timestamp :
  in_described_window 2 0 7200 half_past_two = true ∧
  in_described_window 2 0 7200 (half_past_two + day_ms) = true ∧
  (∀ tz_now cron_previous,
     isInMaintenanceWindow tz_now cron_previous nightly_window half_past_two
     && isInMaintenanceWindow tz_now cron_previous nightly_window (half_past_two + day_ms)
     = false) ∧
  (∀ tz_now cron_previous,
     let verdict timestamp :=
       fst (canJobRun tz_now cron_previous (schedule_with (Some "normal") (Some [5%nat]) None)
              timestamp (world_of [DWindow nightly_window] [])) in
     verdict half_past_two
       = Ok {| allowed := true; reason := "Not in any maintenance window" |} ∨
     verdict (half_past_two + day_ms)
       = Ok {| allowed := true; reason := "Not in any maintenance window" |}) ∧
  (∀ tz_now,
     let verdict priority :=
       fst (canJobRun tz_now (fun _ _ => Ok (Some (half_past_two - 1800000)))
              (schedule_with (Some priority) (Some [5%nat]) None)
              half_past_two (world_of [DWindow nightly_window] [])) in
     verdict "critical"
       = Ok {| allowed := true;
               reason := "Priority 'critical' is allowed during maintenance window 'nightly'" |} ∧
     verdict "normal"
       = Ok {| allowed := false; reason := "Blocked by maintenance window 'nightly'" |}).
Proof.
  assert (Hboth : ∀ tz_now cron_previous,
     isInMaintenanceWindow tz_now cron_previous nightly_window half_past_two
     && isInMaintenanceWindow tz_now cron_previous nightly_window (half_past_two + day_ms)
     = false).
  { intros tz_now cron_previous. unfold isInMaintenanceWindow. simpl.
    change (orS (Some "UTC") "UTC") with "UTC".
    destruct (cron_previous "0 2 * * *" "UTC") as [ [ p | ] | ]; simpl; try reflexivity.
    match goal with |- ?x && ?y = false => destruct x eqn:E1; destruct y eqn:E2 end;
      try reflexivity.
    exfalso. apply andb_true_iff in E1 as [A1 B1]. apply andb_true_iff in E2 as [A2 B2].
    rewrite Z.geb_leb in A1, A2. apply Z.leb_le in A1, A2, B1, B2.
    unfold half_past_two, day_ms in *. lia. }
  split_and!; try (vm_compute; reflexivity); auto.
  intros tz_now cron_previous verdict. subst verdict. cbv beta.
  specialize (Hboth tz_now cron_previous).
  apply andb_false_iff in Hboth as [H|H]; [left|right];
    unfold canJobRun, try_catch, getMaintenanceWindows, find, bind, access; simpl;
    rewrite H; reflexivity.
Qed.

End GateProofs.

(** * Properties of the engine over the store *)
Section StoreProofs.
Import Model Store.

Lemma access_healthy w : faults w = [] → access w = (Ok tt, w).
Proof. intros H. unfold access. by rewrite H. Qed.

Lemma findOne_healthy q w :
  faults w = [] → findOne q w = (Ok (js_find q (docs w)), w).
Proof. intros H. unfold findOne, bind. by rewrite access_healthy. Qed.

Lemma find_healthy q w :
  faults w = [] → find q w = (Ok (List.filter q (docs w)), w).
Proof. intros H. unfold find, bind. by rewrite access_healthy. Qed.

Lemma updateOne_healthy q f w :
  faults w = [] → updateOne q f w = (Ok tt, set_docs (update_first q f) w).
Proof. intros H. unfold updateOne, bind. by rewrite access_healthy. Qed.

Lemma insertOne_healthy mk w :
  faults w = [] →
  insertOne mk w
  = (Ok (next_id w), set_next_id (S (next_id w)) (set_docs (fun l => l ++ [mk (next_id w)]) w)).
Proof. intros H. unfold insertOne, bind. by rewrite access_healthy. Qed.

(** An access changes nothing but the fault schedule. *)
Lemma access_frame w r w' :
  access w = (r, w') →
  docs w' = docs w ∧ next_id w' = next_id w ∧ clock w' = clock w ∧
  activeExecutions w' = activeExecutions w ∧ quarantinedNodes w' = quarantinedNodes w.
Proof.
  unfold access. destruct (faults w) as [ | [ | ] fs ]; intros [= <- <-]; auto.
Qed.

Lemma findOne_frame q w r w' :
  findOne q w = (r, w') →
  docs w' = docs w ∧ next_id w' = next_id w ∧ clock w' = clock w ∧
  activeExecutions w' = activeExecutions w ∧ quarantinedNodes w' = quarantinedNodes w.
Proof.
  unfold findOne, bind. destruct (access w) as [[[]|e] w1] eqn:Ha;
    intros [= <- <-]; by apply access_frame in Ha.
Qed.

Lemma findOne_result q w r w' :
  findOne q w = (Ok r, w') → r = js_find q (docs w).
Proof.
  unfold findOne, bind. destruct (access w) as [[[]|e] w1] eqn:Ha; [|discriminate].
  intros [= <- <-]. apply access_frame in Ha as [-> _]. reflexivity.
Qed.

Lemma insertOne_raised mk w e w' :
  insertOne mk w = (Raised e, w') →
  docs w' = docs w ∧ next_id w' = next_id w ∧ clock w' = clock w ∧
  activeExecutions w' = activeExecutions w ∧ quarantinedNodes w' = quarantinedNodes w.
Proof.
  unfold insertOne, bind. destruct (access w) as [[[]|e'] w1] eqn:Ha; [discriminate|].
  intros [= <- <-]. by apply access_frame in Ha.
Qed.

End StoreProofs.

Section TriggerProofs.
Import Model Store Engine Examples.

(** C4, counterexample.  An execution of workflow 1 is running on node
    [web-1], and the workflow has been disabled since: a second trigger
    raises instead of returning the running execution. *)
Lemma trigger_of_disabled_workflow_raises :
  fst (triggerWorkflow (fun _ => true) 1%nat "web-1" "admin" None
         (world_of [DWorkflow (patch_workflow false false);
                    DExecution (stored_execution "running" [])] []))
  = Raised "Workflow 1 is disabled".
Proof. vm_compute. reflexivity. Qed.

(** C4, amended.  While the store answers and the workflow exists and is
    enabled: if an execution with status 'running' exists for the
    workflow+node pair, [triggerWorkflow] returns the first such record and
    leaves the store as it is; and after a trigger that created an execution,
    a second trigger for the same pair returns that same record and creates
    nothing.  If the workflow is missing or disabled the call raises instead
    and leaves the store as it is.  And whatever the store does and whatever
    has become of the workflow, while an execution is running for the pair a
    trigger returns that record or raises, and creates nothing. *)
Theorem trigger_is_idempotent_while_running :
  (∀ validURL workflowId nodeId triggeredBy triggerType w workflow existing,
     faults w = [] →
     js_find (is_workflow workflowId) (docs w) = Some (DWorkflow workflow) →
     w_enabled workflow = true →
     js_find (is_running_for workflowId nodeId) (docs w) = Some (DExecution existing) →
     triggerWorkflow validURL workflowId nodeId triggeredBy triggerType w = (Ok existing, w)) ∧
  (∀ validURL workflowId nodeId triggeredBy triggerType w workflow,
     faults w = [] →
     js_find (is_workflow workflowId) (docs w) = Some (DWorkflow workflow) →
     w_enabled workflow = true →
     Builder.valid (Builder.validateWorkflow validURL workflow) = true →
     js_find (is_running_for workflowId nodeId) (docs w) = None →
     ∃ created w1,
       triggerWorkflow validURL workflowId nodeId triggeredBy triggerType w
         = (Ok created, w1) ∧
       docs w1 = docs w ++ [DExecution created] ∧
       e_status created = "running" ∧
       ∀ triggeredBy' triggerType',
         triggerWorkflow validURL workflowId nodeId triggeredBy' triggerType' w1
           = (Ok created, w1)) ∧
  (∀ validURL workflowId nodeId triggeredBy triggerType w,
     faults w = [] →
     js_find (is_workflow workflowId) (docs w) = None ∨
     (∃ workflow, js_find (is_workflow workflowId) (docs w) = Some (DWorkflow workflow) ∧
                  w_enabled workflow = false) →
     ∃ message,
       triggerWorkflow validURL workflowId nodeId triggeredBy triggerType w
       = (Raised message, w)) ∧
  (∀ validURL workflowId nodeId triggeredBy triggerType w existing,
     js_find (is_running_for workflowId nodeId) (docs w) = Some (DExecution existing) →
     let run := triggerWorkflow validURL workflowId nodeId triggeredBy triggerType w in
     docs (snd run) = docs w ∧ next_id (snd run) = next_id w ∧
     activeExecutions (snd run) = activeExecutions w ∧
     (fst run = Ok existing ∨ ∃ message, fst run = Raised message)).
Proof.
  assert (Hfirst : ∀ validURL workflowId nodeId triggeredBy triggerType w workflow existing,
     faults w = [] →
     js_find (is_workflow workflowId) (docs w) = Some (DWorkflow workflow) →
     w_enabled workflow = true →
     js_find (is_running_for workflowId nodeId) (docs w) = Some (DExecution existing) →
     triggerWorkflow validURL workflowId nodeId triggeredBy triggerType w = (Ok existing, w)).
  { intros validURL workflowId nodeId triggeredBy triggerType w workflow existing
      Hf Hw Hen Hex.
    unfold triggerWorkflow, bind. rewrite (findOne_healthy _ _ Hf), Hw, Hen. simpl.
    rewrite (findOne_healthy _ _ Hf), Hex. reflexivity. }
  split; [exact Hfirst|]. split; [|split].
  - intros validURL workflowId nodeId triggeredBy triggerType w workflow Hf Hw Hen Hval Hnone.
    set (created := new_execution workflowId workflow nodeId triggeredBy triggerType
                      (clock w) (next_id w)).
    set (w1 := set_active (fun a => {[next_id w]} ∪ a)
                 (set_next_id (S (next_id w))
                    (set_docs (fun l => l ++ [DExecution created]) w))).
    exists created, w1.
    assert (Hrun : triggerWorkflow validURL workflowId nodeId triggeredBy triggerType w
                   = (Ok created, w1)).
    { unfold triggerWorkflow, bind. rewrite (findOne_healthy _ _ Hf), Hw, Hen. simpl.
      rewrite (findOne_healthy _ _ Hf), Hnone, Hval. simpl.
      unfold now. rewrite (insertOne_healthy _ _ Hf). reflexivity. }
    split_and!; [exact Hrun|reflexivity|reflexivity|].
    intros triggeredBy' triggerType'.
    apply (Hfirst _ _ _ _ _ w1 workflow created); auto.
    + simpl. by apply js_find_app.
    + simpl. rewrite (js_find_app_none _ _ _ Hnone). simpl.
      rewrite Nat.eqb_refl, String.eqb_refl. reflexivity.
  - intros validURL workflowId nodeId triggeredBy triggerType w Hf Hcase.
    unfold triggerWorkflow, bind. rewrite (findOne_healthy _ _ Hf).
    destruct Hcase as [-> | (workflow & -> & Hen)].
    + unfold throw. eauto.
    + rewrite Hen. unfold throw. simpl. eauto.
  - intros validURL workflowId nodeId triggeredBy triggerType w existing Hex run.
    subst run.
    destruct (triggerWorkflow validURL workflowId nodeId triggeredBy triggerType w)
      as [r w'] eqn:Hrun.
    cbn [fst snd]. revert Hrun. unfold triggerWorkflow. unfold bind at 1.
    destruct (findOne (is_workflow workflowId) w) as [[wf|e] w1] eqn:H1.
    2:{ apply findOne_frame in H1 as (D1 & N1 & C1 & A1 & _). intros [= <- <-].
        split_and!; auto. right. eauto. }
    apply findOne_frame in H1 as (D1 & N1 & C1 & A1 & _).
    destruct wf as [[workflow|x|x|x y z|x|x]|]; unfold throw;
      try (intros [= <- <-]; split_and!; auto; right; eauto; fail).
    destruct (w_enabled workflow); cbn [negb];
      [|intros [= <- <-]; split_and!; auto; right; eauto].
    unfold bind at 1.
    destruct (findOne (is_running_for workflowId nodeId) w1) as [[found|e] w2] eqn:H2.
    2:{ apply findOne_frame in H2 as (D2 & N2 & C2 & A2 & _). intros [= <- <-].
        split_and!; [congruence|congruence|congruence|right; eauto]. }
    pose proof (findOne_result _ _ _ _ H2) as Hfound.
    rewrite D1, Hex in Hfound. subst found.
    apply findOne_frame in H2 as (D2 & N2 & C2 & A2 & _).
    unfold ret. intros [= <- <-]. split_and!; [congruence|congruence|congruence|by left].
Qed.

Lemma trigger_is_idempotent_while_running_witness :
  let w := world_of [DWorkflow (patch_workflow true false);
                     DExecution (stored_execution "running" [])] [] in
  triggerWorkflow (fun _ => true) 1%nat "web-1" "operator" None w
  = (Ok (stored_execution "running" []), w).
Proof.
  intros w.
  exact (proj1 trigger_is_idempotent_while_running (fun _ => true) 1%nat "web-1" "operator"
           None w (patch_workflow true false) (stored_execution "running" [])
           eq_refl eq_refl eq_refl eq_refl).
Defined.

End TriggerProofs.

Section CompletionProofs.
Import Model Store Actions Engine.

Lemma bind_ok {A B} (m : M A) (k : A → M B) w a w' :
  m w = (Ok a, w') → bind m k w = k a w'.
Proof. intros H. unfold bind. by rewrite H. Qed.

Lemma collect_plan steps l :
  collect (Some steps) l = Ok (omap (rollback_entry steps) l).
Proof.
  induction l as [|r l IH]; simpl; [reflexivity|].
  unfold rollback_entry at 1.
  destruct (String.eqb (sr_status r) "success"); [|exact IH].
  rewrite IH. simpl.
  destruct (js_find (λ s : Step, (id s =? sr_stepId r)%string) steps) as [s|]; simpl;
    [|reflexivity].
  destruct (truthyS (rollbackScriptId s)); reflexivity.
Qed.

Lemma queue_rollback_jobs execution plan : ∀ w,
  faults w = [] →
  ∃ w', for_each plan (fun rb =>
            t <~ now ;; _ <~ insertOne (rollback_job execution (t / 1000) rb) ;; ret tt) w
        = (Ok tt, w') ∧
        docs w' = docs w ++ rollback_jobs execution (clock w / 1000) (next_id w) plan ∧
        next_id w' = (next_id w + length plan)%nat ∧
        faults w' = [] ∧ clock w' = clock w ∧
        activeExecutions w' = activeExecutions w.
Proof.
  induction plan as [|rb plan IH]; intros w Hf.
  - exists w. simpl. unfold ret, rollback_jobs. simpl.
    rewrite app_nil_r, Nat.add_0_r. done.
  - simpl. unfold bind at 1. unfold bind at 1. unfold now at 1.
    unfold bind at 1. rewrite (insertOne_healthy _ _ Hf). unfold ret at 1.
    set (w1 := set_next_id _ _).
    destruct (IH w1 Hf) as (w' & -> & Hd & Hn & Hf' & Hc & Ha).
    exists w'. split_and!; auto.
    + rewrite Hd. unfold w1; simpl. unfold rollback_jobs. rewrite <- app_assoc. simpl.
      do 2 f_equal; [f_equal; lia|].
      apply imap_ext. intros k x _. simpl. f_equal. lia.
    + rewrite Hn. unfold w1; simpl. lia.
Qed.

Lemma update_first_app q f l l' x :
  js_find q l = Some x → update_first q f (l ++ l') = update_first q f l ++ l'.
Proof.
  induction l as [|d l IH]; simpl; [discriminate|].
  destruct (q d); [reflexivity|]. intros H. by rewrite IH.
Qed.

Lemma update_first_twice q f g l :
  (∀ d, q d = true → q (f d) = true) →
  update_first q g (update_first q f l) = update_first q (g ∘ f) l.
Proof.
  intros Hq. induction l as [|d l IH]; simpl; [reflexivity|].
  destruct (q d) eqn:Hd; simpl.
  - by rewrite (Hq d Hd).
  - by rewrite Hd, IH.
Qed.

Lemma update_first_ext q f g l :
  (∀ d, f d = g d) → update_first q f l = update_first q g l.
Proof.
  intros H. induction l as [|d l IH]; simpl; [reflexivity|].
  destruct (q d); by rewrite ?H, ?IH.
Qed.

Lemma has_id_on_execution i g d :
  (∀ x, e_id (g x) = e_id x) → has_id i (on_execution g d) = has_id i d.
Proof. intros Hg. destruct d; simpl; try reflexivity. unfold has_id; simpl. by rewrite Hg. Qed.

Lemma is_execution_has_id i d : is_execution i d = true → has_id i d = true.
Proof. destruct d; simpl; try discriminate. done. Qed.

Lemma find_execution_of_id i l s :
  js_find (has_id i) l = Some (DExecution s) →
  js_find (is_execution i) l = Some (DExecution s).
Proof.
  induction l as [|d l IH]; simpl; [discriminate|].
  destruct (has_id i d) eqn:Hd.
  - intros [= ->]. simpl. unfold has_id in Hd. simpl in Hd. by rewrite Hd.
  - intros H. destruct (is_execution i d) eqn:He; [|auto].
    apply is_execution_has_id in He. congruence.
Qed.

Lemma find_id_after_update i g l s :
  (∀ x, e_id (g x) = e_id x) →
  js_find (has_id i) l = Some (DExecution s) →
  js_find (has_id i) (update_first (has_id i) (on_execution g) l) = Some (DExecution (g s)).
Proof.
  intros Hg. induction l as [|d l IH]; simpl; [discriminate|].
  destruct (has_id i d) eqn:Hd.
  - intros [= ->]. simpl. unfold has_id in *. simpl in *. by rewrite Hg, Hd.
  - intros H. simpl. rewrite Hd. auto.
Qed.

Lemma find_workflow_after_update i j g l :
  js_find (is_workflow j) (update_first (has_id i) (on_execution g) l)
  = js_find (is_workflow j) l.
Proof.
  induction l as [|d l IH]; simpl; [reflexivity|].
  destruct (has_id i d); simpl.
  - destruct d; simpl; reflexivity.
  - by rewrite IH.
Qed.

Lemma performRollback_healthy eid w s workflow plan :
  faults w = [] →
  js_find (has_id eid) (docs w) = Some (DExecution s) →
  e_id s = eid →
  js_find (is_workflow (e_workflowId s)) (docs w) = Some (DWorkflow workflow) →
  w_rollbackEnabled workflow = true →
  collect (w_steps workflow) (rev (e_stepResults s)) = Ok plan →
  ∃ report w', performRollback eid w = (Ok report, w') ∧
    docs w' = update_first (has_id eid) (on_execution (set_rolled_back (clock w))) (docs w)
              ++ rollback_jobs s (clock w / 1000) (next_id w) plan ∧
    next_id w' = (next_id w + length plan)%nat ∧
    faults w' = [] ∧ clock w' = clock w ∧ activeExecutions w' = activeExecutions w.
Proof.
  intros Hf Hs Hid Hw Hr Hc.
  unfold performRollback, try_catch.
  rewrite (bind_ok _ _ _ _ _ (findOne_healthy _ _ Hf)), (find_execution_of_id _ _ _ Hs).
  rewrite (bind_ok _ _ _ _ _ (findOne_healthy _ _ Hf)), Hw, Hr. cbn [negb]. rewrite Hc.
  destruct (queue_rollback_jobs s plan w Hf) as (w1 & Hq & Hd & Hn & Hf1 & Hc1 & Ha1).
  rewrite (bind_ok _ _ _ _ _ Hq).
  unfold bind, now. rewrite (updateOne_healthy _ _ _ Hf1). unfold ret.
  eexists _, _. split; [reflexivity|]. simpl.
  rewrite Hd, Hn, Hc1, Hid. split_and!; auto.
  by rewrite (update_first_app _ _ _ _ _ Hs).
Qed.

Lemma performRollback_thrown eid w s workflow message :
  faults w = [] →
  js_find (has_id eid) (docs w) = Some (DExecution s) →
  js_find (is_workflow (e_workflowId s)) (docs w) = Some (DWorkflow workflow) →
  w_rollbackEnabled workflow = true →
  collect (w_steps workflow) (rev (e_stepResults s)) = Raised message →
  ∃ report, performRollback eid w = (Ok report, w).
Proof.
  intros Hf Hs Hw Hr Hc.
  unfold performRollback, try_catch.
  rewrite (bind_ok _ _ _ _ _ (findOne_healthy _ _ Hf)), (find_execution_of_id _ _ _ Hs).
  rewrite (bind_ok _ _ _ _ _ (findOne_healthy _ _ Hf)), Hw, Hr. cbn [negb]. rewrite Hc.
  unfold throw, ret. eauto.
Qed.

(** What [completeExecution] leaves in a store that answers. *)
Lemma completeExecution_healthy execution status reason w s :
  faults w = [] →
  js_find (has_id (e_id execution)) (docs w) = Some (DExecution s) →
  e_id s = e_id execution →
  e_workflowId s = e_workflowId execution →
  let gc := set_completed status (clock w) (e_startTime execution) reason in
  ∃ w', completeExecution execution status reason w = (Ok tt, w') ∧
    faults w' = [] ∧ clock w' = clock w ∧
    activeExecutions w' = activeExecutions w ∖ {[e_id execution]} ∧
    if String.eqb status "failed" && rolls_back w s then
      ∃ workflow plan,
        js_find (is_workflow (e_workflowId s)) (docs w) = Some (DWorkflow workflow) ∧
        w_rollbackEnabled workflow = true ∧
        collect (w_steps workflow) (rev (e_stepResults s)) = Ok plan ∧
        docs w' = update_first (has_id (e_id execution))
                    (on_execution (set_rolled_back (clock w) ∘ gc)) (docs w)
                  ++ rollback_jobs (gc s) (clock w / 1000) (next_id w) plan ∧
        next_id w' = (next_id w + length plan)%nat
    else
      docs w' = update_first (has_id (e_id execution)) (on_execution gc) (docs w) ∧
      next_id w' = next_id w.
Proof.
  intros Hf Hs Hid Hwid gc.
  unfold completeExecution, try_catch.
  unfold bind at 1. unfold now at 1.
  unfold bind at 1. rewrite (updateOne_healthy _ _ _ Hf). fold gc.
  unfold bind at 1.
  set (w1 := set_active _ (set_docs _ w)).
  assert (Hf1 : faults w1 = []) by exact Hf.
  assert (Hs1 : js_find (has_id (e_id execution)) (docs w1) = Some (DExecution (gc s))).
  { unfold w1; simpl. apply find_id_after_update; auto. }
  assert (Hw1 : ∀ j, js_find (is_workflow j) (docs w1) = js_find (is_workflow j) (docs w)).
  { intros j. unfold w1; simpl. apply find_workflow_after_update. }
  destruct (String.eqb status "failed") eqn:Hst; simpl.
  2:{ exists w1. unfold ret. split_and!; auto. }
  unfold bind at 1. rewrite (findOne_healthy _ _ Hf1), Hw1.
  unfold rolls_back. rewrite Hwid.
  destruct (js_find (is_workflow (e_workflowId execution)) (docs w)) as [d|] eqn:Hw;
    [|exists w1; unfold ret; split_and!; auto].
  destruct d as [workflow| | | | |]; try (exists w1; unfold ret; split_and!; auto; fail).
  destruct (w_rollbackEnabled workflow) eqn:Hr; simpl;
    [|exists w1; unfold ret; split_and!; auto].
  destruct (collect (w_steps workflow) (rev (e_stepResults s))) as [plan|message] eqn:Hc.
  - destruct (performRollback_healthy (e_id execution) w1 (gc s) workflow plan)
      as (report & w' & Hp & Hd & Hn & Hf' & Hc' & Ha'); auto.
    { simpl. by rewrite Hwid, Hw1. }
    unfold bind. rewrite Hp. unfold ret. exists w'.
    split; [reflexivity|]. split; [exact Hf'|]. split; [exact Hc'|].
    split; [by rewrite Ha'|].
    exists workflow, plan. split_and!; auto.
    rewrite Hd. unfold w1; simpl. f_equal.
    rewrite update_first_twice by (intros d Hd'; by rewrite has_id_on_execution).
    apply update_first_ext. by intros [].
  - destruct (performRollback_thrown (e_id execution) w1 (gc s) workflow message)
      as (report & Hp); auto.
    { simpl. by rewrite Hwid, Hw1. }
    unfold bind. rewrite Hp. unfold ret. exists w1. split_and!; auto.
Qed.

Lemma lookup_after_completion i g l extra s :
  (∀ x, e_id (g x) = e_id x) →
  js_find (has_id i) l = Some (DExecution s) →
  js_find (has_id i) (update_first (has_id i) (on_execution g) l ++ extra)
  = Some (DExecution (g s)).
Proof. intros Hg Hs. apply js_find_app. by apply find_id_after_update. Qed.

(** C9.  [completeExecution], on an execution the store holds and while the
    store answers, rolls back exactly when the terminal status is 'failed'
    and the stored workflow has [rollbackEnabled].  The rollback appends to
    the collection one job per successful step result whose step declares a
    [rollbackScriptId], in reverse order of completion: a pending job of
    priority 'high' that runs the step's rollback script on the execution's
    node, tagged 'rollback' and naming the execution and the step it undoes;
    and it leaves the execution with status 'rolled_back'.  Otherwise the
    execution is left with the given status and no job is added. *)
Theorem rollback_exactly_on_failure_with_rollback_enabled
    (execution stored : Execution) (status : string) (reason : option string) (w : World) :
  faults w = [] →
  js_find (has_id (e_id execution)) (docs w) = Some (DExecution stored) →
  e_id stored = e_id execution →
  e_workflowId stored = e_workflowId execution →
  let w' := snd (completeExecution execution status reason w) in
  let completed := set_completed status (clock w) (e_startTime execution) reason in
  (∀ workflow steps,
     status = "failed" →
     js_find (is_workflow (e_workflowId execution)) (docs w) = Some (DWorkflow workflow) →
     w_rollbackEnabled workflow = true →
     w_steps workflow = Some steps →
     docs w' = update_first (has_id (e_id execution))
                 (on_execution (set_rolled_back (clock w) ∘ completed)) (docs w)
               ++ imap (fun k rb =>
                          DJob {| j_id := (next_id w + k)%nat;
                                  j_scriptId := Some (rb_scriptId rb);
                                  j_node := e_nodeId stored;
                                  j_state := "pending";
                                  j_queueTime := clock w / 1000;
                                  j_priority := "high";
                                  j_scheduleId := None;
                                  j_remediationExecutionId := Some (e_id execution);
                                  j_remediationStepId := None;
                                  j_tags := ["rollback"; "remediation"];
                                  j_reason := Some "Rollback from failed remediation";
                                  j_originalStepId := Some (rb_stepId rb) |})
                       (rollback_plan steps (e_stepResults stored)) ∧
     ∃ final, lookup w' (e_id execution) = Some (DExecution final) ∧
              e_status final = "rolled_back") ∧
  (String.eqb status "failed" && rollback_enabled_for w execution = false →
     docs w' = update_first (has_id (e_id execution)) (on_execution completed) (docs w) ∧
     ∃ final, lookup w' (e_id execution) = Some (DExecution final) ∧
              e_status final = status).
Proof.
  intros Hf Hs Hid Hwid w' completed.
  destruct (completeExecution_healthy execution status reason w stored Hf Hs Hid Hwid)
    as (w1 & Hrun & Hf1 & Hc1 & Ha1 & Hcase).
  subst w'. rewrite Hrun. simpl. fold completed in Hcase.
  assert (Hg : ∀ x, e_id (completed x) = e_id x) by reflexivity.
  assert (Hg' : ∀ x, e_id ((set_rolled_back (clock w) ∘ completed) x) = e_id x)
    by reflexivity.
  split.
  - intros workflow steps -> Hw Hr Hsteps.
    assert (Hrb : rolls_back w stored = true).
    { unfold rolls_back. rewrite Hwid, Hw, Hr, Hsteps, collect_plan. reflexivity. }
    rewrite Hrb in Hcase. simpl in Hcase.
    destruct Hcase as (workflow' & plan & Hw' & _ & Hplan & Hdocs & _).
    rewrite Hwid, Hw in Hw'. injection Hw' as <-.
    rewrite Hsteps, collect_plan in Hplan. injection Hplan as <-.
    split.
    + rewrite Hdocs. f_equal. unfold rollback_jobs. apply imap_ext.
      intros k rb _. unfold rollback_job. cbn. by rewrite Hid.
    + exists (set_rolled_back (clock w) (completed stored)). split; [|reflexivity].
      unfold lookup. rewrite Hdocs. by apply (lookup_after_completion _ _ _ _ _ Hg').
  - intros Hno.
    assert (Hcond : String.eqb status "failed" && rolls_back w stored = false).
    { apply andb_false_iff in Hno as [Hno|Hno]; apply andb_false_iff; [by left|right].
      unfold rollback_enabled_for in Hno. unfold rolls_back. rewrite Hwid.
      destruct (js_find (is_workflow (e_workflowId execution)) (docs w)) as [ [ | | | | | ] | ];
        try reflexivity. by rewrite Hno. }
    rewrite Hcond in Hcase. destruct Hcase as [Hdocs _].
    split; [exact Hdocs|].
    exists (completed stored). split; [|reflexivity].
    unfold lookup. rewrite Hdocs. rewrite <- (app_nil_r (update_first _ _ _)).
    by apply (lookup_after_completion _ _ _ _ _ Hg).
Qed.

End CompletionProofs.

Section RecoveryProofs.
Import Model Store Actions Engine.

Lemma ids_after_update i g l :
  (∀ x, e_id (g x) = e_id x) →
  map doc_id (update_first (has_id i) (on_execution g) l) = map doc_id l.
Proof.
  intros Hg. induction l as [|d l IH]; simpl; [reflexivity|].
  destruct (has_id i d); simpl; [|by rewrite IH].
  f_equal. destruct d; simpl; auto.
Qed.

Lemma ids_of_rollback_jobs s t first plan :
  map doc_id (rollback_jobs s t first plan) = seq first (length plan).
Proof.
  unfold rollback_jobs. revert first.
  induction plan as [|rb plan IH]; intros first; simpl; [reflexivity|].
  f_equal; [lia|].
  rewrite <- (IH (S first)). f_equal. apply imap_ext. intros k x _. simpl. f_equal. lia.
Qed.

Lemma frame_update i j g l :
  (∀ x, e_id (g x) = e_id x) → i ≠ j →
  js_find (has_id j) (update_first (has_id i) (on_execution g) l) = js_find (has_id j) l.
Proof.
  intros Hg Hne. induction l as [|d l IH]; simpl; [reflexivity|].
  destruct (has_id i d) eqn:Hd; simpl.
  - rewrite (has_id_on_execution j g d Hg).
    assert (has_id j d = false) as ->; [|reflexivity].
    unfold has_id in *. apply Nat.eqb_eq in Hd. apply Nat.eqb_neq. lia.
  - by rewrite IH.
Qed.

Lemma rollback_jobs_fresh s t first plan d :
  d ∈ rollback_jobs s t first plan → (first ≤ doc_id d)%nat ∧ ∃ j, d = DJob j.
Proof.
  intros Hd. split.
  - assert (doc_id d ∈ map doc_id (rollback_jobs s t first plan)).
    { apply list_elem_of_In, in_map, list_elem_of_In, Hd. }
    rewrite ids_of_rollback_jobs in H. apply list_elem_of_In, in_seq in H. lia.
  - unfold rollback_jobs in Hd. apply list_elem_of_lookup in Hd as [k Hk].
    rewrite list_lookup_imap in Hk. destruct (plan !! k); simpl in Hk; [|discriminate].
    injection Hk as <-. unfold rollback_job. eauto.
Qed.

Lemma find_of_member l d :
  NoDup (map doc_id l) → d ∈ l → js_find (has_id (doc_id d)) l = Some d.
Proof.
  induction l as [|x l IH]; simpl; intros Hnd Hd; [inversion Hd|].
  apply NoDup_cons in Hnd as [Hx Hnd].
  apply elem_of_cons in Hd as [->|Hd].
  - unfold has_id. by rewrite Nat.eqb_refl.
  - unfold has_id at 1. destruct (Nat.eqb_spec (doc_id x) (doc_id d)) as [Heq|Hne]; [|auto].
    exfalso. apply Hx. rewrite Heq. apply list_elem_of_In, in_map, list_elem_of_In, Hd.
Qed.

Lemma job_after_update i g l j :
  DJob j ∈ update_first (has_id i) (on_execution g) l → DJob j ∈ l.
Proof.
  induction l as [|d l IH]; simpl; [done|].
  destruct (has_id i d).
  - intros [Hd|Hd]%elem_of_cons; [|by apply list_elem_of_further].
    destruct d; simpl in Hd; try discriminate. rewrite Hd. apply list_elem_of_here.
  - intros [Hd|Hd]%elem_of_cons; [rewrite Hd; apply list_elem_of_here|].
    apply list_elem_of_further. by apply IH.
Qed.

(** A rollback job is no step of the workflow. *)
Lemma rollback_jobs_shape s t first plan j :
  DJob j ∈ rollback_jobs s t first plan →
  j_remediationStepId j = None ∧ j_tags j = ["rollback"; "remediation"] ∧
  j_state j = "pending".
Proof.
  unfold rollback_jobs. intros Hd. apply list_elem_of_lookup in Hd as [k Hk].
  rewrite list_lookup_imap in Hk. destruct (plan !! k); simpl in Hk; [|discriminate].
  injection Hk as <-. done.
Qed.

(** The effect of completing one interrupted execution. *)
Lemma complete_interrupted e reason w :
  faults w = [] → well_formed w →
  lookup w (e_id e) = Some (DExecution e) →
  ∃ w', completeExecution e "failed" reason w = (Ok tt, w') ∧
    faults w' = [] ∧ well_formed w' ∧ (next_id w ≤ next_id w')%nat ∧
    (∀ j, j ≠ e_id e → (j < next_id w)%nat → lookup w' j = lookup w j) ∧
    (∀ j, js_find (is_workflow j) (docs w') = js_find (is_workflow j) (docs w)) ∧
    activeExecutions w' = activeExecutions w ∖ {[e_id e]} ∧
    (∀ j, DJob j ∈ docs w' →
       DJob j ∈ docs w ∨
       (j_remediationStepId j = None ∧ j_tags j = ["rollback"; "remediation"] ∧
        j_state j = "pending")) ∧
    ∃ e', lookup w' (e_id e) = Some (DExecution e') ∧
          e_completionReason e' = reason ∧
          e_status e' = (if rolls_back w e then "rolled_back" else "failed") ∧
          e_stepResults e' = e_stepResults e ∧
          e_currentStep e' = e_currentStep e.
Proof.
  intros Hf [Hnd Hlt] Hs.
  destruct (completeExecution_healthy e "failed" reason w e Hf Hs eq_refl eq_refl)
    as (w' & Hrun & Hf' & Hc' & Ha' & Hcase).
  set (gc := set_completed "failed" (clock w) (e_startTime e) reason) in *.
  assert (Hg : ∀ x, e_id (gc x) = e_id x) by reflexivity.
  assert (Hg' : ∀ x, e_id ((set_rolled_back (clock w) ∘ gc) x) = e_id x) by reflexivity.
  exists w'. split; [exact Hrun|]. split; [exact Hf'|].
  simpl in Hcase. destruct (rolls_back w e) eqn:Hrb.
  - destruct Hcase as (workflow & plan & Hw & Hr & Hplan & Hdocs & Hn).
    assert (Hfresh : ∀ d, d ∈ rollback_jobs (gc e) (clock w `div` 1000) (next_id w) plan →
                          (next_id w ≤ doc_id d)%nat ∧ ∃ j, d = DJob j).
    { intros d. apply rollback_jobs_fresh. }
    split_and!.
    + split.
      * rewrite Hdocs, map_app, ids_after_update, ids_of_rollback_jobs by exact Hg'.
        apply NoDup_app. split_and!; [exact Hnd| |apply NoDup_seq].
        intros i Hi Hi'. apply list_elem_of_In, in_seq in Hi'.
        apply list_elem_of_In, in_map_iff in Hi as (d & <- & Hd).
        apply list_elem_of_In, Hlt in Hd. lia.
      * intros d. rewrite Hdocs, Hn. intros [Hd|Hd]%elem_of_app.
        -- assert (doc_id d ∈ map doc_id (docs w)).
           { rewrite <- (ids_after_update (e_id e) (set_rolled_back (clock w) ∘ gc)) by exact Hg'.
             apply list_elem_of_In, in_map, list_elem_of_In, Hd. }
           apply list_elem_of_In, in_map_iff in H as (d0 & <- & Hd0).
           apply list_elem_of_In, Hlt in Hd0. lia.
        -- assert (doc_id d ∈ map doc_id (rollback_jobs (gc e) (clock w `div` 1000) (next_id w) plan)).
           { apply list_elem_of_In, in_map, list_elem_of_In, Hd. }
           rewrite ids_of_rollback_jobs in H. apply list_elem_of_In, in_seq in H. lia.
    + lia.
    + intros j Hj Hjlt. unfold lookup. rewrite Hdocs.
      rewrite js_find_app_false.
      * by apply frame_update.
      * intros d Hd. destruct (Hfresh d Hd) as [Hge _]. unfold has_id.
        apply Nat.eqb_neq. lia.
    + intros j. rewrite Hdocs. rewrite js_find_app_false.
      * apply find_workflow_after_update.
      * intros d Hd. destruct (Hfresh d Hd) as [_ [jb ->]]. reflexivity.
    + exact Ha'.
    + intros j. rewrite Hdocs. intros [Hd|Hd]%elem_of_app.
      * left. by apply job_after_update in Hd.
      * right. by apply rollback_jobs_shape in Hd.
    + exists (set_rolled_back (clock w) (gc e)). split_and!; try reflexivity.
      unfold lookup. rewrite Hdocs. by apply (lookup_after_completion _ _ _ _ _ Hg').
  - destruct Hcase as [Hdocs Hn]. split_and!.
    + split.
      * by rewrite Hdocs, ids_after_update.
      * intros d. rewrite Hdocs, Hn. intros Hd.
        assert (doc_id d ∈ map doc_id (docs w)).
        { rewrite <- (ids_after_update (e_id e) gc) by exact Hg.
          apply list_elem_of_In, in_map, list_elem_of_In, Hd. }
        apply list_elem_of_In, in_map_iff in H as (d0 & <- & Hd0).
        by apply list_elem_of_In, Hlt in Hd0.
    + lia.
    + intros j Hj _. unfold lookup. rewrite Hdocs. by apply frame_update.
    + intros j. rewrite Hdocs. apply find_workflow_after_update.
    + exact Ha'.
    + intros j. rewrite Hdocs. intros Hd. left. by apply job_after_update in Hd.
    + exists (gc e). split_and!; try reflexivity.
      unfold lookup. rewrite Hdocs. by apply find_id_after_update.
Qed.

Lemma rolls_back_same w w' e :
  (∀ j, js_find (is_workflow j) (docs w') = js_find (is_workflow j) (docs w)) →
  rolls_back w' e = rolls_back w e.
Proof. intros H. unfold rolls_back. by rewrite H. Qed.

Lemma recover_all todo : ∀ w,
  faults w = [] → well_formed w →
  NoDup (map doc_id todo) →
  (∀ d, d ∈ todo → lookup w (doc_id d) = Some d) →
  ∃ w', for_each todo recover w = (Ok tt, w') ∧
    faults w' = [] ∧ well_formed w' ∧ (next_id w ≤ next_id w')%nat ∧
    (∀ j, j ∉ map doc_id todo → (j < next_id w)%nat → lookup w' j = lookup w j) ∧
    (∀ j, js_find (is_workflow j) (docs w') = js_find (is_workflow j) (docs w)) ∧
    (∀ i, i ∈ activeExecutions w' → i ∈ activeExecutions w) ∧
    (∀ j, DJob j ∈ docs w' →
       DJob j ∈ docs w ∨
       (j_remediationStepId j = None ∧ j_tags j = ["rollback"; "remediation"] ∧
        j_state j = "pending")) ∧
    (∀ e, DExecution e ∈ todo →
       (e_id e ∉ activeExecutions w') ∧
       ∃ e', lookup w' (e_id e) = Some (DExecution e') ∧
             e_completionReason e' = Some interrupted ∧
             e_status e' = (if rolls_back w e then "rolled_back" else "failed") ∧
             e_stepResults e' = e_stepResults e ∧
             e_currentStep e' = e_currentStep e).
Proof.
  induction todo as [|d todo IH]; intros w Hf Hwf Hnd Hin.
  - exists w. split_and!; auto. intros e He. inversion He.
  - simpl in Hnd. apply NoDup_cons in Hnd as [Hd Hnd].
    assert (Hlt : ∀ x, x ∈ d :: todo → (doc_id x < next_id w)%nat).
    { intros x Hx. specialize (Hin x Hx). unfold lookup in Hin.
      apply js_find_some in Hin as [Hin _]. by apply Hwf. }
    assert (∃ w1, recover d w = (Ok tt, w1) ∧
              faults w1 = [] ∧ well_formed w1 ∧ (next_id w ≤ next_id w1)%nat ∧
              (∀ j, j ≠ doc_id d → (j < next_id w)%nat → lookup w1 j = lookup w j) ∧
              (∀ j, js_find (is_workflow j) (docs w1) = js_find (is_workflow j) (docs w)) ∧
              (∀ i, i ∈ activeExecutions w1 → i ∈ activeExecutions w) ∧
              (∀ j, DJob j ∈ docs w1 →
                 DJob j ∈ docs w ∨
                 (j_remediationStepId j = None ∧ j_tags j = ["rollback"; "remediation"] ∧
                  j_state j = "pending")) ∧
              (∀ e, d = DExecution e →
                 (e_id e ∉ activeExecutions w1) ∧
                 ∃ e', lookup w1 (e_id e) = Some (DExecution e') ∧
                       e_completionReason e' = Some interrupted ∧
                       e_status e' = (if rolls_back w e then "rolled_back" else "failed") ∧
                       e_stepResults e' = e_stepResults e ∧
                       e_currentStep e' = e_currentStep e))
      as (w1 & Hrun & Hf1 & Hwf1 & Hn1 & Hfr1 & Hw1 & Hact1 & Hjobs1 & Hdone).
    { destruct d as [x|e|x|x y z|x|x];
        try (exists w; split_and!; auto; intros e [=]; fail).
      destruct (complete_interrupted e (Some interrupted) w Hf Hwf) as
        (w1 & Hrun & Hf1 & Hwf1 & Hn1 & Hfr1 & Hw1 & Hact1 & Hjobs1 & Hdone).
      { apply (Hin (DExecution e)). apply list_elem_of_here. }
      exists w1. split_and!; auto.
      - intros i. rewrite Hact1. set_solver.
      - intros e0 [= <-]. split; [|exact Hdone]. rewrite Hact1. set_solver. }
    destruct (IH w1 Hf1 Hwf1 Hnd)
      as (w' & Hrun' & Hf' & Hwf' & Hn' & Hfr' & Hw' & Hact' & Hjobs' & Hdone').
    { intros x Hx. rewrite Hfr1.
      - apply Hin. by apply list_elem_of_further.
      - intros Heq. apply Hd. rewrite <- Heq.
        apply list_elem_of_In, in_map, list_elem_of_In, Hx.
      - apply Hlt. by apply list_elem_of_further. }
    exists w'. split_and!; auto.
    + simpl. by rewrite (bind_ok _ _ _ _ _ Hrun).
    + lia.
    + intros j Hj Hjlt. rewrite Hfr'.
      * apply Hfr1; [|exact Hjlt]. intros ->. apply Hj. simpl. apply list_elem_of_here.
      * intros Hj'. apply Hj. simpl. by apply list_elem_of_further.
      * lia.
    + intros j. by rewrite Hw', Hw1.
    + intros j Hj. destruct (Hjobs' j Hj) as [Hold|Hnew]; [|by right]. by apply Hjobs1.
    + intros e [He|He]%elem_of_cons.
      * symmetry in He.
        destruct (Hdone e He) as (Hout & e' & Hl & Hr & Hs & Hres & Hcur).
        split; [intros Hact; apply Hout; by apply Hact'|].
        exists e'. split_and!; auto.
        rewrite Hfr'; [exact Hl| |].
        -- intros Hj. apply Hd. subst d. exact Hj.
        -- apply Nat.lt_le_trans with (next_id w); [|exact Hn1].
           apply (Hlt (DExecution e)). subst d. apply list_elem_of_here.
      * destruct (Hdone' e He) as (Hout & e' & Hl & Hr & Hs & Hres & Hcur).
        split; [exact Hout|]. exists e'. split_and!; auto.
        by rewrite Hs, (rolls_back_same w w1 e Hw1).
Qed.

Lemma load_quarantined records : ∀ w,
  ∃ w', for_each records (fun record =>
            match record with
            | DQuarantine _ nodeId _ =>
                fun w => (Ok tt, set_quarantined (fun q => {[nodeId]} ∪ q) w)
            | _ => ret tt
            end) w = (Ok tt, w') ∧
        docs w' = docs w ∧ next_id w' = next_id w ∧ faults w' = faults w ∧
        activeExecutions w' = activeExecutions w.
Proof.
  induction records as [|r records IH]; intros w; [by exists w|].
  simpl. destruct r as [x|x|x|i nodeId active|x|x];
    try (destruct (IH w) as (w' & Hr & ?); exists w'; split; [|done];
         unfold bind, ret; exact Hr).
  destruct (IH (set_quarantined (fun q => {[nodeId]} ∪ q) w)) as (w' & Hr & ?).
  exists w'. split; [|done]. unfold bind. exact Hr.
Qed.

Lemma filter_sublist_ids (q : Doc → bool) l :
  NoDup (map doc_id l) → NoDup (map doc_id (List.filter q l)).
Proof.
  induction l as [|d l IH]; simpl; intros Hnd; [constructor|].
  apply NoDup_cons in Hnd as [Hd Hnd].
  destruct (q d); simpl; [|auto].
  apply NoDup_cons. split; [|auto].
  intros Hin. apply Hd.
  apply list_elem_of_In, in_map_iff in Hin as (x & Hx & Hxin).
  apply filter_In in Hxin as [Hxin _].
  rewrite <- Hx. apply list_elem_of_In, in_map, Hxin.
Qed.

End RecoveryProofs.

Section RestartProofs.
Import Model Store Actions Engine Examples.

(** C3, counterexample.  The workflow of the interrupted execution has
    [rollbackEnabled]: after [initialize] the execution is observed with
    status 'rolled_back', not 'failed'. *)
Lemma interrupted_execution_is_rolled_back :
  status_of (snd (initialize (interrupted_world true))) 7%nat = Some "rolled_back".
Proof. vm_compute. reflexivity. Qed.

(** C3, amended.  While the store answers, every execution stored with
    status 'running' is observed after [initialize] with a completion
    reason that mentions the interruption and with status 'failed', or
    'rolled_back' when the rollback of its workflow is enabled and could be
    queued; it is never left running.  And it is never resumed: its step
    results and its current step are as they were stored, it is not among
    the active executions, and every job the store holds that it did not
    hold before is a pending rollback job, no step of any workflow. *)
Theorem interrupted_executions_are_resolved (w : World) (e : Execution) :
  faults w = [] → well_formed w →
  DExecution e ∈ docs w → e_status e = "running" →
  ∃ w' e',
    initialize w = (Ok tt, w') ∧
    lookup w' (e_id e) = Some (DExecution e') ∧
    e_completionReason e' = Some interrupted ∧
    Js.includes interrupted "interrupted" = true ∧
    e_status e' = (if rolls_back w e then "rolled_back" else "failed") ∧
    e_status e' ≠ "running" ∧
    e_stepResults e' = e_stepResults e ∧
    e_currentStep e' = e_currentStep e ∧
    (e_id e ∉ activeExecutions w') ∧
    (∀ j, DJob j ∈ docs w' →
       DJob j ∈ docs w ∨
       (j_remediationStepId j = None ∧ j_tags j = ["rollback"; "remediation"] ∧
        j_state j = "pending")).
Proof.
  intros Hf Hwf He Hrun.
  unfold initialize.
  rewrite (bind_ok _ _ _ _ _ (find_healthy _ _ Hf)).
  destruct (load_quarantined (List.filter is_active_quarantine (docs w)) w)
    as (w0 & Hq & Hd0 & Hn0 & Hf0 & Ha0).
  rewrite (bind_ok _ _ _ _ _ Hq).
  assert (Hf0' : faults w0 = []) by congruence.
  rewrite (bind_ok _ _ _ _ _ (find_healthy _ _ Hf0')).
  assert (Hwf0 : well_formed w0).
  { destruct Hwf as [Hnd Hlt]. split; rewrite Hd0; [done|]. intros d Hd. rewrite Hn0. auto. }
  destruct (recover_all (List.filter is_running_execution (docs w0)) w0 Hf0' Hwf0)
    as (w' & Hrec & _ & _ & _ & _ & _ & _ & Hjobs & Hdone).
  { apply filter_sublist_ids, Hwf0. }
  { intros d Hd. apply list_elem_of_In, filter_In in Hd as [Hd _].
    apply find_of_member; [apply Hwf0|by apply list_elem_of_In]. }
  destruct (Hdone e) as (Hout & e' & Hl & Hr & Hs & Hres & Hcur).
  { apply list_elem_of_In, filter_In. split.
    - rewrite Hd0. by apply list_elem_of_In.
    - simpl. rewrite Hrun. reflexivity. }
  exists w', e'. split_and!; auto.
  - rewrite Hs. unfold rolls_back. by rewrite Hd0.
  - rewrite Hs. destruct (rolls_back w0 e); discriminate.
  - intros j Hj. rewrite <- Hd0. by apply Hjobs.
Qed.

Lemma interrupted_world_well_formed b : well_formed (interrupted_world b).
Proof.
  split.
  - simpl. repeat constructor; simpl; intros H; inversion H; subst;
      match goal with H : _ ∈ _ |- _ => inversion H end.
  - intros d Hd. simpl in Hd.
    repeat (apply elem_of_cons in Hd as [->|Hd]; [simpl; lia|]). inversion Hd.
Qed.

Lemma interrupted_executions_are_resolved_witness :
  ∃ w' e',
    initialize (interrupted_world false) = (Ok tt, w') ∧
    lookup w' 7%nat = Some (DExecution e') ∧
    e_status e' = "failed" ∧
    e_stepResults e' = [success_of "backup"] ∧
    e_currentStep e' = Some "patch" ∧
    (7%nat ∉ activeExecutions w').
Proof.
  destruct (interrupted_executions_are_resolved (interrupted_world false)
              (stored_execution "running" [success_of "backup"])
              eq_refl (interrupted_world_well_formed false)
              (list_elem_of_further _ _ _ (list_elem_of_here _ _)) eq_refl)
    as (w' & e' & Hrun & Hl & _ & _ & Hs & _ & Hres & Hcur & Hact & _).
  exists w', e'. split_and!; assumption.
Defined.

Lemma rollback_exactly_on_failure_with_rollback_enabled_witness :
  let execution := stored_execution "running" [success_of "backup"; success_of "patch"] in
  let w := world_of [DWorkflow (patch_workflow true true); DExecution execution] [] in
  docs (snd (completeExecution execution "failed" (Some "Step patch not found") w))
  = [ DWorkflow (patch_workflow true true);
      DExecution (set_rolled_back 0
                    (set_completed "failed" 0 0 (Some "Step patch not found") execution));
      DJob {| j_id := 100%nat; j_scriptId := Some "undo-backup"; j_node := "web-1";
              j_state := "pending"; j_queueTime := 0; j_priority := "high";
              j_scheduleId := None; j_remediationExecutionId := Some 7%nat;
              j_remediationStepId := None; j_tags := ["rollback"; "remediation"];
              j_reason := Some "Rollback from failed remediation";
              j_originalStepId := Some "backup" |} ].
Proof.
  intros execution w.
  exact (proj1 (proj1 (rollback_exactly_on_failure_with_rollback_enabled
                         execution execution "failed" (Some "Step patch not found") w
                         eq_refl eq_refl eq_refl eq_refl)
                  (patch_workflow true true) _ eq_refl eq_refl eq_refl eq_refl)).
Defined.

End RestartProofs.

(** * The deferred queue *)
Section QueueProofs.
Import Model Store Scheduler Dispatch.

(** The weight of the entry is a number. *)
Local Abbreviation weighed := (fun e : QueueEntry => is_Some (weight e)).

Lemma before_weights e x m n :
  weight e = Some m → weight x = Some n → before e x = Z.ltb m n.
Proof.
  unfold weight, before. intros He Hx.
  destruct (q_priority e); try discriminate.
  destruct (q_priority x); try discriminate.
  simplify_eq. simpl.
  destruct (Z.ltb_spec (m - n) 0), (Z.ltb_spec m n); auto; lia.
Qed.

Lemma by_weight_iff a b :
  by_weight a b ↔ ∃ m n, weight a = Some m ∧ weight b = Some n ∧ m ≤ n.
Proof.
  unfold by_weight. destruct (weight a) as [m|], (weight b) as [n|]; split;
    try (intros []; fail); try (intros (?&?&?&?&?); discriminate).
  - intros H. by exists m, n.
  - intros (m' & n' & [= <-] & [= <-] & H). exact H.
Qed.

Lemma lighter_iff a b :
  lighter a b ↔ ∃ m n, weight a = Some m ∧ weight b = Some n ∧ m < n.
Proof.
  unfold lighter. destruct (weight a) as [m|], (weight b) as [n|]; split;
    try (intros []; fail); try (intros (?&?&?&?&?); discriminate).
  - intros H. by exists m, n.
  - intros (m' & n' & [= <-] & [= <-] & H). exact H.
Qed.

Lemma by_weight_trans a b c : by_weight a b → by_weight b c → by_weight a c.
Proof.
  rewrite !by_weight_iff. intros (m & n & Ha & Hb & H1) (n' & k & Hb' & Hc & H2).
  simplify_eq. exists m, k. split_and!; auto. lia.
Qed.

Lemma insert_by_priority_perm e q : insert_by_priority e q ≡ₚ e :: q.
Proof.
  induction q as [|x r IH]; simpl; [reflexivity|].
  destruct (before e x); [reflexivity|].
  rewrite IH. apply Permutation_swap.
Qed.

Lemma insert_by_priority_sorted e q :
  weighed e → Forall weighed q →
  StronglySorted by_weight q → StronglySorted by_weight (insert_by_priority e q).
Proof.
  intros [m He] Hq. induction 1 as [|x r Hs IH Hall]; simpl.
  { repeat constructor. }
  apply Forall_cons in Hq as [[n Hx] Hr].
  rewrite (before_weights e x m n He Hx).
  destruct (Z.ltb_spec m n) as [Hlt|Hge].
  - constructor; [by constructor|].
    assert (Hex : by_weight e x).
    { apply by_weight_iff. exists m, n. split_and!; auto. lia. }
    constructor; [exact Hex|].
    eapply Forall_impl; [exact Hall|]. intros y Hy. by apply by_weight_trans with x.
  - constructor; [by apply IH|].
    rewrite insert_by_priority_perm. constructor; [|exact Hall].
    apply by_weight_iff. by exists n, m.
Qed.

Lemma insert_by_priority_weighed e q :
  weighed e → Forall weighed q → Forall weighed (insert_by_priority e q).
Proof. intros He Hq. rewrite insert_by_priority_perm. by constructor. Qed.

Lemma sort_by_priority_gen q : ∀ acc,
  Forall weighed q → Forall weighed acc →
  StronglySorted by_weight acc →
  StronglySorted by_weight (fold_left (fun acc e => insert_by_priority e acc) q acc)
  ∧ fold_left (fun acc e => insert_by_priority e acc) q acc ≡ₚ acc ++ q.
Proof.
  induction q as [|x r IH]; intros acc Hq Hacc Hs; simpl.
  { by rewrite app_nil_r. }
  apply Forall_cons in Hq as [Hx Hr].
  destruct (IH (insert_by_priority x acc)) as [Hs' Hp]; auto.
  { by apply insert_by_priority_weighed. }
  { by apply insert_by_priority_sorted. }
  split; [exact Hs'|]. rewrite Hp, insert_by_priority_perm.
  simpl. apply Permutation_middle.
Qed.

(** An entry that is before none of [acc] goes to its end. *)
Lemma insert_by_priority_last e acc :
  Forall (fun a => by_weight a e) acc →
  insert_by_priority e acc = acc ++ [e].
Proof.
  induction 1 as [|x r Hx Hall IH]; simpl; [reflexivity|].
  apply by_weight_iff in Hx as (n & m & Hx & He & Hle).
  rewrite (before_weights e x m n He Hx).
  destruct (Z.ltb_spec m n); [lia|]. by rewrite IH.
Qed.

Lemma sort_by_priority_sorted_gen q : ∀ acc,
  StronglySorted by_weight (acc ++ q) →
  fold_left (fun acc e => insert_by_priority e acc) q acc = acc ++ q.
Proof.
  induction q as [|x r IH]; intros acc Hs; simpl; [by rewrite app_nil_r|].
  rewrite insert_by_priority_last.
  - rewrite IH; rewrite <- app_assoc; [reflexivity|exact Hs].
  - clear IH. induction acc as [|a acc IHa]; [constructor|].
    simpl in Hs. apply StronglySorted_inv in Hs as [Hs Hall].
    constructor; [|by apply IHa].
    rewrite Forall_app, Forall_cons in Hall. apply Hall.
Qed.

(** Sorting a queue that is in order leaves it as it is. *)
Lemma sort_by_priority_sorted q :
  StronglySorted by_weight q → sort_by_priority q = q.
Proof. intros H. unfold sort_by_priority. by rewrite sort_by_priority_sorted_gen. Qed.

Lemma sort_by_priority_snoc q e :
  sort_by_priority (q ++ [e]) = insert_by_priority e (sort_by_priority q).
Proof. unfold sort_by_priority. by rewrite fold_left_app. Qed.

(** Where [insert_by_priority] puts an entry in a queue that is in order. *)
Lemma insert_by_priority_split e q :
  weighed e → Forall weighed q →
  StronglySorted by_weight q →
  ∃ front back, q = front ++ back ∧ insert_by_priority e q = front ++ e :: back ∧
    Forall (fun a => by_weight a e) front ∧
    Forall (fun b => lighter e b) back.
Proof.
  intros [m He] Hq. induction 1 as [|x r Hs IH Hall]; simpl.
  { exists [], []. split_and!; auto. }
  apply Forall_cons in Hq as [[n Hx] Hr].
  rewrite (before_weights e x m n He Hx).
  destruct (Z.ltb_spec m n) as [Hlt|Hge].
  - exists [], (x :: r). split_and!; auto.
    constructor; [apply lighter_iff; by exists m, n|].
    eapply Forall_impl; [exact Hall|]. intros y Hy.
    apply by_weight_iff in Hy as (n' & k & Hx' & Hy & Hle). simplify_eq.
    apply lighter_iff. exists m, k. split_and!; auto. lia.
  - destruct (IH Hr) as (front & back & -> & -> & Hf & Hb).
    exists (x :: front), back. split_and!; auto.
    constructor; [|exact Hf]. apply by_weight_iff. by exists n, m.
Qed.

(** The entry queued for a priority that names no inherited property weighs
    2, 3 or 4. *)
Lemma queued_entry_weighed scheduleId priority now :
  (∀ p, priority = Some p → Proto.inherited p = false) →
  ∃ n, weight {| q_scheduleId := scheduleId;
                 q_priority := Proto.plus_one (getPriorityValue priority);
                 q_queuedAt := now |} = Some n ∧ 2 ≤ n ≤ 4.
Proof.
  intros Hown. destruct (getPriorityValue_number priority Hown) as (n & Hn & Hr).
  exists (n + 1). unfold weight. simpl. rewrite Hn. simpl. split; [reflexivity|lia].
Qed.

(** X1.  While no priority names a property that objects inherit, so that
    every queued weight is a number, the deferred queue is in order of
    weight after a schedule is queued, whatever order it was in before; it
    holds the entries it held plus the new one, each once, all with a number
    for their weight; and the entry [processJobQueue] takes next weighs no
    more than any entry it leaves queued. *)
Theorem deferred_queue_is_sorted (scheduleId : DocId) (priority : option string)
    (now : Z) (jobQueue : list QueueEntry) :
  (∀ p, priority = Some p → Proto.inherited p = false) →
  Forall (fun e => is_Some (weight e)) jobQueue →
  let entry := {| q_scheduleId := scheduleId;
                  q_priority := Proto.plus_one (getPriorityValue priority);
                  q_queuedAt := now |} in
  let queued := queueScheduleForLater scheduleId priority now jobQueue in
  StronglySorted by_weight queued
  ∧ queued ≡ₚ jobQueue ++ [entry]
  ∧ Forall (fun e => is_Some (weight e)) queued
  ∧ ∃ job rest, shift queued = (Some job, rest) ∧ Forall (by_weight job) rest.
Proof.
  intros Hown Hq entry queued. subst queued. unfold queueScheduleForLater, sort_by_priority.
  fold entry.
  assert (He : weighed entry).
  { destruct (queued_entry_weighed scheduleId priority now Hown) as (n & Hn & _).
    by exists n. }
  assert (Hall : Forall weighed (jobQueue ++ [entry])).
  { apply Forall_app. split; [exact Hq|by constructor]. }
  destruct (sort_by_priority_gen (jobQueue ++ [entry]) []) as [Hs Hp];
    [exact Hall|constructor|constructor|].
  split; [exact Hs|]. split; [exact Hp|]. split; [by rewrite Hp|].
  simpl in Hp.
  destruct (fold_left _ (jobQueue ++ [entry]) []) as [|job rest] eqn:Hfold.
  { symmetry in Hp. apply Permutation_nil_r in Hp. by destruct jobQueue. }
  exists job, rest. split; [reflexivity|].
  apply StronglySorted_inv in Hs as [_ Hrest]. exact Hrest.
Qed.

(** X2.  While every queued weight is a number, a schedule queued behind a
    queue that is in order never overtakes an entry that was queued before
    it with the same or a smaller weight: the queue is cut in two, the
    entries that weigh no more than the new one stay in front of it in their
    order, those that weigh more stay behind it. *)
Theorem deferred_queue_is_first_in_first_out (scheduleId : DocId)
    (priority : option string) (now : Z) (jobQueue : list QueueEntry) :
  (∀ p, priority = Some p → Proto.inherited p = false) →
  Forall (fun e => is_Some (weight e)) jobQueue →
  StronglySorted by_weight jobQueue →
  let entry := {| q_scheduleId := scheduleId;
                  q_priority := Proto.plus_one (getPriorityValue priority);
                  q_queuedAt := now |} in
  ∃ front back,
    jobQueue = front ++ back ∧
    queueScheduleForLater scheduleId priority now jobQueue = front ++ entry :: back ∧
    Forall (fun a => by_weight a entry) front ∧
    Forall (fun b => lighter entry b) back.
Proof.
  intros Hown Hq Hs entry. unfold queueScheduleForLater. fold entry.
  rewrite sort_by_priority_snoc, (sort_by_priority_sorted _ Hs).
  apply insert_by_priority_split; auto.
  destruct (queued_entry_weighed scheduleId priority now Hown) as (n & Hn & _).
  by exists n.
Qed.

End QueueProofs.

(** * The concurrency gate and job creation *)
Section LimitProofs.
Import Model Store Scheduler Dispatch.

Variable maxConcurrentJobs : option Z.
Variable wsagents : gmap string (option string).

Local Abbreviation within_limits := (Scheduler.within_limits maxConcurrentJobs wsagents).
Local Abbreviation checkConcurrencyLimits :=
  (Scheduler.checkConcurrencyLimits maxConcurrentJobs wsagents).
Local Abbreviation createJobForSchedule :=
  (Dispatch.createJobForSchedule maxConcurrentJobs wsagents).

(** The jobs of [nodeId]. *)
Local Abbreviation on_node nodeId := (fun j : Job => String.eqb (j_node j) nodeId).

(** The jobs of the agents whose mesh is [agentKey]. *)
Local Abbreviation on_mesh agentKey :=
  (fun j : Job => match Scheduler.agent wsagents (j_node j) with
                  | Some jobKey => bool_decide (jobKey = agentKey)
                  | None => false
                  end).

(** The gate admits exactly when each limit the schedule configures, and the
    system-wide one, leaves room. *)
Lemma within_limits_true schedule nodeId runningJobs :
  within_limits schedule nodeId runningJobs = true ↔
  (∀ n, limit schedule maxPerNode = Some n → count (on_node nodeId) runningJobs < n) ∧
  (∀ n agentKey, limit schedule maxPerMesh = Some n →
     Scheduler.agent wsagents nodeId = Some agentKey →
     count (on_mesh agentKey) runningJobs < n) ∧
  (∀ n, limit schedule maxGlobal = Some n → Z.of_nat (length runningJobs) < n) ∧
  Z.of_nat (length runningJobs) < orZ maxConcurrentJobs 50.
Proof.
  unfold Scheduler.within_limits.
  destruct (limit schedule maxPerNode) as [n|],
           (limit schedule maxPerMesh) as [m|],
           (Scheduler.agent wsagents nodeId) as [agentKey|],
           (limit schedule maxGlobal) as [g|];
    repeat match goal with |- context [Z.geb ?a ?b] => destruct (Z.geb_spec a b) end;
    (split;
     [ intros Hw; try discriminate Hw; split_and!; intros; simplify_eq; lia
     | intros (Hn & Hm & Hg & Hs);
       try specialize (Hn _ eq_refl); try specialize (Hm _ _ eq_refl eq_refl);
       try specialize (Hg _ eq_refl); first [reflexivity | lia] ]).
Qed.

Lemma count_sublist (p : Job → bool) (l1 l2 : list Job) :
  sublist l1 l2 → count p l1 ≤ count p l2.
Proof.
  intros H. unfold count. apply inj_le.
  induction H as [|x l1 l2 H IH|x l1 l2 H IH]; simpl; [lia| |];
    destruct (p x); simpl; lia.
Qed.

(** X3.  Taking live jobs away never turns an admission into a refusal: a
    schedule admitted against a list of live jobs is admitted against every
    part of it. *)
Theorem fewer_live_jobs_keep_admission (schedule : Schedule) (nodeId : string)
    (fewer runningJobs : list Job) :
  sublist fewer runningJobs →
  within_limits schedule nodeId runningJobs = true →
  within_limits schedule nodeId fewer = true.
Proof.
  intros Hsub. rewrite !within_limits_true. intros (H1 & H2 & H3 & H4).
  pose proof (inj_le _ _ (sublist_length _ _ Hsub)) as Hlen.
  split_and!.
  - intros n Hn. specialize (H1 n Hn).
    pose proof (count_sublist (on_node nodeId) _ _ Hsub). lia.
  - intros n k Hn Hk. specialize (H2 n k Hn Hk).
    pose proof (count_sublist (on_mesh k) _ _ Hsub). lia.
  - intros n Hn. specialize (H3 n Hn). lia.
  - lia.
Qed.

Lemma checkConcurrencyLimits_healthy schedule nodeId w :
  faults w = [] →
  checkConcurrencyLimits schedule nodeId w
  = (Ok (within_limits schedule nodeId (live_jobs w)), w).
Proof.
  intros Hf. unfold Scheduler.checkConcurrencyLimits, try_catch, bind.
  by rewrite (find_healthy _ _ Hf).
Qed.

Lemma prepare_healthy scriptId schedule nodeId w :
  faults w = [] →
  prepare maxConcurrentJobs wsagents scriptId schedule nodeId w
  = (Ok (if within_limits schedule nodeId (live_jobs w)
         then Some (scheduled_job scriptId schedule nodeId (clock w / 1000))
         else None), w).
Proof.
  intros Hf. unfold prepare, try_catch.
  rewrite (bind_ok _ _ _ _ _ (checkConcurrencyLimits_healthy schedule nodeId w Hf)).
  destruct (within_limits schedule nodeId (live_jobs w)); reflexivity.
Qed.

Lemma insert_healthy mk w :
  faults w = [] →
  insert (Some mk) w
  = (Ok tt, set_next_id (S (next_id w)) (set_docs (fun l => l ++ [mk (next_id w)]) w)).
Proof.
  intros Hf. unfold insert, try_catch, bind. by rewrite (insertOne_healthy _ _ Hf).
Qed.

(** What [createJobForSchedule] does while the store answers: nothing when
    the gate refuses, one insertion when it admits. *)
Lemma createJobForSchedule_healthy scriptId schedule nodeId w :
  faults w = [] →
  createJobForSchedule scriptId schedule nodeId w
  = (Ok tt,
     if within_limits schedule nodeId (live_jobs w)
     then set_next_id (S (next_id w))
            (set_docs (fun l => l ++ [scheduled_job scriptId schedule nodeId
                                        (clock w / 1000) (next_id w)]) w)
     else w).
Proof.
  intros Hf. unfold Dispatch.createJobForSchedule.
  rewrite (bind_ok _ _ _ _ _ (prepare_healthy scriptId schedule nodeId w Hf)).
  destruct (within_limits schedule nodeId (live_jobs w)); [|reflexivity].
  by apply insert_healthy.
Qed.

Lemma live_jobs_snoc w f scriptId schedule nodeId t i :
  live_jobs (set_next_id f (set_docs (fun l => l ++ [scheduled_job scriptId schedule nodeId t i]) w))
  = live_jobs w ++ [ {| j_id := i; j_scriptId := scriptId; j_node := nodeId;
                        j_state := "pending"; j_queueTime := t;
                        j_priority := orS (s_priority schedule) "normal";
                        j_scheduleId := Some (s_id schedule);
                        j_remediationExecutionId := None; j_remediationStepId := None;
                        j_tags := ["scheduled"]; j_reason := None;
                        j_originalStepId := None |} ].
Proof.
  unfold live_jobs. simpl. rewrite List.filter_app. simpl.
  change (omap ?f (?a ++ ?b)) with (omap f (a ++ b)).
  by rewrite omap_app.
Qed.

Lemma count_snoc (p : Job → bool) l j :
  count p (l ++ [j]) = count p l + (if p j then 1 else 0).
Proof.
  unfold count. rewrite List.filter_app, length_app. simpl.
  destruct (p j); simpl; lia.
Qed.

Lemma run_step scriptId schedule i rest calls c c' w w' :
  calls !! i = Some c →
  resume maxConcurrentJobs wsagents scriptId schedule c w = (Ok c', w') →
  run maxConcurrentJobs wsagents scriptId schedule (i :: rest) calls w
  = run maxConcurrentJobs wsagents scriptId schedule rest (<[i := c']> calls) w'.
Proof. intros Hc Hr. cbn [run]. rewrite Hc. unfold bind. by rewrite Hr. Qed.

(** The calls from [length pre] on have their checks answered, one after
    the other, by a store that answers: each is admitted on the same live
    jobs, and the store is left as it is. *)
Lemma run_checks scriptId schedule (todo : list string) : ∀ (pre : list Call) rest w,
  faults w = [] →
  Forall (fun nodeId => within_limits schedule nodeId (live_jobs w) = true) todo →
  run maxConcurrentJobs wsagents scriptId schedule
      (seq (length pre) (length todo) ++ rest) (pre ++ map Started todo) w
  = run maxConcurrentJobs wsagents scriptId schedule rest
      (pre ++ map (fun nodeId =>
                     Checked (Some (scheduled_job scriptId schedule nodeId (clock w / 1000))))
                  todo) w.
Proof.
  induction todo as [|x todo IH]; intros pre rest w Hf Hall; [reflexivity|].
  apply Forall_cons in Hall as [Hx Hall].
  cbn [length seq app map].
  rewrite (run_step scriptId schedule (length pre) _ _ (Started x)
             (Checked (Some (scheduled_job scriptId schedule x (clock w / 1000)))) w w).
  2:{ rewrite lookup_app_r by lia. by rewrite Nat.sub_diag. }
  2:{ cbn [resume]. unfold bind. by rewrite (prepare_healthy scriptId schedule x w Hf), Hx. }
  rewrite insert_app_r_alt by lia. rewrite Nat.sub_diag. cbn [insert list_insert].
  specialize (IH (pre ++ [Checked (Some (scheduled_job scriptId schedule x (clock w / 1000)))])
                 rest w Hf Hall).
  rewrite length_app in IH. cbn [length] in IH.
  replace (length pre + 1)%nat with (S (length pre)) in IH by lia.
  rewrite <- !app_assoc in IH. exact IH.
Qed.

(** The calls from [length pre] on insert their jobs, one after the other,
    into a store that answers. *)
Lemma run_inserts scriptId schedule (todo : list (DocId → Doc)) : ∀ (pre : list Call) w,
  faults w = [] →
  ∃ w', run maxConcurrentJobs wsagents scriptId schedule
            (seq (length pre) (length todo)) (pre ++ map (fun mk => Checked (Some mk)) todo) w
        = (Ok (pre ++ map (fun _ => Returned) todo), w') ∧
        docs w' = docs w ++ imap (fun k mk => mk (next_id w + k)%nat) todo ∧
        next_id w' = (next_id w + length todo)%nat ∧ faults w' = [].
Proof.
  induction todo as [|mk todo IH]; intros pre w Hf.
  { exists w. cbn. rewrite !app_nil_r, Nat.add_0_r. done. }
  cbn [length seq map].
  set (w1 := set_next_id (S (next_id w)) (set_docs (fun l => l ++ [mk (next_id w)]) w)).
  rewrite (run_step scriptId schedule (length pre) _ _ (Checked (Some mk)) Returned w w1).
  2:{ rewrite lookup_app_r by lia. by rewrite Nat.sub_diag. }
  2:{ cbn [resume]. unfold bind. by rewrite (insert_healthy mk w Hf). }
  rewrite insert_app_r_alt by lia. rewrite Nat.sub_diag. cbn [insert list_insert].
  destruct (IH (pre ++ [Returned]) w1 Hf) as (w' & Hrun & Hd & Hn & Hf').
  rewrite length_app in Hrun. cbn [length] in Hrun.
  replace (length pre + 1)%nat with (S (length pre)) in Hrun by lia.
  rewrite <- !app_assoc in Hrun.
  exists w'. split; [exact Hrun|]. split_and!; auto.
  - rewrite Hd. unfold w1. cbn. rewrite <- app_assoc. cbn.
    do 2 f_equal; [f_equal; lia|].
    apply imap_ext. intros k y _. cbn. f_equal. lia.
  - rewrite Hn. unfold w1. cbn. lia.
Qed.

Lemma live_jobs_app w w' extra :
  docs w' = docs w ++ extra →
  length (live_jobs w') = (length (live_jobs w) + length (live_jobs (set_docs (fun _ => extra) w)))%nat.
Proof.
  intros Hd. unfold live_jobs. rewrite Hd. cbn.
  rewrite List.filter_app.
  change (omap ?f (?a ++ ?b)) with (omap f (a ++ b)).
  by rewrite omap_app, length_app.
Qed.

Lemma live_scheduled_jobs scriptId schedule t first (nodes : list string) w :
  length (live_jobs (set_docs (fun _ =>
            imap (fun k nodeId => scheduled_job scriptId schedule nodeId t (first + k)%nat) nodes) w))
  = length nodes.
Proof.
  unfold live_jobs. cbn. revert first.
  induction nodes as [|x nodes IH]; intros first; [reflexivity|].
  cbn. f_equal. rewrite <- (IH (S first)). do 3 f_equal.
  apply imap_ext. intros k y _. cbn. f_equal. lia.
Qed.

(** X4.  The limits hold call by call, not across calls in flight.  While the
    store answers, a call of [createJobForSchedule] that runs with no other
    call between its check and its insertion keeps the live jobs within the
    limits: the node's live jobs stay within [maxPerNode], the live jobs of
    all nodes within [maxGlobal] and within the system-wide ceiling
    ([maxConcurrentJobs], 50 by default), if they were before; it adds at
    most one document, a pending job for the node.  But the calls that one
    trigger sets off are all admitted on the same live jobs when their
    checks are answered before any of them inserts: each then adds its job,
    whatever the limits, and [maxGlobal] is overshot as soon as the calls
    outnumber the room that was left. *)
Theorem limits_hold_call_by_call_only (scriptId : option string) (schedule : Schedule)
    (w : World) :
  faults w = [] →
  (∀ nodeId,
     let w' := snd (createJobForSchedule scriptId schedule nodeId w) in
     (∀ n, limit schedule maxPerNode = Some n →
        count (on_node nodeId) (live_jobs w) ≤ n →
        count (on_node nodeId) (live_jobs w') ≤ n) ∧
     (∀ n, limit schedule maxGlobal = Some n →
        Z.of_nat (length (live_jobs w)) ≤ n → Z.of_nat (length (live_jobs w')) ≤ n) ∧
     (Z.of_nat (length (live_jobs w)) ≤ orZ maxConcurrentJobs 50 →
      Z.of_nat (length (live_jobs w')) ≤ orZ maxConcurrentJobs 50) ∧
     (docs w' = docs w ∨
      docs w' = docs w ++
        [DJob {| j_id := next_id w; j_scriptId := scriptId; j_node := nodeId;
                 j_state := "pending"; j_queueTime := clock w / 1000;
                 j_priority := orS (s_priority schedule) "normal";
                 j_scheduleId := Some (s_id schedule);
                 j_remediationExecutionId := None; j_remediationStepId := None;
                 j_tags := ["scheduled"]; j_reason := None;
                 j_originalStepId := None |}])) ∧
  (∀ nodes,
     Forall (fun nodeId => within_limits schedule nodeId (live_jobs w) = true) nodes →
     let w' := snd (run maxConcurrentJobs wsagents scriptId schedule
                      (checks_first (length nodes)) (map Started nodes) w) in
     docs w' = docs w ++
       imap (fun k nodeId =>
               DJob {| j_id := (next_id w + k)%nat; j_scriptId := scriptId;
                       j_node := nodeId; j_state := "pending";
                       j_queueTime := clock w / 1000;
                       j_priority := orS (s_priority schedule) "normal";
                       j_scheduleId := Some (s_id schedule);
                       j_remediationExecutionId := None; j_remediationStepId := None;
                       j_tags := ["scheduled"]; j_reason := None;
                       j_originalStepId := None |}) nodes ∧
     Z.of_nat (length (live_jobs w'))
     = Z.of_nat (length (live_jobs w)) + Z.of_nat (length nodes) ∧
     (∀ n, limit schedule maxGlobal = Some n →
        n < Z.of_nat (length (live_jobs w)) + Z.of_nat (length nodes) →
        n < Z.of_nat (length (live_jobs w')))).
Proof.
  intros Hf. split.
  - intros nodeId w'. subst w'. rewrite (createJobForSchedule_healthy _ _ _ _ Hf). simpl.
    destruct (within_limits schedule nodeId (live_jobs w)) eqn:Hw.
    2:{ split_and!; auto. }
    apply within_limits_true in Hw as (Hn & _ & Hg & Hs).
    rewrite live_jobs_snoc, length_app. simpl.
    split_and!.
    + intros n Hl _. specialize (Hn n Hl). rewrite count_snoc. simpl.
      rewrite String.eqb_refl. lia.
    + intros n Hl _. specialize (Hg n Hl). lia.
    + intros _. lia.
    + by right.
  - intros nodes Hall w'. subst w'. unfold checks_first.
    pose proof (run_checks scriptId schedule nodes [] (seq 0 (length nodes)) w Hf Hall)
      as Hchecks.
    cbn [length app] in Hchecks. rewrite Hchecks. clear Hchecks.
    destruct (run_inserts scriptId schedule
                (map (fun nodeId => scheduled_job scriptId schedule nodeId (clock w / 1000))
                     nodes) [] w Hf) as (w' & Hrun & Hd & Hn & Hf').
    rewrite length_map, map_map in Hrun. cbn [length app] in Hrun.
    rewrite Hrun. cbn [snd].
    assert (Hdocs : docs w' = docs w ++
              imap (fun k nodeId =>
                      scheduled_job scriptId schedule nodeId (clock w / 1000)
                        (next_id w + k)%nat) nodes).
    { rewrite Hd. f_equal. rewrite imap_fmap. reflexivity. }
    assert (Hlen : Z.of_nat (length (live_jobs w'))
                   = Z.of_nat (length (live_jobs w)) + Z.of_nat (length nodes)).
    { rewrite (live_jobs_app w w' _ Hdocs), live_scheduled_jobs. lia. }
    split; [exact Hdocs|]. split; [exact Hlen|].
    intros n _ Hover. lia.
Qed.

End LimitProofs.

(** * The dependency gate *)
Section DependencyProofs.
Import Model Store Scheduler.

Lemma dependencies_ready_healthy lastRun deps w :
  faults w = [] →
  ∃ b, dependencies_ready lastRun deps w = (Ok b, w) ∧
    (b = true ↔
     ∀ depId, depId ∈ deps →
       ∃ dep last, js_find (is_schedule depId) (docs w) = Some (DSchedule dep) ∧
         s_lastRun dep = Some last ∧ last ≠ 0 ∧
         ∀ mine, lastRun = Some mine → mine ≠ 0 → mine ≤ last).
Proof.
  intros Hf. induction deps as [|depId rest IH].
  { exists true. split; [reflexivity|]. split; [|reflexivity]. intros _ d Hd. inversion Hd. }
  cbn [dependencies_ready]. rewrite (bind_ok _ _ _ _ _ (findOne_healthy _ _ Hf)).
  assert (Hno : ∀ b : bool,
    ¬ (∃ dep last, js_find (is_schedule depId) (docs w) = Some (DSchedule dep) ∧
         s_lastRun dep = Some last ∧ last ≠ 0 ∧
         ∀ mine, lastRun = Some mine → mine ≠ 0 → mine ≤ last) →
    ∃ b, (ret false : M bool) w = (Ok b, w) ∧
      (b = true ↔ ∀ d, d ∈ depId :: rest →
         ∃ dep last, js_find (is_schedule d) (docs w) = Some (DSchedule dep) ∧
           s_lastRun dep = Some last ∧ last ≠ 0 ∧
           ∀ mine, lastRun = Some mine → mine ≠ 0 → mine ≤ last)).
  { intros _ Hn. exists false. split; [reflexivity|]. split; [discriminate|].
    intros H. exfalso. apply Hn. apply H. apply list_elem_of_here. }
  destruct (js_find (is_schedule depId) (docs w)) as [d|] eqn:Hfind.
  2:{ apply (Hno true). intros (dep & last & Hd & _). discriminate. }
  destruct d as [x|x|x|x y z|dep|x];
    try (apply (Hno true); intros (dep' & last & Hd & _); discriminate).
  destruct (s_lastRun dep) as [last|] eqn:Hlast; simpl.
  2:{ apply (Hno true). intros (dep' & last & Hd & Hl & _). congruence. }
  destruct (Z.eqb_spec last 0) as [Hz|Hnz]; simpl.
  { apply (Hno true). intros (dep' & last' & Hd & Hl & Hne & _). congruence. }
  destruct (truthyZ lastRun && (last <? default 0 lastRun)) eqn:Hcmp.
  { apply (Hno true). intros (dep' & last' & Hd & Hl & Hne & Hle).
    assert (dep' = dep) by congruence. subst dep'. assert (last' = last) by congruence.
    subst last'. apply andb_true_iff in Hcmp as [Ht Hlt].
    destruct lastRun as [mine|]; [|discriminate]. simpl in *.
    apply Z.ltb_lt in Hlt. specialize (Hle mine eq_refl).
    destruct (Z.eqb_spec mine 0); [discriminate|]. lia. }
  destruct IH as (b & -> & Hb). exists b. split; [reflexivity|].
  rewrite Hb. split.
  - intros H d Hd. apply elem_of_cons in Hd as [ -> | Hd ]; [|by apply H].
    exists dep, last. split_and!; auto.
    intros mine -> Hm. simpl in Hcmp. destruct (Z.eqb_spec mine 0); [contradiction|].
    simpl in Hcmp. apply Z.ltb_ge in Hcmp. lia.
  - intros H d Hd. apply H. by apply list_elem_of_further.
Qed.

(** X5.  While the store answers, [checkDependencies] leaves the store as it is
    and reports the dependencies ready exactly when every schedule listed
    in [dependsOn] is stored, has run, and for a schedule that has run
    itself has run no earlier than that. *)
Theorem dependencies_are_ready_exactly_when_each_has_run (schedule : Schedule)
    (dependsOn : list DocId) (w : World) :
  faults w = [] →
  s_dependsOn schedule = Some dependsOn →
  ∃ ready, checkDependencies schedule w = (Ok ready, w) ∧
    (ready = true ↔
     ∀ depId, depId ∈ dependsOn →
       ∃ dep last, js_find (is_schedule depId) (docs w) = Some (DSchedule dep) ∧
         s_lastRun dep = Some last ∧ last ≠ 0 ∧
         ∀ mine, s_lastRun schedule = Some mine → mine ≠ 0 → mine ≤ last).
Proof.
  intros Hf Hd. unfold checkDependencies, try_catch. rewrite Hd.
  destruct (dependencies_ready_healthy (s_lastRun schedule) dependsOn w Hf) as (b & -> & Hb).
  eauto.
Qed.

End DependencyProofs.

(** * Maintenance windows *)
Section WindowProofs.
Import Model Store Scheduler MaintenanceWindows WindowAdmin.

Variable tz_now : string → option Z.
Variable cron_previous : string → string → result (option Z).

Local Abbreviation canJobRun := (MaintenanceWindows.canJobRun tz_now cron_previous).
Local Abbreviation first_window := (MaintenanceWindows.first_window tz_now cron_previous).
Local Abbreviation isInMaintenanceWindow :=
  (MaintenanceWindows.isInMaintenanceWindow tz_now cron_previous).

(** The windows [getMaintenanceWindows] returns are stored and are among
    those asked for, whether the store answers or not. *)
Lemma getMaintenanceWindows_stored ids w :
  ∃ windows w', getMaintenanceWindows ids w = (Ok windows, w') ∧
    ∀ m, m ∈ windows → DWindow m ∈ docs w ∧ mw_id m ∈ ids.
Proof.
  assert (Hsel : ∀ m, m ∈ omap (fun d => match d with DWindow m => Some m | _ => None end)
                            (List.filter (is_window_in ids) (docs w)) →
                      DWindow m ∈ docs w ∧ mw_id m ∈ ids).
  { intros m Hm. apply list_elem_of_omap in Hm as (d & Hd & Hm).
    destruct d; try discriminate. injection Hm as ->.
    apply list_elem_of_In, filter_In in Hd as [Hd Hq]. split; [by apply list_elem_of_In|].
    simpl in Hq. apply existsb_exists in Hq as (i & Hi & Heq).
    apply Nat.eqb_eq in Heq. rewrite Heq. by apply list_elem_of_In. }
  unfold getMaintenanceWindows, try_catch, find, bind, access.
  destruct (faults w) as [ | [ | ] fs ]; simpl.
  - eexists _, _. split; [reflexivity|]. exact Hsel.
  - eexists _, _. split; [reflexivity|]. intros m Hm. inversion Hm.
  - eexists _, _. split; [reflexivity|]. exact Hsel.
Qed.

Lemma first_window_allows priority timestamp windows :
  (∀ m, m ∈ windows → mw_enabled m = true →
     ∃ l, mw_allowedPriorities m = Some l ∧ includesS l priority = true) →
  allowed (first_window (Some priority) timestamp windows) = true.
Proof.
  induction windows as [|m rest IH]; intros H; simpl; [reflexivity|].
  assert (Hrest : allowed (first_window (Some priority) timestamp rest) = true).
  { apply IH. intros m' Hm'. apply H. by apply list_elem_of_further. }
  destruct (mw_enabled m) eqn:Hen; simpl; [|exact Hrest].
  destruct (isInMaintenanceWindow m timestamp); [|exact Hrest].
  destruct (H m (list_elem_of_here _ _) Hen) as (l & -> & ->). reflexivity.
Qed.

(** X6.  A schedule is never blocked by maintenance windows that are disabled or
    that list its priority: when that holds of the windows the schedule
    refers to, then whatever other windows are stored, whatever the clock
    and the cron library say, and whether the store answers or not,
    [canJobRun] allows it. *)
Theorem listed_priority_is_never_blocked (schedule : Schedule) (priority : string)
    (timestamp : Z) (w : World) :
  s_priority schedule = Some priority →
  (∀ ids m, s_maintenanceWindowIds schedule = Some ids →
     DWindow m ∈ docs w → mw_id m ∈ ids → mw_enabled m = true →
     ∃ l, mw_allowedPriorities m = Some l ∧ priority ∈ l) →
  ∃ verdict w', canJobRun schedule timestamp w = (Ok verdict, w') ∧ allowed verdict = true.
Proof.
  intros Hp Hall. unfold MaintenanceWindows.canJobRun, try_catch.
  destruct (s_maintenanceWindowIds schedule) as [ [ | i ids ] | ]; simpl; eauto.
  destruct (getMaintenanceWindows_stored (i :: ids) w) as (windows & w' & Hg & Hst).
  rewrite (bind_ok _ _ _ _ _ Hg). unfold ret. eexists _, _. split; [reflexivity|].
  rewrite Hp. apply first_window_allows. intros m Hm Hen.
  destruct (Hst m Hm) as [Hstored Hid].
  destruct (Hall (i :: ids) m eq_refl Hstored Hid Hen) as (l & Hl & Hin).
  exists l. split; [exact Hl|].
  unfold includesS. apply existsb_exists. exists priority. split.
  - by apply list_elem_of_In.
  - apply String.eqb_refl.
Qed.

(** *** Creating a window *)

Lemma filter_none {A} (p : A → bool) (l : list A) :
  (∀ x, x ∈ l → p x = false) → List.filter p l = [].
Proof.
  induction l as [|a l IH]; intros H; simpl; [reflexivity|].
  rewrite (H a) by apply list_elem_of_here. apply IH. intros x Hx. apply H.
  by apply list_elem_of_further.
Qed.

(** The store after a window is created in it. *)
Lemma createMaintenanceWindow_healthy windowData w :
  faults w = [] →
  createMaintenanceWindow windowData w
  = (Ok (Some (next_id w)),
     set_next_id (S (next_id w))
       (set_docs (fun l => l ++ [DWindow (new_window windowData (next_id w))]) w)).
Proof.
  intros Hf. unfold createMaintenanceWindow, try_catch, bind.
  by rewrite (insertOne_healthy _ _ Hf).
Qed.

Lemma getMaintenanceWindows_created windowData w :
  faults w = [] →
  well_formed w →
  let w' := set_next_id (S (next_id w))
              (set_docs (fun l => l ++ [DWindow (new_window windowData (next_id w))]) w) in
  getMaintenanceWindows [next_id w] w' = (Ok [new_window windowData (next_id w)], w').
Proof.
  intros Hf [Hnd Hlt] w'. unfold getMaintenanceWindows, try_catch, bind.
  rewrite find_healthy by exact Hf.
  simpl. rewrite List.filter_app. simpl. rewrite Nat.eqb_refl. simpl.
  rewrite filter_none; [reflexivity|].
  intros d Hd. destruct d as [x|x|x|x y z|x|m]; try reflexivity. simpl.
  specialize (Hlt _ Hd). simpl in Hlt.
  destruct (Nat.eqb_spec (mw_id m) (next_id w)); [lia|reflexivity].
Qed.

(** X7.  While the store answers, a window that [createMaintenanceWindow] stores
    in a well-formed store is the one [getMaintenanceWindows] returns for the
    id it reported; its duration is never zero (3600 seconds when none or
    zero is given), and it is enabled unless [enabled] was given as
    false. *)
Theorem created_window_is_found (windowData : WindowData) (w : World) :
  faults w = [] →
  well_formed w →
  ∃ i w', createMaintenanceWindow windowData w = (Ok (Some i), w') ∧
    getMaintenanceWindows [i] w' = (Ok [new_window windowData i], w') ∧
    well_formed w' ∧
    mw_duration (new_window windowData i) ≠ 0 ∧
    (mw_enabled (new_window windowData i) = false ↔ wd_enabled windowData = Some false).
Proof.
  intros Hf Hwf.
  exists (next_id w). eexists. split; [by apply createMaintenanceWindow_healthy|].
  split_and!.
  - by apply getMaintenanceWindows_created.
  - destruct Hwf as [Hnd Hlt]. split; simpl.
    + rewrite map_app. simpl. apply NoDup_app. split_and!; [exact Hnd| |apply NoDup_singleton].
      intros x Hx Hx'. apply list_elem_of_singleton in Hx'. subst x.
      apply list_elem_of_fmap in Hx as (d & Hid & Hd). specialize (Hlt _ Hd). lia.
    + intros d Hd. apply elem_of_app in Hd as [Hd|Hd].
      * specialize (Hlt _ Hd). lia.
      * apply list_elem_of_singleton in Hd. subst d. simpl. lia.
  - simpl. unfold orZ. destruct (wd_duration windowData) as [d|]; [|lia].
    destruct (Z.eqb_spec d 0); lia.
  - simpl. destruct (wd_enabled windowData) as [ [ | ] | ]; simpl; split; congruence.
Qed.


End WindowProofs.

(** * Removing a window *)
Section WindowRemovalProofs.
Import Model Store Scheduler MaintenanceWindows WindowAdmin.

Variable tz_now : string → option Z.
Variable cron_previous : string → string → result (option Z).

Local Abbreviation canJobRun := (MaintenanceWindows.canJobRun tz_now cron_previous).

Lemma deleteOne_healthy q w :
  faults w = [] →
  Bulk.deleteOne q w
  = (Ok (if existsb q (docs w) then 1%nat else 0%nat), set_docs (Bulk.delete_first q) w).
Proof. intros H. unfold Bulk.deleteOne, bind. by rewrite access_healthy. Qed.

Lemma is_window_id i d : is_window i d = true → doc_id d = i.
Proof. destruct d; simpl; try discriminate. apply Nat.eqb_eq. Qed.

Lemma delete_first_sub q l d : d ∈ Bulk.delete_first q l → d ∈ l.
Proof.
  induction l as [|x l IH]; simpl; [done|].
  destruct (q x); [by apply list_elem_of_further|].
  intros H. apply elem_of_cons in H as [ -> | H ]; [apply list_elem_of_here|].
  apply list_elem_of_further. by apply IH.
Qed.

(** With unique identifiers, no window of the deleted id is left. *)
Lemma delete_first_gone i l :
  NoDup (map doc_id l) →
  ∀ d, d ∈ Bulk.delete_first (is_window i) l → is_window i d = false.
Proof.
  induction l as [|x l IH]; simpl; intros Hnd d Hd; [inversion Hd|].
  apply NoDup_cons in Hnd as [Hx Hnd].
  destruct (is_window i x) eqn:Hq.
  - destruct (is_window i d) eqn:Hd'; [|reflexivity].
    exfalso. apply Hx. apply is_window_id in Hq, Hd'. rewrite Hq, <- Hd'.
    apply list_elem_of_fmap. by exists d.
  - apply elem_of_cons in Hd as [ -> | Hd ]; [exact Hq|by apply IH].
Qed.

Lemma getMaintenanceWindows_healthy ids w :
  faults w = [] →
  getMaintenanceWindows ids w
  = (Ok (omap (fun d => match d with DWindow m => Some m | _ => None end)
           (List.filter (is_window_in ids) (docs w))), w).
Proof.
  intros Hf. unfold getMaintenanceWindows, try_catch.
  by rewrite (bind_ok _ _ _ _ _ (find_healthy _ _ Hf)).
Qed.

(** X9.  A deleted window blocks no more.  While the store answers and its
    identifiers are unique, [deleteMaintenanceWindow] reports success exactly
    when a window of that id was stored, and afterwards a schedule that
    refers to that window alone is allowed at every time, whatever its
    priority. *)
Theorem deleted_window_blocks_no_more (windowId : DocId) (schedule : Schedule)
    (timestamp : Z) (w : World) :
  faults w = [] →
  NoDup (map doc_id (docs w)) →
  s_maintenanceWindowIds schedule = Some [windowId] →
  ∃ success w',
    deleteMaintenanceWindow windowId w = (Ok success, w') ∧
    (success = true ↔ ∃ m, DWindow m ∈ docs w ∧ mw_id m = windowId) ∧
    canJobRun schedule timestamp w'
    = (Ok {| allowed := true; reason := "Not in any maintenance window" |}, w').
Proof.
  intros Hf Hnd Hids. eexists _, _. split.
  { unfold deleteMaintenanceWindow, try_catch.
    rewrite (bind_ok _ _ _ _ _ (deleteOne_healthy _ _ Hf)). reflexivity. }
  split.
  - destruct (existsb (is_window windowId) (docs w)) eqn:He; simpl.
    + split; [intros _|reflexivity]. apply existsb_exists in He as (d & Hd & Hq).
      destruct d as [x|x|x|x y z|x|m]; try discriminate Hq.
      exists m. split; [by apply list_elem_of_In|]. by apply Nat.eqb_eq.
    + split; [discriminate|]. intros (m & Hm & Hid). exfalso.
      assert (existsb (is_window windowId) (docs w) = true); [|congruence].
      apply existsb_exists. exists (DWindow m). split; [by apply list_elem_of_In|].
      simpl. by apply Nat.eqb_eq.
  - unfold MaintenanceWindows.canJobRun, try_catch. rewrite Hids.
    set (w' := set_docs (Bulk.delete_first (is_window windowId)) w).
    assert (Hf' : faults w' = []) by exact Hf.
    rewrite (bind_ok _ _ _ _ _ (getMaintenanceWindows_healthy _ _ Hf')).
    rewrite filter_none; [reflexivity|].
    intros d Hd. unfold w' in Hd. cbn in Hd.
    pose proof (delete_first_gone windowId _ Hnd d Hd) as Hq.
    destruct d as [x|x|x|x y z|x|m]; try reflexivity. simpl in *. by rewrite Hq.
Qed.

End WindowRemovalProofs.

(** * Target nodes *)
Section TargetProofs.
Import Model Store Scheduler Dispatch.

Lemma includesS_elem (l : list string) (s : string) : includesS l s = true ↔ s ∈ l.
Proof.
  unfold includesS. rewrite existsb_exists. split.
  - intros (x & Hx & He). apply String.eqb_eq in He. subst. by apply list_elem_of_In.
  - intros H. exists s. split; [by apply list_elem_of_In|apply String.eqb_refl].
Qed.

Lemma includesS_not_elem (l : list string) (s : string) : includesS l s = false ↔ s ∉ l.
Proof.
  rewrite <- includesS_elem. destruct (includesS l s); split; congruence.
Qed.

Lemma add_mesh_nodes_elem meshes agents : ∀ acc n,
  n ∈ fold_left (add_mesh_node meshes) agents acc ↔
  n ∈ acc ∨ ∃ key, (n, Some key) ∈ agents ∧ key ∈ meshes.
Proof.
  induction agents as [|[a k] agents IH]; intros acc n; simpl.
  { split; [by left|]. intros [H|(key & H & _)]; [exact H|inversion H]. }
  rewrite IH. unfold add_mesh_node. simpl. split.
  - intros [H|(key & H & Hk)].
    + destruct k as [key|].
      * destruct (includesS meshes key) eqn:Hm; [|by left].
        destruct (includesS acc a) eqn:Ha; simpl in H; [by left|].
        apply elem_of_app in H as [H|H]; [by left|].
        apply list_elem_of_singleton in H. subst n. right. exists key.
        split; [apply list_elem_of_here|by apply includesS_elem].
      * by left.
    + right. exists key. split; [by apply list_elem_of_further|exact Hk].
  - intros [H|(key & H & Hk)].
    + left. destruct k as [key'|]; [|exact H].
      destruct (includesS meshes key'); [|exact H].
      destruct (includesS acc a); simpl; [exact H|]. apply elem_of_app. by left.
    + apply elem_of_cons in H as [H|H].
      * injection H as Hn Hk'. subst n k. left.
        rewrite (proj2 (includesS_elem meshes key) Hk).
        destruct (includesS acc a) eqn:Ha; simpl.
        -- by apply includesS_elem.
        -- apply elem_of_app. right. apply list_elem_of_here.
      * right. eauto.
Qed.

Lemma add_mesh_nodes_NoDup meshes agents : ∀ acc,
  NoDup acc → NoDup (fold_left (add_mesh_node meshes) agents acc).
Proof.
  induction agents as [|[a k] agents IH]; intros acc Hacc; simpl; [exact Hacc|].
  apply IH. unfold add_mesh_node. simpl.
  destruct k as [key|]; [|exact Hacc].
  destruct (includesS meshes key); [|exact Hacc].
  destruct (includesS acc a) eqn:Ha; simpl; [exact Hacc|].
  apply NoDup_app. split_and!; [exact Hacc| |apply NoDup_singleton].
  intros x Hx Hx'. apply list_elem_of_singleton in Hx'. subst x.
  apply includesS_not_elem in Ha. contradiction.
Qed.

Lemma listed_online_elem (online l : list string) n :
  n ∈ List.filter (fun n => includesS online n) l ↔ n ∈ l ∧ n ∈ online.
Proof.
  rewrite list_elem_of_In, filter_In, <- list_elem_of_In, includesS_elem. reflexivity.
Qed.

(** X10.  The nodes a schedule targets are exactly the connected agents that
    [schedule.nodes] lists or whose mesh [schedule.meshes] lists; and an agent
    that is listed and belongs to a listed mesh is targeted once. *)
Theorem target_nodes_are_the_connected_selected_agents (nodes meshes : option (list string))
    (wsagents : list (string * option string)) :
  (∀ n, n ∈ getTargetNodes nodes meshes wsagents ↔
        n ∈ map fst wsagents ∧
        ((∃ l, nodes = Some l ∧ n ∈ l) ∨
         (∃ ms key, meshes = Some ms ∧ (n, Some key) ∈ wsagents ∧ key ∈ ms))) ∧
  (NoDup (default [] nodes) → NoDup (getTargetNodes nodes meshes wsagents)).
Proof.
  set (listed := match nodes with
                 | Some l => List.filter (fun n => includesS (map fst wsagents) n) l
                 | None => []
                 end).
  assert (Hl : ∀ n, n ∈ listed ↔ n ∈ map fst wsagents ∧ ∃ l, nodes = Some l ∧ n ∈ l).
  { intros n. unfold listed. destruct nodes as [l|].
    - rewrite listed_online_elem. split.
      + intros [H1 H2]. eauto.
      + intros (H2 & l' & [= <-] & H1). auto.
    - split; [inversion 1|]. intros (_ & l & Hn & _). discriminate. }
  assert (Hon : ∀ n key, (n, Some key) ∈ wsagents → n ∈ map fst wsagents).
  { intros n key H. apply list_elem_of_fmap. by exists (n, Some key). }
  split.
  - intros n. unfold getTargetNodes. fold listed.
    destruct meshes as [ [ | m ms ] | ].
    + rewrite Hl. split; [intros [H1 H2]; auto|].
      intros [H1 [H2|(ms & key & [= <-] & _ & Hk)]]; [auto|inversion Hk].
    + rewrite add_mesh_nodes_elem, Hl. split.
      * intros [[H1 H2]|(key & H & Hk)]; [auto|].
        split; [by eapply Hon|]. right. eauto.
      * intros [H1 [H2|(ms' & key & [= <-] & H & Hk)]]; [auto|]. right. eauto.
    + rewrite Hl. split; [intros [H1 H2]; auto|].
      intros [H1 [H2|(ms & key & Hm & _)]]; [auto|discriminate].
  - intros Hnd. unfold getTargetNodes. fold listed.
    assert (Hnl : NoDup listed).
    { unfold listed. destruct nodes as [l|]; [|apply NoDup_nil_2]. simpl in Hnd.
      clear Hl. induction Hnd as [|x l Hx Hnd IH]; simpl; [apply NoDup_nil_2|].
      destruct (includesS (map fst wsagents) x); [|exact IH].
      apply NoDup_cons. split; [|exact IH]. rewrite listed_online_elem. tauto. }
    destruct meshes as [ [ | m ms ] | ]; auto. by apply add_mesh_nodes_NoDup.
Qed.

End TargetProofs.

(** * Accepted workflows and their executions *)
Section AcceptanceProofs.
Import Model Builder.

Variable validURL : string → bool.

Lemma flat_map_nil {A B} (f : A → list B) (l : list A) :
  flat_map f l = [] → ∀ x, x ∈ l → f x = [].
Proof.
  induction l as [|a l IH]; simpl; intros H x Hx; [inversion Hx|].
  apply app_eq_nil in H as [Ha Hl].
  apply elem_of_cons in Hx as [ -> | Hx ]; auto.
Qed.

Lemma valid_no_errors (r : CheckResult) (errs : list string) :
  r = {| valid := match errs with [] => true | _ => false end; check_errors := errs |} →
  valid r = true → errs = [].
Proof. intros ->. simpl. by destruct errs. Qed.

Lemma if_negb_nil (b : bool) (x : string) :
  (if negb b then [x] else []) = [] → b = true.
Proof. destruct b; simpl; congruence. Qed.

Lemma includesS_In (l : list string) (s : string) : includesS l s = true → s ∈ l.
Proof.
  unfold includesS. rewrite existsb_exists.
  intros (x & Hx & He). apply String.eqb_eq in He. subst. by apply list_elem_of_In.
Qed.

(** What an accepted workflow is made of. *)
Lemma accepted_parts wf :
  valid (validateWorkflow validURL wf) = true →
  ∃ steps, w_steps wf = Some steps ∧ steps ≠ [] ∧
    NoDup (map id steps) ∧
    (∀ s, s ∈ steps → validateStep validURL s = []) ∧
    (∀ s, s ∈ steps → truthyS (onSuccess s) = true → default "" (onSuccess s) ∈ map id steps) ∧
    (∀ s, s ∈ steps → truthyS (onFailure s) = true → default "" (onFailure s) ∈ map id steps) ∧
    truthyS (w_startStep wf) = true ∧ default "" (w_startStep wf) ∈ map id steps ∧
    check_errors (checkCircularDependencies (w_startStep wf) steps) = [].
Proof.
  unfold validateWorkflow. destruct (w_steps wf) as [ [ | s0 steps ] | ]; try discriminate.
  intros H. exists (s0 :: steps).
  match type of H with valid {| valid := _; check_errors := ?e |} = true =>
    assert (He : e = []) by (eapply valid_no_errors; [reflexivity|exact H]) end.
  clear H.
  apply app_eq_nil in He as [Hu He]. apply app_eq_nil in He as [Hv He].
  apply app_eq_nil in He as [Hr He]. apply app_eq_nil in He as [Hs Hc].
  split_and!; [reflexivity|discriminate| | | | | | |exact Hc].
  - apply if_negb_nil in Hu. apply Nat.eqb_eq in Hu.
    apply size_list_to_set_NoDup. by rewrite <- Hu.
  - intros s Hin. exact (flat_map_nil _ _ Hv s Hin).
  - intros s Hin Ht. pose proof (flat_map_nil _ _ Hr s Hin) as Hs0. cbv beta in Hs0.
    apply app_eq_nil in Hs0 as [H1 _]. rewrite Ht in H1.
    apply if_negb_nil in H1. by apply includesS_In.
  - intros s Hin Ht. pose proof (flat_map_nil _ _ Hr s Hin) as Hs0. cbv beta in Hs0.
    apply app_eq_nil in Hs0 as [_ H1]. rewrite Ht in H1.
    apply if_negb_nil in H1. by apply includesS_In.
  - destruct (truthyS (w_startStep wf)); [reflexivity|discriminate Hs].
  - destruct (truthyS (w_startStep wf)); [|discriminate Hs].
    apply if_negb_nil in Hs. by apply includesS_In.
Qed.


End AcceptanceProofs.

Section AdvanceProofs.
Import Model Store Engine Builder Advance.

Variable escalate : Execution → Workflow → World → World.
Variable executeStep : Execution → Step → World → StepRun * World.

Local Abbreviation advance := (Advance.advance escalate executeStep).
Local Abbreviation executeWorkflow := (Advance.executeWorkflow escalate executeStep).
Local Abbreviation handleStepResult := (Advance.handleStepResult escalate).






End AdvanceProofs.

(** * The end of an execution *)
Section RunProofs.
Import Model Store Engine Builder Advance.

Lemma completeExecution_not_failed execution status reason w :
  faults w = [] →
  String.eqb status "failed" = false →
  completeExecution execution status reason w
  = (Ok tt,
     set_active (fun a => a ∖ {[e_id execution]})
       (set_docs (update_first (has_id (e_id execution))
                    (on_execution (set_completed status (clock w) (e_startTime execution)
                                     reason))) w)).
Proof.
  intros Hf Hs. unfold completeExecution, try_catch.
  unfold bind at 1. unfold now at 1.
  unfold bind at 1. rewrite (updateOne_healthy _ _ _ Hf).
  unfold bind at 1. rewrite Hs. reflexivity.
Qed.


Lemma on_execution_compose q f g l :
  update_first q (on_execution g ∘ on_execution f) l
  = update_first q (on_execution (g ∘ f)) l.
Proof. apply update_first_ext. by intros []. Qed.

Section Loop.
Variable escalate : Execution → Workflow → World → World.
Variable executeStep : Execution → Step → World → StepRun * World.

Local Abbreviation advance := (Advance.advance escalate executeStep).
Local Abbreviation executeWorkflow := (Advance.executeWorkflow escalate executeStep).

(** X17.  A step that fails and has no failure path ends the workflow, and the
    execution is then completed as a success: with escalation off and the
    store answering, an execution whose current step is no condition, does
    not end with status 'success' and has no [onFailure] is left with status
    'success', no completion reason, no current step, and the failed result
    recorded last. *)
Theorem failed_step_without_failure_path_completes_as_success
    (workflow : Workflow) (steps : list Step) (execution stored stored2 : Execution)
    (x : string) (step : Step) (run : StepRun) (w w2 : World) (fuel : nat) :
  faults w = [] →
  js_find (has_id (e_id execution)) (docs w) = Some (DExecution stored) →
  e_status stored ≠ "cancelled" →
  w_steps workflow = Some steps →
  w_escalationEnabled workflow = false →
  e_currentStep execution = Some x → x ≠ "" →
  js_find (fun s => String.eqb (id s) x) steps = Some step →
  isS (type step) "condition" = false →
  truthyS (onFailure step) = false →
  executeStep execution step w = (run, w2) →
  o_status (run_outcome run) ≠ "success" →
  faults w2 = [] →
  js_find (has_id (e_id execution)) (docs w2) = Some (DExecution stored2) →
  ∃ w' final,
    executeWorkflow (S (S fuel)) execution workflow w = Some (Ok tt, w') ∧
    js_find (has_id (e_id execution)) (docs w') = Some (DExecution final) ∧
    e_status final = "success" ∧
    e_completionReason final = None ∧
    e_currentStep final = None ∧
    e_stepResults final = e_stepResults execution ++ [step_result step run].
Proof.
  intros Hf Hst Hnc Hsteps Hesc Hcur Hx Hfind Htype Hno Hrun Hfail Hf2 Hst2.
  assert (Hnext : next_step step (run_outcome run) = None).
  { unfold next_step, or_null. rewrite Htype, Hno.
    by rewrite (proj2 (String.eqb_neq _ _) Hfail). }
  unfold Advance.executeWorkflow. rewrite Hcur.
  cbn [Advance.advance]. rewrite (truthyS_intro _ Hx). cbn [negb].
  rewrite (findOne_healthy _ _ Hf), (find_execution_of_id _ _ _ Hst).
  rewrite (proj2 (String.eqb_neq _ _) Hnc), Hsteps. simpl default. rewrite Hfind, Hrun.
  unfold Advance.handleStepResult, escalates. rewrite Hesc, andb_false_r.
  unfold ret. rewrite (updateOne_healthy _ _ _ Hf2), Hnext.
  cbn [truthyS negb].
  rewrite completeExecution_not_failed by (exact Hf2 || reflexivity).
  eexists _, _. split; [reflexivity|]. cbn [docs set_active set_docs].
  rewrite update_first_twice by (intros d Hd; by rewrite has_id_on_execution).
  rewrite on_execution_compose.
  erewrite find_id_after_update; [|intros; reflexivity|exact Hst2].
  split_and!; reflexivity.
Qed.

End Loop.

(** *** Cancellation *)

Lemma updateMany_healthy q f w :
  faults w = [] → Bulk.updateMany q f w = (Ok tt, set_docs (Bulk.update_all q f) w).
Proof. intros H. unfold Bulk.updateMany, bind. by rewrite access_healthy. Qed.





End RunProofs.

(** * Triggers that fail *)
Section TriggerFailureProofs.
Import Model Store Engine.

(** X19.  A trigger that raises creates nothing: whether the workflow is missing,
    disabled or rejected by validation, or the store fails at any of its
    accesses, the collection, the next identifier and the set of active
    executions are as they were before the call. *)
Theorem failed_trigger_creates_nothing (validURL : string → bool) (workflowId : DocId)
    (nodeId triggeredBy : string) (triggerType : option string) (w w' : World)
    (message : string) :
  triggerWorkflow validURL workflowId nodeId triggeredBy triggerType w
    = (Raised message, w') →
  docs w' = docs w ∧ next_id w' = next_id w ∧ activeExecutions w' = activeExecutions w.
Proof.
  unfold triggerWorkflow. unfold bind at 1.
  destruct (findOne (is_workflow workflowId) w) as [[wf|e] w1] eqn:H1.
  2:{ intros [= <- <-]. apply findOne_frame in H1. tauto. }
  apply findOne_frame in H1 as (D1 & N1 & C1 & A1 & _).
  destruct wf as [[workflow|x|x|x y z|x|x]|]; unfold throw;
    try (intros [= <- <-]; auto; fail).
  destruct (w_enabled workflow); cbn [negb]; [|intros [= <- <-]; auto].
  unfold bind at 1.
  destruct (findOne (is_running_for workflowId nodeId) w1) as [[existing|e] w2] eqn:H2.
  2:{ intros [= <- <-]. apply findOne_frame in H2. intuition congruence. }
  apply findOne_frame in H2 as (D2 & N2 & C2 & A2 & _).
  assert (Hfresh :
    (if negb (Builder.valid (Builder.validateWorkflow validURL workflow))
     then throw ("Workflow validation failed: "
                 +:+ join ", " (Builder.check_errors (Builder.validateWorkflow validURL workflow)))
     else
       startTime <~ now ;;
       i <~ insertOne (fun i =>
              DExecution (new_execution workflowId workflow nodeId triggeredBy
                            triggerType startTime i)) ;;
       (fun w => (Ok tt, set_active (fun a => {[i]} ∪ a) w)) ;;;
       ret (new_execution workflowId workflow nodeId triggeredBy triggerType startTime i)) w2
    = (Raised message, w') →
    docs w' = docs w ∧ next_id w' = next_id w ∧ activeExecutions w' = activeExecutions w).
  { destruct (Builder.valid _); cbn [negb]; unfold throw.
    - unfold bind at 1. unfold now at 1. unfold bind at 1.
      destruct (insertOne _ w2) as [[i|e] w3] eqn:H3; [discriminate|].
      intros [= <- <-]. apply insertOne_raised in H3. intuition congruence.
    - intros [= <- <-]. intuition congruence. }
  destruct existing as [[x|e|x|x y z|x|x]|]; try exact Hfresh. discriminate.
Qed.

End TriggerFailureProofs.

(** * Condition steps *)
Section ConditionStepProofs.
Import Model Store Engine Advance.

Variable number_to_string : Q → string.
Variable regex_test : string → string → string → option bool.
Variable json_parse : string → option Js.value.

Local Abbreviation evaluate := (Conditions.evaluate number_to_string regex_test json_parse).
Local Abbreviation evaluate_at := (Conditions.evaluate_at number_to_string regex_test json_parse).
Local Abbreviation executeConditionStep :=
  (Advance.executeConditionStep number_to_string regex_test json_parse).

(** An exit-code condition is false against a job result that is an object
    without [exitCode], or with [exitCode] null, whatever the operator. *)
Lemma exit_code_missing depth condition fields :
  Js.get condition "type" = Some (Js.VStr "exitCode") →
  js_find (fun kv => String.eqb (fst kv) "exitCode") fields = None ∨
  (∃ k, js_find (fun kv => String.eqb (fst kv) "exitCode") fields = Some (k, Js.VNull)) ∨
  (∃ k, js_find (fun kv => String.eqb (fst kv) "exitCode") fields = Some (k, Js.VUndefined)) →
  evaluate_at depth condition (Js.VObj fields) = false.
Proof.
  intros Ht Hf.
  assert (Hobj : ∃ cf, condition = Js.VObj cf).
  { destruct condition; eauto; vm_compute in Ht; discriminate. }
  destruct Hobj as (cf & ->).
  assert (He : Conditions.evaluateExitCode number_to_string regex_test (Js.VObj cf) (Js.VObj fields)
               = Some false).
  { unfold Conditions.evaluateExitCode. cbn [Js.get].
    destruct Hf as [ Hf | [ (k & Hf) | (k & Hf) ] ]; rewrite Hf; reflexivity. }
  destruct depth; cbn [Conditions.evaluate_at]; rewrite Ht; cbn [mbind option_bind];
    cbn [Js.truthy negb]; simpl Js.strict_eq; cbv iota; rewrite He; reflexivity.
Qed.

Lemma step_result_has_no_exit_code r :
  ∃ fields, step_result_value r = Js.VObj fields ∧
    js_find (fun kv => String.eqb (fst kv) "exitCode") fields = None.
Proof. eexists. split; reflexivity. Qed.

(** X20.  A condition step whose condition is of type 'exitCode' always takes its
    false branch: the step results an execution records carry no exit code,
    and the exit-code evaluator is false without one, whatever the operator
    and the expected code. *)
Theorem exit_code_condition_step_takes_the_false_branch (execution : Execution)
    (step : Step) (c : Js.value) :
  condition step = Some c →
  Js.get c "type" = Some (Js.VStr "exitCode") →
  o_conditionResult (executeConditionStep execution step) = Some false ∧
  (isS (type step) "condition" = true →
   next_step step (executeConditionStep execution step) = onFalse step).
Proof.
  intros Hc Ht.
  assert (Hr : o_conditionResult (executeConditionStep execution step) = Some false).
  { unfold Advance.executeConditionStep.
    destruct (last (e_stepResults execution)) as [previous|]; [|reflexivity].
    cbn [o_conditionResult]. rewrite Hc. cbn [default]. f_equal.
    destruct (step_result_has_no_exit_code previous) as (fields & -> & Hnone).
    unfold Conditions.evaluate. apply exit_code_missing; auto. }
  split; [exact Hr|]. intros Hcond. unfold next_step. by rewrite Hcond, Hr.
Qed.

End ConditionStepProofs.

(** * Composite conditions, thresholds and validation *)
Section CompositeProofs.
Import Js Conditions.

Variable number_to_string : Q → string.
Variable regex_test : string → string → string → option bool.
Variable json_parse : string → option value.

Local Abbreviation evaluate := (Conditions.evaluate number_to_string regex_test json_parse).
Local Abbreviation evaluate_at := (Conditions.evaluate_at number_to_string regex_test json_parse).

Lemma get_type_object condition t :
  get condition "type" = Some (VStr t) → ∃ fields, condition = VObj fields.
Proof. intros Ht. destruct condition; eauto; vm_compute in Ht; discriminate. Qed.

(** One unfolding of [evaluate] on a composite condition, the nested
    conditions evaluated on their own. *)
Lemma evaluate_composite condition jobResult items logic :
  get condition "type" = Some (VStr "composite") →
  get condition "conditions" = Some (VArr items) →
  get condition "logic" = Some logic →
  evaluate condition jobResult =
  if strict_eq (or_else logic (VStr "and")) (VStr "and")
  then forallb (fun c => evaluate c jobResult) items
  else if strict_eq (or_else logic (VStr "and")) (VStr "or")
  then existsb (fun c => evaluate c jobResult) items
  else if strict_eq (or_else logic (VStr "and")) (VStr "not")
  then negb (evaluate (nth 0 items VUndefined) jobResult)
  else false.
Proof.
  intros Ht Hc Hl.
  destruct (get_type_object _ _ Ht) as (fields & ->).
  pose proof (nesting_get _ _ _ Hc) as Hn.
  assert (Hitem : ∀ c, c ∈ items →
            evaluate c jobResult = evaluate_at (nesting (VObj fields)) c jobResult).
  { intros c Hin. apply evaluate_any_depth. apply nesting_item in Hin.
    simpl in *. lia. }
  unfold Conditions.evaluate at 1. cbn [Conditions.evaluate_at].
  rewrite Ht. cbn [mbind option_bind truthy]. simpl (String.eqb "composite" "").
  cbn [negb]. simpl strict_eq. cbv iota.
  rewrite Hl, Hc. cbn [mbind option_bind].
  change (or_else (VArr items) (VArr [])) with (VArr items).
  destruct (strict_eq (or_else logic (VStr "and")) (VStr "and")).
  { cbn [default]. apply forallb_agree. intros c Hin. symmetry. by apply Hitem. }
  destruct (strict_eq (or_else logic (VStr "and")) (VStr "or")).
  { cbn [default]. apply existsb_agree. intros c Hin. symmetry. by apply Hitem. }
  destruct (strict_eq (or_else logic (VStr "and")) (VStr "not")); [|reflexivity].
  change (get (VArr items) "0") with (Some (nth 0 items VUndefined)).
  cbn [mbind option_bind default].
  unfold id. f_equal. symmetry. apply evaluate_any_depth.
  destruct items as [|c items]; [simpl; lia|].
  change (nth 0 (c :: items) VUndefined) with c.
  pose proof (nesting_item (c :: items) c (list_elem_of_here _ _)). simpl in *. lia.
Qed.

(** X23.  A composite condition is the logic of its nested conditions, each
    evaluated on its own: 'and' (the default) is true when all are, 'or'
    when one is, and 'not' is the negation of the first nested condition,
    the others being ignored; an empty 'not' is true. *)
Theorem composite_is_the_logic_of_its_parts (condition jobResult : value)
    (items : list value) (logic : value) :
  get condition "type" = Some (VStr "composite") →
  get condition "conditions" = Some (VArr items) →
  get condition "logic" = Some logic →
  (truthy logic = false ∨ logic = VStr "and" →
   evaluate condition jobResult = forallb (fun c => evaluate c jobResult) items) ∧
  (logic = VStr "or" →
   evaluate condition jobResult = existsb (fun c => evaluate c jobResult) items) ∧
  (logic = VStr "not" →
   evaluate condition jobResult = negb (evaluate (nth 0 items VUndefined) jobResult) ∧
   (items = [] → evaluate condition jobResult = true)).
Proof.
  intros Ht Hc Hl. rewrite (evaluate_composite _ _ _ _ Ht Hc Hl).
  split_and!.
  - intros [Hf | -> ]; [|reflexivity]. unfold or_else. rewrite Hf. reflexivity.
  - intros ->. reflexivity.
  - intros ->. split; [reflexivity|]. intros ->. reflexivity.
Qed.

(** *** Thresholds on a field that is missing *)

Lemma append_empty_r (s : string) : (s +:+ "")%string = s.
Proof.
  induction s as [|c s IH]; [reflexivity|].
  change (String c (s +:+ "") = String c s). by rewrite IH.
Qed.

Lemma string_rev_twice s : ∀ a b, string_rev (string_rev s a) b = string_rev a (s +:+ b).
Proof.
  induction s as [|c s IH]; intros a b; [reflexivity|].
  change (string_rev (string_rev s (String c a)) b = string_rev (String c a) (s +:+ b)).
  apply IH.
Qed.

Lemma includes_dot_cons c r :
  includes (String c r) "." = false → Ascii.eqb c "."%char = false ∧ includes r "." = false.
Proof.
  cbn [includes startsWith]. replace (startsWith r "") with true by (by destruct r).
  rewrite andb_true_r, Ascii.eqb_sym. apply orb_false_iff.
Qed.

(** A path without a dot is one part. *)
Lemma split_dots_single s : ∀ part,
  includes s "." = false → split_dots s part = [string_rev (string_rev s part) ""].
Proof.
  induction s as [|c r IH]; intros part H; [reflexivity|].
  apply includes_dot_cons in H as [Hc Hr]. cbn [split_dots]. rewrite Hc. by apply IH.
Qed.

Lemma split_dot_single s : includes s "." = false → split_dot s = [s].
Proof.
  intros H. unfold split_dot. rewrite (split_dots_single _ _ H), string_rev_twice.
  cbn [string_rev]. by rewrite append_empty_r.
Qed.

(** X24.  A threshold on a field that the job result does not hold fails closed
    when the field is named by a single path segment: the extraction gives
    [undefined], the [isNaN] guard catches it, and the condition is false for
    every operator and threshold value. *)
Theorem threshold_on_missing_plain_field_is_false (condition : value)
    (field : string) (fields : list (string * value)) :
  get condition "type" = Some (VStr "threshold") →
  get condition "field" = Some (VStr field) →
  field ≠ "" → includes field "." = false → includes field "[" = false →
  js_find (fun kv => String.eqb (fst kv) field) fields = None →
  evaluate condition (VObj fields) = false.
Proof.
  intros Ht Hfield Hne Hdot Hbr Hmiss.
  destruct (get_type_object _ _ Ht) as (cf & ->).
  assert (Hx : extractField (VObj fields) (VStr field) = Some VUndefined).
  { unfold extractField. cbn [truthy]. rewrite (proj2 (String.eqb_neq _ _) Hne).
    cbn [negb]. rewrite (split_dot_single _ Hdot).
    cbn [walk]. rewrite Hbr. cbn [get]. by rewrite Hmiss. }
  unfold Conditions.evaluate. cbn [Conditions.evaluate_at].
  rewrite Ht. cbn [mbind option_bind truthy]. simpl (String.eqb "threshold" "").
  cbn [negb]. simpl strict_eq. cbv iota.
  unfold evaluateThreshold. rewrite Hfield. cbn [mbind option_bind get]. rewrite Hx.
  reflexivity.
Qed.

(** *** Validation of condition definitions *)

(** X25.  [validateCondition] accepts a condition of a type that names no
    evaluator, and [evaluate] is false on it against every job result:
    validation never rejects an unknown type. *)
Theorem unknown_condition_type_is_accepted_but_never_true (condition : value) (t : string) :
  get condition "type" = Some (VStr t) →
  t ≠ "" →
  t ≠ "exitCode" → t ≠ "outputPattern" → t ≠ "threshold" → t ≠ "jsonPath" →
  t ≠ "composite" →
  ConditionCheck.validateCondition condition
    = {| ConditionCheck.valid := true; ConditionCheck.errors := [] |} ∧
  ∀ jobResult, evaluate condition jobResult = false.
Proof.
  intros Ht H0 H1 H2 H3 H4 H5. split.
  - destruct (get_type_object _ _ Ht) as (cf & ->).
    unfold ConditionCheck.validateCondition. cbn [truthy negb]. rewrite Ht.
    cbn [default from_option]. unfold id. cbn [truthy strict_eq].
    rewrite !(proj2 (String.eqb_neq _ _)) by assumption. reflexivity.
  - intros jobResult. unfold Conditions.evaluate. by eapply unknown_type_false.
Qed.

End CompositeProofs.

(** * Quarantine *)
Section QuarantineProofs.
Import Model Store Quarantine.

Lemma quarantineNode_healthy nodeId w :
  faults w = [] →
  quarantineNode nodeId w
  = (Ok {| q_success := true; q_message := "Node quarantined" |},
     set_docs (Bulk.update_all (is_pending_job_on nodeId) Bulk.cancel_job)
       (set_next_id (S (next_id w))
          (set_docs (fun l => l ++ [DQuarantine (next_id w) nodeId true])
             (set_quarantined (fun q => {[nodeId]} ∪ q) w)))).
Proof.
  intros Hf. unfold quarantineNode, try_catch. unfold bind at 1. unfold bind at 1.
  rewrite insertOne_healthy by exact Hf.
  unfold bind at 1. rewrite updateMany_healthy by exact Hf. reflexivity.
Qed.

Lemma unquarantineNode_healthy nodeId w :
  faults w = [] →
  unquarantineNode nodeId w
  = (Ok {| q_success := true; q_message := "Node unquarantined" |},
     set_docs (Bulk.update_all (is_active_quarantine_of nodeId) lift_quarantine)
       (set_quarantined (fun q => q ∖ {[nodeId]}) w)).
Proof.
  intros Hf. unfold unquarantineNode, try_catch. unfold bind at 1. unfold bind at 1.
  rewrite updateMany_healthy by exact Hf. reflexivity.
Qed.

Lemma quarantine_after_cancel_jobs q l i n a :
  DQuarantine i n a ∈ Bulk.update_all q Bulk.cancel_job l ↔ DQuarantine i n a ∈ l.
Proof.
  unfold Bulk.update_all. rewrite list_elem_of_fmap. split.
  - intros (d & Hd & Hin). destruct (q d).
    + destruct d; simpl in Hd; try discriminate. by rewrite Hd.
    + by rewrite Hd.
  - intros Hin. exists (DQuarantine i n a). split; [|exact Hin].
    by destruct (q (DQuarantine i n a)).
Qed.

Lemma access_memory w r w' :
  access w = (r, w') → quarantinedNodes w' = quarantinedNodes w.
Proof. unfold access. destruct (faults w) as [ | [ | ] fs ]; by intros [= <- <-]. Qed.

Lemma insertOne_memory mk w r w' :
  insertOne mk w = (r, w') → quarantinedNodes w' = quarantinedNodes w.
Proof.
  unfold insertOne, bind. destruct (access w) as [[[]|e] w1] eqn:Ha;
    intros [= <- <-]; by apply access_memory in Ha.
Qed.

Lemma updateMany_memory q f w r w' :
  Bulk.updateMany q f w = (r, w') → quarantinedNodes w' = quarantinedNodes w.
Proof.
  unfold Bulk.updateMany, bind. destruct (access w) as [[[]|e] w1] eqn:Ha;
    intros [= <- <-]; by apply access_memory in Ha.
Qed.

Lemma quarantineNode_memory nodeId w :
  quarantinedNodes (snd (quarantineNode nodeId w)) = {[nodeId]} ∪ quarantinedNodes w.
Proof.
  unfold quarantineNode, try_catch. unfold bind at 1. unfold bind at 1.
  destruct (insertOne _ _) as [[i|e] w1] eqn:H1; apply insertOne_memory in H1;
    [|exact H1].
  unfold bind at 1.
  destruct (Bulk.updateMany _ _ w1) as [[[]|e] w2] eqn:H2; apply updateMany_memory in H2;
    cbn in *; congruence.
Qed.

(** X27.  [quarantineNode] holds the node quarantined in memory whether the store
    answers or not; while it answers, the node gets one active quarantine
    record, none of its jobs is left pending, and the jobs of other nodes are
    as they were. *)
Theorem quarantine_cancels_the_pending_jobs_of_the_node (nodeId : string) :
  (∀ w, isNodeQuarantined (snd (quarantineNode nodeId w)) nodeId = true) ∧
  (∀ w, faults w = [] →
     ∃ report w', quarantineNode nodeId w = (Ok report, w') ∧ q_success report = true ∧
       DQuarantine (next_id w) nodeId true ∈ docs w' ∧
       (∀ j, DJob j ∈ docs w' → j_node j = nodeId → j_state j ≠ "pending") ∧
       (∀ j, DJob j ∈ docs w → j_node j ≠ nodeId → DJob j ∈ docs w')).
Proof.
  split.
  - intros w. unfold isNodeQuarantined. rewrite quarantineNode_memory.
    apply bool_decide_eq_true_2. set_solver.
  - intros w Hf. eexists _, _. split; [by apply quarantineNode_healthy|].
    split_and!; [reflexivity| | |].
    + cbn. apply quarantine_after_cancel_jobs. apply elem_of_app. right.
      apply list_elem_of_here.
    + intros j Hj Hn Hp. cbn in Hj. unfold Bulk.update_all in Hj.
      apply list_elem_of_fmap in Hj as (d & Hd & _).
      destruct (is_pending_job_on nodeId d) eqn:Hq.
      * destruct d; simpl in Hd; try discriminate. injection Hd as ->. discriminate Hp.
      * subst d. simpl in Hq. rewrite Hn, Hp, String.eqb_refl in Hq. discriminate.
    + intros j Hj Hn. cbn. unfold Bulk.update_all. apply list_elem_of_fmap.
      exists (DJob j). split.
      * simpl. by rewrite (proj2 (String.eqb_neq _ _) Hn).
      * apply elem_of_app. by left.
Qed.

Lemma load_all records : ∀ w,
  ∃ w', for_each records (fun record =>
            match record with
            | DQuarantine _ nodeId _ =>
                fun w => (Ok tt, set_quarantined (fun q => {[nodeId]} ∪ q) w)
            | _ => ret tt
            end) w = (Ok tt, w') ∧
        docs w' = docs w ∧
        ∀ n, n ∈ quarantinedNodes w' ↔
             n ∈ quarantinedNodes w ∨ ∃ i a, DQuarantine i n a ∈ records.
Proof.
  induction records as [|r records IH]; intros w.
  { exists w. split_and!; auto. intros n. split; [by left|].
    intros [H|(i & a & H)]; [exact H|inversion H]. }
  cbn [for_each].
  assert (Hskip : (∀ i n a, r ≠ DQuarantine i n a) →
    ∃ w', (ret tt ;;; for_each records (fun record =>
            match record with
            | DQuarantine _ nodeId _ =>
                fun w => (Ok tt, set_quarantined (fun q => {[nodeId]} ∪ q) w)
            | _ => ret tt
            end)) w = (Ok tt, w') ∧
        docs w' = docs w ∧
        ∀ n, n ∈ quarantinedNodes w' ↔
             n ∈ quarantinedNodes w ∨ ∃ i a, DQuarantine i n a ∈ r :: records).
  { intros Hr. destruct (IH w) as (w' & Hrun & Hd & Hq). exists w'.
    split_and!; auto. intros n. rewrite Hq. split.
    - intros [H|(i & a & H)]; [by left|]. right. exists i, a. by apply list_elem_of_further.
    - intros [H|(i & a & H)]; [by left|]. right. exists i, a.
      apply elem_of_cons in H as [H|H]; [|exact H]. by destruct (Hr i n a). }
  destruct r as [x|x|x|i0 n0 a0|x|x]; try (apply Hskip; intros; discriminate).
  destruct (IH (set_quarantined (fun q => {[n0]} ∪ q) w)) as (w' & Hrun & Hd & Hq).
  exists w'. split_and!; auto. intros n. rewrite Hq. cbn. split.
  - intros [H|(i & a & H)].
    + apply elem_of_union in H as [H|H]; [|by left].
      apply elem_of_singleton in H. subst n. right. exists i0, a0. apply list_elem_of_here.
    + right. exists i, a. by apply list_elem_of_further.
  - intros [H|(i & a & H)]; [left; set_solver|].
    apply elem_of_cons in H as [H|H]; [|right; eauto].
    injection H as -> -> ->. left. set_solver.
Qed.

(** X28.  The nodes held quarantined in memory are those with an active
    quarantine record: while the store answers, [quarantineNode] and
    [unquarantineNode] keep it so, and [loadQuarantinedNodes] makes it so
    after a restart. *)
Theorem quarantine_memory_mirrors_the_store :
  (∀ nodeId w, faults w = [] → mirrors w → mirrors (snd (quarantineNode nodeId w))) ∧
  (∀ nodeId w, faults w = [] → mirrors w → mirrors (snd (unquarantineNode nodeId w))) ∧
  (∀ w, faults w = [] → mirrors (snd (loadQuarantinedNodes (restart w)))).
Proof.
  split_and!.
  - intros nodeId w Hf Hm n. rewrite quarantineNode_memory.
    rewrite (quarantineNode_healthy _ _ Hf). cbn.
    rewrite elem_of_union, elem_of_singleton, (Hm n). split.
    + intros [ -> | (i & H) ].
      * exists (next_id w). apply quarantine_after_cancel_jobs, elem_of_app. right.
        apply list_elem_of_here.
      * exists i. apply quarantine_after_cancel_jobs, elem_of_app. by left.
    + intros (i & H). apply quarantine_after_cancel_jobs, elem_of_app in H as [H|H].
      * right. eauto.
      * apply list_elem_of_singleton in H. injection H as _ ->. by left.
  - intros nodeId w Hf Hm n. rewrite (unquarantineNode_healthy _ _ Hf). cbn.
    rewrite elem_of_difference, elem_of_singleton, (Hm n).
    unfold Bulk.update_all. split.
    + intros [(i & H) Hne]. exists i. apply list_elem_of_fmap.
      exists (DQuarantine i n true). split; [|exact H]. simpl.
      by rewrite (proj2 (String.eqb_neq _ _) Hne).
    + intros (i & H). apply list_elem_of_fmap in H as (d & Hd & Hin).
      destruct (is_active_quarantine_of nodeId d) eqn:Hq.
      * destruct d; simpl in Hd; discriminate.
      * subst d. split; [eauto|]. intros ->. simpl in Hq.
        rewrite String.eqb_refl in Hq. discriminate.
  - intros w Hf. unfold loadQuarantinedNodes, try_catch.
    assert (Hf' : faults (restart w) = []) by exact Hf.
    rewrite (bind_ok _ _ _ _ _ (find_healthy _ _ Hf')).
    destruct (load_all (List.filter is_active_quarantine (docs (restart w))) (restart w))
      as (w' & -> & Hd & Hq).
    intros n. cbn [snd]. rewrite Hq, Hd. cbn. split.
    + intros [H|(i & a & H)]; [set_solver|].
      apply list_elem_of_In, filter_In in H as [H Ha]. simpl in Ha. subst a.
      exists i. by apply list_elem_of_In.
    + intros (i & H). right. exists i, true.
      apply list_elem_of_In, filter_In. split; [by apply list_elem_of_In|reflexivity].
Qed.

End QuarantineProofs.

(** * The cycle check *)
Section SoundProofs.
Import Model Builder Paths.

Variable sm : gmap string Step.

Local Abbreviation chain := (Paths.chain sm).
Local Abbreviation Sound := (Paths.Sound sm).

Lemma chain_snoc path s :
  chain path → (∀ l, last path = Some l → followed_edge sm l s) → chain (path ++ [s]).
Proof.
  intros Hc Hl l1 a b l2 Heq.
  destruct l2 as [|c l2 _] using rev_ind.
  - change (l1 ++ [a; b]) with (l1 ++ [a] ++ [b]) in Heq. rewrite app_assoc in Heq.
    apply app_inj_tail in Heq as [Hp <-]. apply Hl. rewrite Hp. apply last_snoc.
  - rewrite !app_comm_cons, app_assoc in Heq. apply app_inj_tail in Heq as [Hp _].
    by apply (Hc l1 a b l2).
Qed.

Lemma chain_reach path : ∀ x l,
  chain path → x ∈ path → last path = Some l → rtc (followed_edge sm) x l.
Proof.
  intros x l Hc Hx Hl. apply list_elem_of_split in Hx as (l1 & l2 & ->).
  revert x l1 Hc Hl. induction l2 as [|b l2 IH]; intros x l1 Hc Hl.
  - rewrite last_snoc in Hl. injection Hl as <-. apply rtc_refl.
  - eapply rtc_l; [by apply (Hc l1 x b l2)|].
    apply (IH b (l1 ++ [x])).
    + by rewrite <- app_assoc.
    + by rewrite <- app_assoc.
Qed.

Lemma fold_sound fuel path s step :
  Sound fuel → sm !! s = Some step → last path = Some s → chain path →
  ∀ tgts a st2,
    (∀ t, t ∈ tgts → t ∈ followed step) →
    foldl (visit sm fuel path) (Some a) tgts = Some st2 →
    recursionStack a = list_to_set path →
    recursionStack st2 = recursionStack a ∧
    (errors st2 = errors a ∨ ∃ c, tc (followed_edge sm) c c).
Proof.
  intros IH Hs Hlast Hc tgts. induction tgts as [|t tgts IHl]; intros a st2 Hsub Hf Ha.
  { inversion Hf; subst. auto. }
  change (foldl (visit sm fuel path) (visit sm fuel path (Some a) t) tgts = Some st2) in Hf.
  rewrite visit_Some in Hf.
  assert (Hsub' : ∀ t0, t0 ∈ tgts → t0 ∈ followed step).
  { intros t0 H0. apply Hsub. by apply list_elem_of_further. }
  destruct (truthyS t) eqn:Ht; [|by apply IHl].
  destruct (detectCycle fuel sm t path a) as [a1|] eqn:Hd.
  2:{ rewrite visit_None in Hf. discriminate. }
  destruct (IH _ _ _ _ Hd Ha Hc) as [S1 E1].
  { intros l Hl _. rewrite Hlast in Hl. injection Hl as <-.
    destruct (truthyS_Some _ Ht) as (y & -> & Hne & _). exists step.
    split; [exact Hs|]. split; [|exact Hne]. apply Hsub. apply list_elem_of_here. }
  destruct (IHl a1 st2 Hsub' Hf) as [S2 E2]; [congruence|].
  split; [congruence|]. destruct E1 as [E1|E1]; [|by right].
  destruct E2 as [E2|E2]; [left; congruence|by right].
Qed.

Lemma detect_sound fuel : Sound fuel.
Proof.
  induction fuel as [|fuel IH]; intros x p st st' Hd Hst Hc Hl; [discriminate|].
  rewrite detectCycle_S in Hd.
  destruct (truthyS x) eqn:Hx; cbn [negb] in Hd.
  2:{ inversion Hd; subst. auto. }
  cbv zeta in Hd.
  set (s := default "" x) in *.
  destruct (decide (s ∈ recursionStack st)) as [Hin|Hnin].
  { inversion Hd; subst st'; clear Hd. split; [reflexivity|]. right. simpl.
    rewrite Hst in Hin. apply elem_of_list_to_set in Hin.
    destruct (last p) as [l|] eqn:Hlast.
    2:{ apply last_None in Hlast. subst p. inversion Hin. }
    exists s. eapply tc_rtc_l; [by eapply chain_reach|]. apply tc_once. by apply Hl. }
  destruct (decide (s ∈ visited st)) as [Hv|Hnv].
  { inversion Hd; subst. auto. }
  set (st1 := {| visited := {[s]} ∪ visited st;
                 recursionStack := {[s]} ∪ recursionStack st;
                 errors := errors st |}) in *.
  assert (Hst1 : recursionStack st1 = list_to_set (p ++ [s])).
  { unfold st1; simpl. rewrite Hst, list_to_set_app_L. simpl. set_solver. }
  assert (Hc1 : chain (p ++ [s])).
  { apply chain_snoc; [exact Hc|]. intros l Hlast. by apply Hl. }
  destruct (sm !! s) as [step|] eqn:Hs.
  - destruct (foldl (visit sm fuel (p ++ [s])) (Some st1) (followed step)) as [st2|] eqn:Hf;
      [|discriminate Hd].
    simpl in Hd. inversion Hd; subst st'; clear Hd. simpl.
    destruct (fold_sound fuel (p ++ [s]) s step IH Hs (last_snoc _ _) Hc1
                (followed step) st1 st2 (fun t H => H) Hf Hst1) as [S2 E2].
    split; [rewrite S2; unfold st1; simpl; set_solver|exact E2].
  - simpl in Hd. inversion Hd; subst st'; clear Hd. simpl.
    split; [set_solver|by left].
Qed.

Lemma sweep_sound fuel steps : ∀ a st,
  foldl (sweep fuel sm) (Some a) steps = Some st →
  recursionStack a = ∅ →
  recursionStack st = ∅ ∧ (errors st = errors a ∨ ∃ c, tc (followed_edge sm) c c).
Proof.
  induction steps as [|s steps IH]; intros a st Hf Ha.
  { inversion Hf; subst. auto. }
  cbn [foldl] in Hf. unfold sweep at 2 in Hf. cbn [mbind option_bind] in Hf.
  destruct (decide (id s ∈ visited a)); [by apply IH|].
  destruct (detectCycle fuel sm (Some (id s)) [] a) as [a1|] eqn:Hd.
  2:{ assert (Hn : ∀ l, foldl (sweep fuel sm) None l = None) by (induction l; auto).
      rewrite Hn in Hf. discriminate. }
  destruct (detect_sound fuel _ _ _ _ Hd) as [S1 E1].
  { rewrite Ha. reflexivity. }
  { intros l1 x y l2 H. destruct l1; discriminate. }
  { intros l H. discriminate. }
  destruct (IH a1 st Hf) as [S2 E2]; [congruence|].
  split; [exact S2|]. destruct E1 as [E1|E1]; [|by right].
  destruct E2 as [E2|E2]; [left; congruence|by right].
Qed.

End SoundProofs.

Section CycleReportProofs.
Import Model Builder.

Lemma run_checks_sound start steps st :
  run_checks start steps = Some st →
  errors st = [] ∨ ∃ c, tc (followed_edge (build_stepMap steps)) c c.
Proof.
  unfold run_checks. set (sm := build_stepMap steps).
  set (fuel := S (size (universe start steps))).
  destruct (truthyS start).
  - destruct (detectCycle fuel sm start [] _) as [st0|] eqn:Hd; [|discriminate].
    cbn [mbind option_bind]. intros Hf.
    destruct (detect_sound sm fuel _ _ _ _ Hd) as [S1 E1].
    { reflexivity. }
    { intros l1 x y l2 H. destruct l1; discriminate. }
    { intros l H. discriminate. }
    destruct (sweep_sound sm fuel steps st0 st Hf) as [_ E2]; [by rewrite S1|].
    destruct E1 as [E1|E1]; [|by right].
    destruct E2 as [E2|E2]; [left; by rewrite E2, E1|by right].
  - cbn [mbind option_bind]. intros Hf.
    destruct (sweep_sound sm fuel steps _ st Hf) as [_ [E2|E2]]; auto.
Qed.

(** X13.  The cycle check reports an error exactly when the targets it follows
    ([onSuccess] and [onFailure] of every step, [onTrue] and [onFalse] of a
    condition step) form a cycle: it raises no false alarm and misses no
    cycle, whatever the start step and whether the step ids are unique or
    not. *)
Theorem cycle_check_is_exact (start : option string) (steps : list Step) :
  valid (checkCircularDependencies start steps) = false ↔
  ∃ x, tc (followed_edge (build_stepMap steps)) x x.
Proof.
  split.
  - unfold checkCircularDependencies. cbn [valid].
    destruct (run_checks_spec start steps) as (st & Hrun & _).
    rewrite Hrun. cbn [from_option].
    destruct (run_checks_sound start steps st Hrun) as [ -> | H ]; [discriminate|auto].
  - intros (x & Hx). pose proof (followed_cycle_reported start steps x Hx) as H.
    unfold checkCircularDependencies in *. cbn [valid check_errors] in *.
    by destruct (from_option errors [] (run_checks start steps)).
Qed.

End CycleReportProofs.

(** * The compiled state machine and the summary *)
Section MachineProofs.
Import Model Builder Machine.

Variable validURL : string → bool.

Lemma compile_all_gen steps : ∀ m0 : gmap string Step,
  fold_left (fun m step => <[id step := compile step]> m) steps (compile <$> m0)
  = compile <$> fold_left (fun m s => <[id s := s]> m) steps m0.
Proof.
  induction steps as [|s steps IH]; intros m0; simpl; [reflexivity|].
  rewrite <- IH. by rewrite fmap_insert.
Qed.

Lemma compile_all_lookup steps x :
  compile_all steps !! x = compile <$> build_stepMap steps !! x.
Proof.
  unfold compile_all, build_stepMap.
  rewrite <- (fmap_empty compile), compile_all_gen. by rewrite lookup_fmap.
Qed.

Lemma find_member steps step :
  NoDup (map id steps) → step ∈ steps →
  js_find (fun s => String.eqb (id s) (id step)) steps = Some step.
Proof.
  induction steps as [|s steps IH]; intros Hnd Hin; [inversion Hin|].
  simpl in Hnd. apply NoDup_cons in Hnd as [Hs Hnd]. simpl.
  apply elem_of_cons in Hin as [ <- | Hin ]; [by rewrite String.eqb_refl|].
  destruct (String.eqb_spec (id s) (id step)) as [Heq|Hne]; [|by apply IH].
  exfalso. apply Hs. rewrite Heq. apply list_elem_of_fmap. by exists step.
Qed.

(** X21.  On the step results of the engine, the compiled state machine never
    takes the success path.  The engine's results carry no [success], so for
    an accepted workflow and a step that is no condition [getNextStep] names
    [onFailure] (or ends the workflow) whatever the status of the result,
    where the engine's [handleStepResult] moves to [onSuccess] after a
    success; only on a condition step whose result is true or false do the
    two name the same step. *)
Theorem state_machine_takes_the_failure_path (wf : Workflow) (steps : list Step)
    (sm : StateMachine) (step : Step) (result : Engine.StepOutcome) :
  buildStateMachine validURL wf = Store.Ok sm →
  w_steps wf = Some steps →
  step ∈ steps →
  getNextStep (Some sm) (id step) (engine_result result)
  = (if isS (type step) "condition" then
       match Engine.o_conditionResult result with
       | Some true => Advance.or_null (onTrue step)
       | Some false => Advance.or_null (onFalse step)
       | None => None
       end
     else Advance.or_null (onFailure step)) ∧
  (isS (type step) "condition" = true → Engine.o_conditionResult result ≠ None →
   getNextStep (Some sm) (id step) (engine_result result)
   = Advance.or_null (Advance.next_step step result)) ∧
  (isS (type step) "condition" = false → Engine.o_status result = "success" →
   Advance.next_step step result = Advance.or_null (onSuccess step)).
Proof.
  intros Hb Hs Hin. unfold buildStateMachine in Hb.
  destruct (valid (validateWorkflow validURL wf)) eqn:Hv; [|discriminate Hb].
  cbn [negb] in Hb. injection Hb as <-.
  destruct (accepted_parts validURL wf Hv) as (steps' & Hs' & _ & Hnd & _).
  assert (steps' = steps) by congruence. subst steps'.
  assert (Hnext : getNextStep
            (Some {| sm_name := if String.eqb (w_name wf) "" then "Unnamed Workflow"
                                else w_name wf;
                     sm_startStep := w_startStep wf;
                     sm_steps := compile_all (default [] (w_steps wf)) |})
            (id step) (engine_result result)
          = (if isS (type step) "condition" then
               match Engine.o_conditionResult result with
               | Some true => Advance.or_null (onTrue step)
               | Some false => Advance.or_null (onFalse step)
               | None => None
               end
             else Advance.or_null (onFailure step))).
  { unfold getNextStep. cbn [sm_steps]. rewrite Hs. cbn [default from_option].
    unfold Datatypes.id. rewrite compile_all_lookup.
    rewrite (find_stepMap_gen steps ∅ (id step) step Hnd (find_member _ _ Hnd Hin)
             : build_stepMap steps !! id step = Some step).
    cbn [fmap option_fmap option_map compile m_type m_transitions].
    unfold buildTransitions, Advance.or_null, kept, engine_result.
    cbn [success conditionResult].
    destruct (isS (type step) "condition") eqn:Hc.
    - cbn [t_onTrue t_onFalse].
      destruct (Engine.o_conditionResult result) as [ [ | ] | ] eqn:Ho.
      + rewrite bool_decide_eq_true_2 by reflexivity. cbn [andb].
        destruct (truthyS (onTrue step)) eqn:Ht; cbn [truthyS]; [by rewrite Ht|].
        rewrite bool_decide_eq_false_2 by discriminate. reflexivity.
      + rewrite bool_decide_eq_false_2 by discriminate.
        rewrite bool_decide_eq_true_2 by reflexivity. cbn [andb].
        destruct (truthyS (onFalse step)) eqn:Ht; cbn [truthyS]; [by rewrite Ht|reflexivity].
      + rewrite !bool_decide_eq_false_2 by discriminate. reflexivity.
    - cbn [t_onSuccess t_onFailure andb negb].
      destruct (truthyS (onFailure step)) eqn:Ht; cbn [truthyS]; [by rewrite Ht|reflexivity]. }
  split; [exact Hnext|]. split.
  - intros Hc Hcr. rewrite Hnext, Hc. unfold Advance.next_step. rewrite Hc.
    destruct (Engine.o_conditionResult result) as [ [ | ] | ]; [reflexivity|reflexivity|].
    contradiction.
  - intros Hc Hst. unfold Advance.next_step. rewrite Hc, Hst. reflexivity.
Qed.

(** What one round of the count leaves under [t]. *)
Lemma tally_lookup summary step t :
  tally summary step !! t =
  if String.eqb (type_key step) t && negb (String.eqb t "__proto__")
  then Some (Proto.plus_one (Proto.or_else (Proto.get summary t) (Proto.Number 0)))
  else summary !! t.
Proof.
  unfold tally, Proto.set.
  destruct (String.eqb_spec (type_key step) t) as [->|Hne]; cbn [andb].
  - destruct (String.eqb_spec t "__proto__"); cbn [negb]; [reflexivity|].
    by rewrite lookup_insert_eq.
  - destruct (String.eqb (type_key step) "__proto__"); [reflexivity|].
    by rewrite lookup_insert_ne.
Qed.

(** What the count holds under [t] after [steps]: nothing for a type no
    step has, and nothing under [__proto__]; a string for any other type that
    names an inherited property; the number of steps of the type
    otherwise. *)
Lemma summary_count steps t :
  fold_left tally steps ∅ !! t
  = let n := length (List.filter (fun s => String.eqb (type_key s) t) steps) in
    if Nat.eqb n 0 then None
    else if Proto.inherited t
         then if String.eqb t "__proto__" then None else Some (Proto.Text t n)
         else Some (Proto.Number (Z.of_nat n)).
Proof.
  cbv zeta.
  induction steps as [|s steps IH] using rev_ind; [reflexivity|].
  rewrite fold_left_app. cbn [fold_left]. rewrite tally_lookup.
  rewrite List.filter_app, length_app. cbn [List.filter].
  destruct (String.eqb_spec (type_key s) t) as [Heq|Hne]; cbn [andb length].
  2:{ rewrite Nat.add_0_r. exact IH. }
  set (n := length (List.filter (fun s => String.eqb (type_key s) t) steps)) in *.
  clearbody n. unfold Proto.get. rewrite IH.
  replace (n + 1)%nat with (S n) by lia. cbn [Nat.eqb].
  destruct (String.eqb_spec t "__proto__") as [->|Hp]; cbn [negb].
  { change (Proto.inherited "__proto__") with true. cbv iota.
    destruct (Nat.eqb n 0); reflexivity. }
  destruct (Nat.eqb_spec n 0) as [Hz|Hn]; [subst n|].
  - destruct (Proto.inherited t); reflexivity.
  - destruct (Proto.inherited t); cbn.
    + reflexivity.
    + destruct (Z.eqb_spec (Z.of_nat n) 0); [lia|]. cbn. do 2 f_equal. lia.
Qed.

(** X22.  The summary counts every step once under its type, unless the type
    names a property that objects inherit: the count of any other type is
    the number of steps of that type (a type no step has is not listed); a
    type named as an inherited property is listed with a string, never a
    number, and [__proto__] is not listed at all.  The step count is the
    number of steps, and a summary that reports the workflow valid reports
    no circular dependency. *)
Theorem summary_counts_every_step_once (wf : Workflow) (steps : list Step) :
  w_steps wf = Some steps →
  ∃ summary, getSummary validURL wf = Some summary ∧
    stepCount summary = Z.of_nat (length steps) ∧
    (∀ t, let n := length (List.filter (fun s => String.eqb (type_key s) t) steps) in
          stepTypes summary !! t
          = if Nat.eqb n 0 then None
            else if Proto.inherited t
                 then if String.eqb t "__proto__" then None else Some (Proto.Text t n)
                 else Some (Proto.Number (Z.of_nat n))) ∧
    (isValid summary = true → hasCircularDependencies summary = false).
Proof.
  intros Hs. unfold getSummary. rewrite Hs. eexists. split; [reflexivity|].
  cbn [stepCount stepTypes isValid hasCircularDependencies]. split_and!.
  - unfold orZ. destruct (Z.eqb_spec (Z.of_nat (length steps)) 0); lia.
  - intros t. cbv zeta. unfold getStepTypesSummary. rewrite Hs. apply summary_count.
  - intros Hv. destruct (accepted_parts validURL wf Hv) as (steps' & Hs' & H).
    assert (steps' = steps) by congruence. subst steps'.
    destruct H as (_ & _ & _ & _ & _ & _ & _ & He).
    unfold checkCircularDependencies in *. cbn [valid check_errors] in *.
    by rewrite He.
Qed.

Lemma find_of_id steps x :
  x ∈ map id steps → is_Some (js_find (fun s => String.eqb (id s) x) steps).
Proof.
  induction steps as [|s steps IH]; intros Hin; [inversion Hin|]. simpl.
  destruct (String.eqb_spec (id s) x) as [Heq|Hne]; [eauto|].
  apply IH. simpl in Hin. apply elem_of_cons in Hin as [Hin|Hin]; [congruence|exact Hin].
Qed.

(** X14.  An accepted workflow has no dangling way out of a step that is no
    condition: its start step exists, and whatever such a step results in,
    the step the engine moves to next exists, so the engine's 'Step not
    found' error cannot come from [startStep], [onSuccess] or [onFailure].
    (The targets of a condition step, [onTrue] and [onFalse], are not
    checked.) *)
Theorem accepted_workflow_has_no_dangling_transition (wf : Workflow) (steps : list Step) :
  valid (validateWorkflow validURL wf) = true →
  w_steps wf = Some steps →
  is_Some (getStartStep wf) ∧
  ∀ step result, step ∈ steps → isS (type step) "condition" = false →
    truthyS (Advance.next_step step result) = true →
    is_Some (getStep wf (default "" (Advance.next_step step result))).
Proof.
  intros Hv Hs.
  destruct (accepted_parts validURL wf Hv)
    as (steps' & Hs' & _ & _ & _ & Hok & Hko & Hst & Hstart & _).
  assert (steps' = steps) by congruence. subst steps'.
  split.
  - unfold getStartStep, getStep. rewrite Hst, Hs. cbn [negb]. by apply find_of_id.
  - intros step result Hin Hc Hnext. unfold getStep. rewrite Hs. apply find_of_id.
    unfold Advance.next_step, Advance.or_null in *. rewrite Hc in *.
    destruct (String.eqb (Engine.o_status result) "success").
    + destruct (truthyS (onSuccess step)) eqn:Ht; [|discriminate Hnext]. by apply Hok.
    + destruct (truthyS (onFailure step)) eqn:Ht; [|discriminate Hnext]. by apply Hko.
Qed.

End MachineProofs.

(** * A schedule fires *)
Section FireProofs.
Import Model Store Scheduler MaintenanceWindows Trigger.

Variable tz_now : string → option Z.
Variable cron_previous : string → string → result (option Z).
Variable cron_next : option Z.
Variable wsagents : list (string * option string).

Local Abbreviation canJobRun := (MaintenanceWindows.canJobRun tz_now cron_previous).
Local Abbreviation handleScheduleTrigger :=
  (Trigger.handleScheduleTrigger tz_now cron_previous cron_next wsagents).

(** The maintenance gate reads the store and writes nothing. *)
Lemma canJobRun_reads schedule timestamp w :
  ∃ verdict w', canJobRun schedule timestamp w = (Ok verdict, w') ∧
    docs w' = docs w ∧ next_id w' = next_id w ∧ clock w' = clock w ∧
    (faults w = [] → w' = w).
Proof.
  unfold MaintenanceWindows.canJobRun, try_catch.
  destruct (s_maintenanceWindowIds schedule) as [ [ | i ids ] | ]; cbn;
    try (eexists _, _; split_and!; eauto; fail).
  unfold getMaintenanceWindows, try_catch, find, bind, access.
  destruct (faults w) as [ | [ | ] fs ] eqn:Hf; cbn;
    eexists _, _; (split; [reflexivity|]); split_and!; auto; discriminate.
Qed.

Lemma find_schedule_of_id i l s :
  js_find (has_id i) l = Some (DSchedule s) →
  js_find (is_schedule i) l = Some (DSchedule s).
Proof.
  induction l as [|d l IH]; simpl; [discriminate|].
  destruct (has_id i d) eqn:Hd.
  - intros [= ->]. simpl. unfold has_id in Hd. simpl in Hd. by rewrite Hd.
  - intros H. destruct (is_schedule i d) eqn:He; [|auto].
    destruct d; simpl in He; try discriminate. unfold has_id in Hd. simpl in Hd. congruence.
Qed.

Lemma find_after_set_lastRun i t l s :
  js_find (has_id i) l = Some (DSchedule s) →
  js_find (has_id i) (update_first (has_id i) (set_lastRun t) l)
  = Some (set_lastRun t (DSchedule s)).
Proof.
  induction l as [|d l IH]; simpl; [discriminate|].
  destruct (has_id i d) eqn:Hd.
  - intros [= ->]. simpl. unfold has_id in *. simpl in *. by rewrite Hd.
  - intros H. simpl. rewrite Hd. auto.
Qed.

Lemma update_first_id q l : update_first q (fun d => d) l = l.
Proof. induction l as [|d l IH]; simpl; [reflexivity|]. destruct (q d); congruence. Qed.

(** X11.  A trigger that the maintenance gate blocks sets off no job and records
    no run: the collection is as it was, and the schedule joins the deferred
    queue exactly when its missed-job policy is 'queue'. *)
Theorem blocked_trigger_only_queues (schedule : Schedule)
    (nodes meshes : option (list string)) (queue : list QueueEntry)
    (w : World) (verdict : Verdict) :
  fst (canJobRun schedule (clock w) w) = Ok verdict →
  allowed verdict = false →
  ∃ report w', handleScheduleTrigger schedule nodes meshes queue w = (Ok report, w') ∧
    docs w' = docs w ∧
    dispatched report = [] ∧
    jobQueue report
    = if isS (s_missedJobPolicy schedule) "queue"
      then queueScheduleForLater (s_id schedule) (s_priority schedule) (clock w) queue
      else queue.
Proof.
  intros Hv Hb.
  destruct (canJobRun_reads schedule (clock w) w) as (v & w1 & Hrun & Hd & _ & Hc & _).
  rewrite Hrun in Hv. cbn in Hv. injection Hv as ->.
  unfold Trigger.handleScheduleTrigger. unfold bind at 1. unfold now at 1.
  rewrite (bind_ok _ _ _ _ _ Hrun), Hb. cbn [negb].
  destruct (isS (s_missedJobPolicy schedule) "queue").
  - unfold bind, now, ret. eexists _, _. split; [reflexivity|]. cbn. rewrite Hc. auto.
  - unfold ret. eexists _, _. split; [reflexivity|]. auto.
Qed.

(** X12.  A run unblocks the schedules that wait for it.  While the store
    answers and the clock is not at zero, a trigger that passes both gates
    sets off the jobs for its target nodes and records the run; afterwards a
    schedule that depends on this one alone, and last ran no later, finds its
    dependencies ready. *)
Theorem recorded_run_unblocks_dependents (schedule stored : Schedule)
    (nodes meshes : option (list string)) (queue : list QueueEntry)
    (w : World) (verdict : Verdict) :
  faults w = [] →
  clock w ≠ 0 →
  js_find (has_id (s_id schedule)) (docs w) = Some (DSchedule stored) →
  fst (canJobRun schedule (clock w) w) = Ok verdict →
  allowed verdict = true →
  (∀ depId rest, s_dependsOn schedule = Some (depId :: rest) →
     fst (checkDependencies schedule w) = Ok true) →
  ∃ report w', handleScheduleTrigger schedule nodes meshes queue w = (Ok report, w') ∧
    dispatched report = Dispatch.getTargetNodes nodes meshes wsagents ∧
    jobQueue report = queue ∧
    (∃ updated, js_find (has_id (s_id schedule)) (docs w') = Some (DSchedule updated) ∧
                s_lastRun updated = Some (clock w)) ∧
    ∀ dependent, s_dependsOn dependent = Some [s_id schedule] →
      (∀ mine, s_lastRun dependent = Some mine → mine ≤ clock w) →
      checkDependencies dependent w' = (Ok true, w').
Proof.
  intros Hf Hclock Hst Hv Ha Hdeps.
  destruct (canJobRun_reads schedule (clock w) w) as (v & w1 & Hrun & _ & _ & _ & Hw).
  rewrite (Hw Hf) in Hrun. rewrite Hrun in Hv. cbn in Hv. injection Hv as ->.
  assert (Hready : match s_dependsOn schedule with
                   | Some (_ :: _) => checkDependencies schedule
                   | _ => ret true
                   end w = (Ok true, w)).
  { destruct (s_dependsOn schedule) as [ [ | depId rest ] | ] eqn:Hd; try reflexivity.
    specialize (Hdeps depId rest eq_refl).
    unfold checkDependencies, try_catch in *. rewrite Hd in *.
    destruct (dependencies_ready_healthy (s_lastRun schedule) (depId :: rest) w Hf)
      as (b & Hb & _).
    rewrite Hb in *. cbn in Hdeps. by injection Hdeps as ->. }
  set (w' := set_docs (update_first (has_id (s_id schedule)) (set_lastRun (clock w))) w).
  assert (Hrec : try_catch (record_run cron_next schedule (clock w)) (fun _ => ret tt) w
                 = (Ok tt, w')).
  { unfold try_catch, record_run. rewrite (bind_ok _ _ _ _ _ (updateOne_healthy _ _ _ Hf)).
    fold w'. destruct cron_next; [|reflexivity].
    assert (Hf' : faults w' = []) by exact Hf.
    rewrite (updateOne_healthy _ _ _ Hf'). f_equal.
    unfold w', set_docs. cbn. by rewrite update_first_id. }
  assert (Hfound : js_find (has_id (s_id schedule)) (docs w')
                   = Some (set_lastRun (clock w) (DSchedule stored))).
  { unfold w'. cbn [docs set_docs]. by apply find_after_set_lastRun. }
  exists {| dispatched := Dispatch.getTargetNodes nodes meshes wsagents; jobQueue := queue |}, w'.
  split_and!; try reflexivity.
  - unfold Trigger.handleScheduleTrigger. unfold bind at 1. unfold now at 1.
    rewrite (bind_ok _ _ _ _ _ Hrun), Ha. cbn [negb].
    rewrite (bind_ok _ _ _ _ _ Hready). cbn [negb].
    by rewrite (bind_ok _ _ _ _ _ Hrec).
  - eexists. split; [exact Hfound|reflexivity].
  - intros dependent Hd Hmine.
    assert (Hf' : faults w' = []) by exact Hf.
    unfold checkDependencies, try_catch. rewrite Hd. cbn [dependencies_ready].
    rewrite (bind_ok _ _ _ _ _ (findOne_healthy _ _ Hf')).
    rewrite (find_schedule_of_id _ _ _ Hfound). cbn [s_lastRun truthyZ].
    rewrite (proj2 (Z.eqb_neq _ _) Hclock). cbn [negb default from_option].
    destruct (s_lastRun dependent) as [mine|]; cbn; [|reflexivity].
    specialize (Hmine mine eq_refl).
    destruct (Z.eqb mine 0); cbn; [reflexivity|].
    rewrite (proj2 (Z.ltb_ge _ _)) by exact Hmine. reflexivity.
Qed.

End FireProofs.

(** * The steps of accepted workflows, and output patterns *)
Section AcceptedStepProofs.
Import Model Builder.

Variable validURL : string → bool.

Lemma validateStep_nil step :
  validateStep validURL step = [] →
  id step ≠ "" ∧ truthyS (type step) = true ∧
  includesS stepTypes (default "" (type step)) = true ∧
  (∀ n, timeout step = Some n → 0 < n).
Proof.
  unfold validateStep.
  destruct (String.eqb_spec (id step) ""); [discriminate|].
  destruct (truthyS (type step)); cbn [negb]; [|discriminate].
  intros H. apply app_eq_nil in H as [Ht H]. apply app_eq_nil in H as [Hto _].
  split_and!; auto.
  - by apply if_negb_nil in Ht.
  - intros t Heq. rewrite Heq in Hto. destruct (Z.leb_spec t 0); [discriminate|lia].
Qed.

(** X15.  Every step of an accepted workflow is of a type the engine runs, and
    times out after a positive number of seconds: the engine's 'Unknown step
    type' error cannot occur, and an attempt of the step is the work of its
    collaborators unless it is a script step without [scriptId] (which
    validation lets pass when [script] is given). *)
Theorem accepted_steps_are_of_known_types (wf : Workflow) (steps : list Step) :
  valid (validateWorkflow validURL wf) = true →
  w_steps wf = Some steps →
  ∀ step, step ∈ steps →
    0 < orZ (timeout step) 300 ∧
    ∀ work k,
      Engine.attempt_step work k step
      = if isS (type step) "script" && negb (truthyS (scriptId step))
        then Engine.Thrown "Script step missing scriptId"
        else work k.
Proof.
  intros Hv Hs step Hin.
  destruct (accepted_parts validURL wf Hv) as (steps' & Hs' & _ & _ & Hok & _).
  assert (steps' = steps) by congruence. subst steps'.
  destruct (validateStep_nil step (Hok step Hin)) as (_ & Ht & Hknown & Hto).
  split.
  - unfold orZ. destruct (timeout step) as [n|]; [|lia]. specialize (Hto n eq_refl).
    destruct (Z.eqb_spec n 0); lia.
  - intros work k. unfold Engine.attempt_step. rewrite Hknown.
    destruct (type step) as [t|]; [reflexivity|discriminate Ht].
Qed.

End AcceptedStepProofs.

Section PatternProofs.
Import Js Conditions.

Variable number_to_string : Q → string.
Variable regex_test : string → string → string → option bool.
Variable json_parse : string → option value.

Local Abbreviation evaluate := (Conditions.evaluate number_to_string regex_test json_parse).

(** X26.  On a job result whose output is a non-empty string, and for a pattern
    that is a string, 'notContains' is the negation of 'contains', with or
    without case sensitivity. *)
Theorem not_contains_negates_contains (pattern output : string) (caseSensitive : value)
    (more : list (string * value)) :
  output ≠ "" →
  evaluate (Samples.output_pattern "notContains" pattern caseSensitive)
           (VObj (("output", VStr output) :: more))
  = negb (evaluate (Samples.output_pattern "contains" pattern caseSensitive)
                   (VObj (("output", VStr output) :: more))).
Proof.
  intros Hne. unfold Conditions.evaluate, Samples.output_pattern.
  cbn [nesting fold_right snd Nat.max Conditions.evaluate_at].
  cbn [get js_find fst snd String.eqb Ascii.eqb Bool.eqb from_option mbind option_bind
       truthy negb strict_eq].
  unfold evaluateOutputPattern.
  cbn [get js_find fst snd String.eqb Ascii.eqb Bool.eqb from_option mbind option_bind].
  assert (Hor : ∀ x, or_else (VStr output) x = VStr output).
  { intros x. unfold or_else. cbn [truthy]. by rewrite (proj2 (String.eqb_neq _ _) Hne). }
  rewrite !Hor.
  change (or_else (VStr "notContains") (VStr "contains")) with (VStr "notContains").
  change (or_else (VStr "contains") (VStr "contains")) with (VStr "contains").
  destruct (strict_eq caseSensitive (VBool false)); cbn; reflexivity.
Qed.

End PatternProofs.

(** * Worked cases

    Each property above that rests on a hypothesis, applied to sample data. *)

Lemma deferred_queue_is_sorted_witness :
  StronglySorted Dispatch.by_weight
    (Scheduler.queueScheduleForLater 4%nat (Some "high") 40 Samples.queue_out_of_order).
Proof.
  refine (proj1 (deferred_queue_is_sorted 4%nat (Some "high") 40
                   Samples.queue_out_of_order _ _)).
  - intros p [= <-]. reflexivity.
  - repeat constructor; eexists; reflexivity.
Defined.

Lemma deferred_queue_is_first_in_first_out_witness :
  let entry := {| Scheduler.q_scheduleId := 4%nat;
                  Scheduler.q_priority := Proto.Number 3;
                  Scheduler.q_queuedAt := 40 |} in
  ∃ front back,
    Samples.queue_of_three = front ++ back ∧
    Scheduler.queueScheduleForLater 4%nat (Some "normal") 40 Samples.queue_of_three
    = front ++ entry :: back ∧
    Forall (fun a => Dispatch.by_weight a entry) front ∧
    Forall (fun b => Dispatch.lighter entry b) back.
Proof.
  apply (deferred_queue_is_first_in_first_out 4%nat (Some "normal") 40
           Samples.queue_of_three).
  - intros p [= <-]. reflexivity.
  - repeat constructor; eexists; reflexivity.
  - repeat constructor; unfold Dispatch.by_weight; simpl; lia.
Defined.

Lemma fewer_live_jobs_keep_admission_witness :
  Scheduler.within_limits None Samples.agents Samples.limited "web-1"
    [Samples.pending_job; Samples.running_job] = true ∧
  Scheduler.within_limits None Samples.agents Samples.limited "web-1"
    [Samples.pending_job] = true ∧
  Scheduler.within_limits None Samples.agents Samples.limited "web-1"
    [Samples.pending_job; Samples.pending_job] = false.
Proof.
  split; [vm_compute; reflexivity|]. split; [|vm_compute; reflexivity].
  apply (fewer_live_jobs_keep_admission None Samples.agents Samples.limited
           "web-1" [Samples.pending_job] [Samples.pending_job; Samples.running_job]).
  - apply sublist_skip. apply sublist_nil_l.
  - vm_compute. reflexivity.
Defined.

Lemma limits_hold_call_by_call_only_witness :
  let w := Examples.world_of [] [] in
  let w' := snd (Dispatch.run None Samples.agents (Some "s1") Samples.one_in_all
                   (Dispatch.checks_first 2)
                   [Dispatch.Started "web-1"; Dispatch.Started "web-2"] w) in
  Scheduler.limit Samples.one_in_all Model.maxGlobal = Some 1 ∧
  length (Dispatch.live_jobs w) = 0%nat ∧
  Z.of_nat (length (Dispatch.live_jobs w')) = 2.
Proof.
  intros w w'. split; [reflexivity|]. split; [reflexivity|].
  refine (proj1 (proj2 (proj2 (limits_hold_call_by_call_only None Samples.agents
                                 (Some "s1") Samples.one_in_all w eq_refl)
                          ["web-1"; "web-2"] _))).
  repeat constructor.
Defined.

Lemma failed_trigger_creates_nothing_witness :
  let w := Examples.world_of [Store.DWorkflow (Examples.patch_workflow true false)]
             [false; true] in
  let w' := Examples.world_of [Store.DWorkflow (Examples.patch_workflow true false)] [] in
  Store.docs w' = Store.docs w ∧ Store.next_id w' = Store.next_id w
  ∧ Store.activeExecutions w' = Store.activeExecutions w.
Proof.
  intros w w'.
  exact (failed_trigger_creates_nothing (fun _ => true) 1%nat "web-1" "admin" None w w'
           "database error" eq_refl).
Defined.

Lemma exit_code_condition_step_takes_the_false_branch_witness :
  Engine.o_conditionResult
    (Advance.executeConditionStep (fun _ => "") (fun _ _ _ => None) (fun _ => None)
       (Examples.stored_execution "running" [Examples.success_of "backup"])
       Samples.exit_code_step)
  = Some false.
Proof.
  exact (proj1 (exit_code_condition_step_takes_the_false_branch
                  (fun _ => "") (fun _ _ _ => None) (fun _ => None)
                  (Examples.stored_execution "running" [Examples.success_of "backup"])
                  Samples.exit_code_step
                  (Js.VObj [("type", Js.VStr "exitCode"); ("exitCode", Js.num_of_Z 0)])
                  eq_refl eq_refl)).
Defined.

Lemma dependencies_are_ready_exactly_when_each_has_run_witness :
  fst (Scheduler.checkDependencies Samples.dependent Samples.dependency_world) = Store.Ok true.
Proof.
  destruct (dependencies_are_ready_exactly_when_each_has_run Samples.dependent [2%nat]
              Samples.dependency_world eq_refl eq_refl) as (ready & Hrun & Hready).
  rewrite Hrun. cbn [fst]. f_equal. apply Hready.
  intros depId Hin. apply list_elem_of_singleton in Hin. subst depId.
  exists Samples.dependency, 5. split_and!; [reflexivity|reflexivity|lia|discriminate].
Defined.

Lemma listed_priority_is_never_blocked_witness :
  ∃ verdict w',
    MaintenanceWindows.canJobRun Samples.no_clock Samples.two_o_clock
      (Examples.schedule_with (Some "critical") (Some [5%nat]) None)
      Examples.half_past_two
      (Examples.world_of [Store.DWindow Samples.other_window;
                          Store.DWindow Examples.nightly_window] [])
    = (Store.Ok verdict, w')
    ∧ MaintenanceWindows.allowed verdict = true.
Proof.
  apply (listed_priority_is_never_blocked Samples.no_clock Samples.two_o_clock
           (Examples.schedule_with (Some "critical") (Some [5%nat]) None) "critical").
  - reflexivity.
  - intros ids m [= <-] Hm Hid _.
    apply list_elem_of_singleton in Hid.
    apply elem_of_cons in Hm as [Hm|Hm].
    + injection Hm as ->. discriminate Hid.
    + apply list_elem_of_singleton in Hm. injection Hm as ->.
      exists ["critical"]. split; [reflexivity|apply list_elem_of_here].
Defined.

Lemma created_window_is_found_witness :
  ∃ i w',
    WindowAdmin.createMaintenanceWindow Samples.window_data (Examples.world_of [] [])
    = (Store.Ok (Some i), w').
Proof.
  destruct (created_window_is_found Samples.window_data (Examples.world_of [] []) eq_refl)
    as (i & w' & Hc & _).
  - split; [apply NoDup_nil_2|]. intros d Hd. inversion Hd.
  - by exists i, w'.
Defined.


Lemma deleted_window_blocks_no_more_witness :
  ∃ success w',
    WindowAdmin.deleteMaintenanceWindow 5%nat
      (Examples.world_of [Store.DWindow Examples.nightly_window] [])
    = (Store.Ok success, w')
    ∧ fst (MaintenanceWindows.canJobRun Samples.no_clock Samples.two_o_clock
             (Examples.schedule_with (Some "normal") (Some [5%nat]) None)
             Examples.half_past_two w')
      = Store.Ok {| MaintenanceWindows.allowed := true;
                    MaintenanceWindows.reason := "Not in any maintenance window" |}.
Proof.
  destruct (deleted_window_blocks_no_more Samples.no_clock Samples.two_o_clock 5%nat
              (Examples.schedule_with (Some "normal") (Some [5%nat]) None)
              Examples.half_past_two
              (Examples.world_of [Store.DWindow Examples.nightly_window] []))
    as (success & w' & Hd & _ & Hrun).
  - reflexivity.
  - apply NoDup_singleton.
  - reflexivity.
  - exists success, w'. split; [exact Hd|]. by rewrite Hrun.
Defined.


Lemma failed_step_without_failure_path_completes_as_success_witness :
  ∃ w' final,
    Advance.executeWorkflow Samples.no_escalation Samples.always_fails 2
      (Examples.stored_execution "running" []) (Examples.patch_workflow true false)
      (Examples.world_of [Store.DWorkflow (Examples.patch_workflow true false);
                          Store.DExecution (Examples.stored_execution "running" [])] [])
    = Some (Store.Ok tt, w')
    ∧ js_find (Store.has_id 7%nat) (Store.docs w') = Some (Store.DExecution final)
    ∧ Model.e_status final = "success".
Proof.
  destruct (failed_step_without_failure_path_completes_as_success
              Samples.no_escalation Samples.always_fails
              (Examples.patch_workflow true false)
              [ {| Model.id := "backup"; Model.name := None; Model.type := Some "script";
                   Model.timeout := None; Model.scriptId := Some "s1"; Model.script := None;
                   Model.priority := None; Model.url := None; Model.method := None;
                   Model.to := None; Model.subject := None; Model.body := None;
                   Model.template := None; Model.duration := None; Model.condition := None;
                   Model.onSuccess := Some "patch"; Model.onFailure := None;
                   Model.onTrue := None; Model.onFalse := None; Model.retryPolicy := None;
                   Model.rollbackScriptId := Some "undo-backup" |};
                Model.script_step "patch" "s2" None None ]
              (Examples.stored_execution "running" [])
              (Examples.stored_execution "running" [])
              (Examples.stored_execution "running" [])
              "patch" (Model.script_step "patch" "s2" None None) Samples.failing_run
              (Examples.world_of [Store.DWorkflow (Examples.patch_workflow true false);
                                  Store.DExecution (Examples.stored_execution "running" [])] [])
              (Examples.world_of [Store.DWorkflow (Examples.patch_workflow true false);
                                  Store.DExecution (Examples.stored_execution "running" [])] [])
              0%nat)
    as (w' & final & Hrun & Hfind & Hstatus & _);
    try reflexivity; try discriminate.
  exists w', final. split_and!; assumption.
Defined.


Lemma composite_is_the_logic_of_its_parts_witness :
  Conditions.evaluate (fun _ => "") (fun _ _ _ => None) (fun _ => None)
    Samples.both_high (Js.VObj [("disk", Js.num_of_Z 95); ("memory", Js.num_of_Z 85)])
  = forallb (fun c => Conditions.evaluate (fun _ => "") (fun _ _ _ => None) (fun _ => None) c
                        (Js.VObj [("disk", Js.num_of_Z 95); ("memory", Js.num_of_Z 85)]))
      [Examples.threshold "disk" "gt" 90; Examples.threshold "memory" "gt" 80].
Proof.
  exact (proj1 (composite_is_the_logic_of_its_parts (fun _ => "") (fun _ _ _ => None)
                  (fun _ => None) Samples.both_high
                  (Js.VObj [("disk", Js.num_of_Z 95); ("memory", Js.num_of_Z 85)])
                  [Examples.threshold "disk" "gt" 90; Examples.threshold "memory" "gt" 80]
                  (Js.VStr "and") eq_refl eq_refl eq_refl)
           (or_intror eq_refl)).
Defined.

Lemma threshold_on_missing_plain_field_is_false_witness :
  Conditions.evaluate (fun _ => "") (fun _ _ _ => None) (fun _ => None)
    (Examples.threshold "diskUsage" "lt" 90) (Js.VObj [("memory", Js.num_of_Z 85)])
  = false.
Proof.
  apply (threshold_on_missing_plain_field_is_false (fun _ => "") (fun _ _ _ => None)
           (fun _ => None) (Examples.threshold "diskUsage" "lt" 90) "diskUsage");
    try reflexivity. discriminate.
Defined.

Lemma unknown_condition_type_is_accepted_but_never_true_witness :
  ConditionCheck.validateCondition (Js.VObj [("type", Js.VStr "uptime")])
  = {| ConditionCheck.valid := true; ConditionCheck.errors := [] |}.
Proof.
  apply (unknown_condition_type_is_accepted_but_never_true (fun _ => "") (fun _ _ _ => None)
           (fun _ => None) (Js.VObj [("type", Js.VStr "uptime")]) "uptime");
    try reflexivity; discriminate.
Defined.

Lemma state_machine_takes_the_failure_path_witness :
  Machine.getNextStep (Some Samples.chain_machine) "A"
    (Machine.engine_result Samples.succeeded) = None ∧
  Advance.next_step (Model.script_step "A" "s1" (Some "B") None) Samples.succeeded
  = Some "B".
Proof.
  destruct (state_machine_takes_the_failure_path (fun _ => true) Samples.chain_workflow
              Builder.steps_ABC Samples.chain_machine
              (Model.script_step "A" "s1" (Some "B") None) Samples.succeeded)
    as (Hmachine & _ & Hengine).
  - vm_compute. reflexivity.
  - reflexivity.
  - apply list_elem_of_here.
  - split; [exact Hmachine|]. by apply Hengine.
Defined.

Lemma summary_counts_every_step_once_witness :
  ∃ summary, Machine.getSummary (fun _ => true) Samples.chain_workflow = Some summary
    ∧ Machine.stepCount summary = 3
    ∧ Machine.stepTypes summary !! "script" = Some (Proto.Number 3)
    ∧ Machine.stepTypes summary !! "toString" = None.
Proof.
  destruct (summary_counts_every_step_once (fun _ => true) Samples.chain_workflow
              Builder.steps_ABC eq_refl) as (summary & Hs & Hc & Ht & _).
  exists summary. split_and!; [exact Hs|exact Hc|exact (Ht "script")|exact (Ht "toString")].
Defined.

Lemma accepted_workflow_has_no_dangling_transition_witness :
  is_Some (Machine.getStartStep Samples.chain_workflow).
Proof.
  apply (accepted_workflow_has_no_dangling_transition (fun _ => true) Samples.chain_workflow
           Builder.steps_ABC).
  - vm_compute. reflexivity.
  - reflexivity.
Defined.
Lemma blocked_trigger_only_queues_witness :
  ∃ report w',
    Trigger.handleScheduleTrigger Samples.no_clock Samples.two_o_clock None []
      Samples.blocked_schedule None None [] Samples.half_past_two_world
    = (Store.Ok report, w')
    ∧ Trigger.dispatched report = []
    ∧ length (Trigger.jobQueue report) = 1%nat.
Proof.
  destruct (blocked_trigger_only_queues Samples.no_clock Samples.two_o_clock None []
              Samples.blocked_schedule None None [] Samples.half_past_two_world
              {| MaintenanceWindows.allowed := false;
                 MaintenanceWindows.reason := "Blocked by maintenance window 'nightly'" |}
              eq_refl eq_refl)
    as (report & w' & Hrun & _ & Hnone & Hqueue).
  exists report, w'. split_and!; [exact Hrun|exact Hnone|]. by rewrite Hqueue.
Defined.

Lemma recorded_run_unblocks_dependents_witness :
  ∃ report w',
    Trigger.handleScheduleTrigger Samples.no_clock Samples.two_o_clock None
      [("web-1", Some "mesh-a")]
      Samples.dependency (Some ["web-1"]) None [] Samples.running_world
    = (Store.Ok report, w')
    ∧ Trigger.dispatched report = ["web-1"]
    ∧ Scheduler.checkDependencies Samples.dependent w' = (Store.Ok true, w').
Proof.
  destruct (recorded_run_unblocks_dependents Samples.no_clock Samples.two_o_clock None
              [("web-1", Some "mesh-a")]
              Samples.dependency Samples.dependency (Some ["web-1"]) None []
              Samples.running_world
              {| MaintenanceWindows.allowed := true;
                 MaintenanceWindows.reason := "No maintenance windows defined" |})
    as (report & w' & Hrun & Hd & _ & _ & Hdep);
    try reflexivity; try discriminate.
  exists report, w'. split_and!; [exact Hrun|exact Hd|].
  apply Hdep; [reflexivity|discriminate].
Defined.

Lemma accepted_steps_are_of_known_types_witness :
  0 < orZ (Model.timeout (Model.script_step "A" "s1" (Some "B") None)) 300.
Proof.
  apply (accepted_steps_are_of_known_types (fun _ => true) Samples.chain_workflow
           Builder.steps_ABC).
  - vm_compute. reflexivity.
  - reflexivity.
  - apply list_elem_of_here.
Defined.

Lemma not_contains_negates_contains_witness :
  Conditions.evaluate (fun _ => "") (fun _ _ _ => None) (fun _ => None)
    (Samples.output_pattern "notContains" "error" (Js.VBool false))
    (Js.VObj [("output", Js.VStr "All good")])
  = negb (Conditions.evaluate (fun _ => "") (fun _ _ _ => None) (fun _ => None)
            (Samples.output_pattern "contains" "error" (Js.VBool false))
            (Js.VObj [("output", Js.VStr "All good")])).
Proof.
  apply (not_contains_negates_contains (fun _ => "") (fun _ _ _ => None) (fun _ => None)
           "error" "All good" (Js.VBool false) []).
  discriminate.
Defined.
